(** * AmgXSolver: device assignment, CSR extraction, exchange and merge

    A shallow embedding of [linalg/AmgXSolver.cpp].  C++ [int] and
    [int64_t] values are integers of [Z] reduced to their two's-complement
    range after every arithmetic operation; [mfem::Array] objects are lists
    read and written through a checked index, where an access outside the
    array (or a read of a slot never written) is a fault. *)

From Stdlib Require Import ZArith Lia Bool Ascii String.
From stdpp Require Import base list sorting.

Local Open Scope Z_scope.

(** ** Machine integers *)

Module Int.

(** The value of [z] in a signed two's-complement word of [w] bits. *)
Definition wrap (w : Z) (z : Z) : Z :=
  (z + 2 ^ (w - 1)) mod 2 ^ w - 2 ^ (w - 1).

Definition in_range (w : Z) (z : Z) : Prop :=
  - 2 ^ (w - 1) <= z < 2 ^ (w - 1).

(** [int] *)
Definition add (a b : Z) : Z := wrap 32 (a + b).
Definition sub (a b : Z) : Z := wrap 32 (a - b).
Definition mul (a b : Z) : Z := wrap 32 (a * b).
(** C++ division truncates towards zero. *)
Definition div (a b : Z) : Z := wrap 32 (Z.quot a b).
Definition rem (a b : Z) : Z := Z.rem a b.
Definition abs (a : Z) : Z := wrap 32 (Z.abs a).

(** [int64_t] *)
Definition add64 (a b : Z) : Z := wrap 64 (a + b).

End Int.

(** ** Checked arrays *)

Module Arr.

Section Access.
Context {A : Type}.

(** [a[i]] as an rvalue. *)
Definition get (a : list A) (i : Z) : option A :=
  if i <? 0 then None else a !! Z.to_nat i.

(** [a[i] = v]. *)
Definition set (a : list A) (i : Z) (v : A) : option (list A) :=
  if (0 <=? i) && (i <? Z.of_nat (length a))
  then Some (<[Z.to_nat i := v]> a) else None.

(** [a.Size()] *)
Definition size (a : list A) : Z := Z.of_nat (length a).

(** Copy [data] into [a] from slot [off] on. *)
Definition store (a : list A) (off : Z) (data : list A) : option (list A) :=
  if (0 <=? off) && (off + Z.of_nat (length data) <=? Z.of_nat (length a))
  then Some (take (Z.to_nat off) a ++ data
             ++ drop (Z.to_nat off + length data) a)
  else None.

(** The [n] slots of [a] from slot [off] on. *)
Definition slice (a : list A) (off n : Z) : option (list A) :=
  if (0 <=? off) && (0 <=? n) && (off + n <=? Z.of_nat (length a))
  then Some (take (Z.to_nat n) (drop (Z.to_nat off) a))
  else None.

End Access.

End Arr.

(** [a] with [data] in place of its slots from [off] on. *)
Definition splice {A : Type} (a : list A) (off : nat) (data : list A) : list A :=
  take off a ++ data ++ drop (off + length data) a.

(** ** Outcomes and counted loops *)

(** A run either completes or stops at the first faulting access; both
    carry the state reached. *)
Inductive outcome (S : Type) : Type :=
| Done (s : S)
| Fault (s : S).
Arguments Done {S} s.
Arguments Fault {S} s.

Definition state_of {S : Type} (o : outcome S) : S :=
  match o with Done s => s | Fault s => s end.

Definition and_then {S : Type} (o : outcome S) (k : S -> outcome S) : outcome S :=
  match o with Done s => k s | Fault s => Fault s end.

Notation "o >>> k" := (and_then o k) (at level 50, left associativity).

Definition completed {S : Type} (o : outcome S) : option S :=
  match o with Done s => Some s | Fault _ => None end.

(** [n] iterations of [body], the index starting at [idx] and going up by
    one each time. *)
Fixpoint iterate {S : Type} (body : Z -> S -> outcome S) (idx : Z) (n : nat)
  (s : S) : outcome S :=
  match n with
  | O => Done s
  | S n' => body idx s >>> iterate body (idx + 1) n'
  end.

(** [for (int idx = lo; idx < hi; idx++) body], for a bound [hi] the body
    does not change. *)
Definition for_range {S : Type} (body : Z -> S -> outcome S) (lo hi : Z)
  (s : S) : outcome S :=
  iterate body lo (Z.to_nat (hi - lo)) s.

(** ** Device assignment (AmgXSolver::setDeviceIDs) *)

(** What is written to standard output. *)
Inductive message : Type :=
| MsgMoreDevices (nDevs : Z)
| MsgNotInitialized
| MsgSolveFailed (status : Z).

(** The members of an instance that [initMPIcomms] and [setDeviceIDs] use. *)
Record topology : Type := {
  localSize : Z;
  myLocalRank : Z;
  devID : Z;
  gpuProc : Z;
  printed : list message
}.

Definition assign (dev : Z) (leader : bool) (t : topology) : topology :=
  {| localSize := localSize t;
     myLocalRank := myLocalRank t;
     devID := dev;
     gpuProc := if leader then 0 else gpuProc t;
     printed := printed t |}.

Definition print_topology (m : message) (t : topology) : topology :=
  {| localSize := localSize t;
     myLocalRank := myLocalRank t;
     devID := devID t;
     gpuProc := gpuProc t;
     printed := printed t ++ [m] |}.

Definition setDeviceIDs (nDevs : Z) (t : topology) : topology :=
  if nDevs =? localSize t then
    assign (myLocalRank t) true t
  else if nDevs >? localSize t then
    assign (myLocalRank t) true (print_topology (MsgMoreDevices nDevs) t)
  else
    let nBasic := Int.div (localSize t) nDevs in
    let nRemain := Int.rem (localSize t) nDevs in
    if myLocalRank t <? Int.mul (Int.add nBasic 1) nRemain then
      assign (Int.div (myLocalRank t) (Int.add nBasic 1))
             (Int.rem (myLocalRank t) (Int.add nBasic 1) =? 0) t
    else
      assign (Int.add
                (Int.div (Int.sub (myLocalRank t) (Int.mul (Int.add nBasic 1) nRemain))
                         nBasic)
                nRemain)
             (Int.rem (Int.sub (myLocalRank t) (Int.mul (Int.add nBasic 1) nRemain))
                      nBasic =? 0) t.

(** The device and the leader flag of node-local rank [r] among [P]
    processes, on an instance whose [gpuProc] was [g0] before the call. *)
Definition rank_topology (P r g0 : Z) : topology :=
  {| localSize := P; myLocalRank := r; devID := 0; gpuProc := g0;
     printed := [] |}.

Definition device_of (P D r g0 : Z) : Z :=
  devID (setDeviceIDs D (rank_topology P r g0)).

Definition is_leader (P D r g0 : Z) : bool :=
  gpuProc (setDeviceIDs D (rank_topology P r g0)) =? 0.

(** The groups as the specification words them: [P / D] processes in each,
    one more in the first [P mod D]. *)
Definition group_size (P D d : Z) : Z :=
  if d <? P mod D then P / D + 1 else P / D.

Definition group_start (P D d : Z) : Z :=
  if d <? P mod D then d * (P / D + 1)
  else (P mod D) * (P / D + 1) + (d - P mod D) * (P / D).

(** ** Row-pointer merge on the device-group leader (AmgXSolver::setA) *)

Section LeaderArrays.
Context {V : Type}.

(** The arrays the leader holds after the three gathers, with the locals
    of the merge block.  A slot of [z_ind] is [None] until it is written:
    [Array<int> z_ind(devWorldSize+1)] allocates without initialising. *)
Record leader_arrays : Type := {
  all_I : list Z;
  all_J : list Z;
  all_A : list V;
  z_ind : list (option Z);
  counter : Z;
  local_nnz : Z;
  local_rows : Z
}.

Definition with_all_I (a : list Z) (s : leader_arrays) : leader_arrays :=
  {| all_I := a; all_J := all_J s; all_A := all_A s; z_ind := z_ind s;
     counter := counter s; local_nnz := local_nnz s;
     local_rows := local_rows s |}.

Definition with_z_ind (z : list (option Z)) (s : leader_arrays) : leader_arrays :=
  {| all_I := all_I s; all_J := all_J s; all_A := all_A s; z_ind := z;
     counter := counter s; local_nnz := local_nnz s;
     local_rows := local_rows s |}.

Definition with_counter (c : Z) (s : leader_arrays) : leader_arrays :=
  {| all_I := all_I s; all_J := all_J s; all_A := all_A s; z_ind := z_ind s;
     counter := c; local_nnz := local_nnz s; local_rows := local_rows s |}.

Definition with_counts (nnz rows : Z) (s : leader_arrays) : leader_arrays :=
  {| all_I := all_I s; all_J := all_J s; all_A := all_A s; z_ind := z_ind s;
     counter := counter s; local_nnz := nnz; local_rows := rows |}.

(** [all_I[idx]] and [z_ind[i]] as rvalues. *)
Definition read_I (s : leader_arrays) (idx : Z) : option Z :=
  Arr.get (all_I s) idx.

Definition read_z (s : leader_arrays) (i : Z) : option Z :=
  match Arr.get (z_ind s) i with
  | Some (Some v) => Some v
  | _ => None
  end.

(** [all_I[idx] = v] and [z_ind[i] = v]. *)
Definition write_I (idx v : Z) (s : leader_arrays) : outcome leader_arrays :=
  match Arr.set (all_I s) idx v with
  | Some a => Done (with_all_I a s)
  | None => Fault s
  end.

Definition write_z (i v : Z) (s : leader_arrays) : outcome leader_arrays :=
  match Arr.set (z_ind s) i (Some v) with
  | Some z => Done (with_z_ind z s)
  | None => Fault s
  end.

(** [if(all_I[idx]==0){ z_ind[counter] = idx-1; counter++; }] *)
Definition note_zero (idx : Z) (s : leader_arrays) : outcome leader_arrays :=
  match read_I s idx with
  | None => Fault s
  | Some v =>
      if v =? 0 then
        write_z (counter s) (Int.sub idx 1) s >>>
        (fun s1 => Done (with_counter (Int.add (counter s1) 1) s1))
      else Done s
  end.

(** Determine the indices of zeros in [all_I]. *)
Definition find_zeros (devWorldSize : Z) (s : leader_arrays) : outcome leader_arrays :=
  write_z 0 0 (with_counter 0 s) >>> (fun s1 =>
  for_range note_zero 1 (Int.sub (Arr.size (all_I s1)) 1)
            (with_counter (Int.add (counter s1) 1) s1)) >>> (fun s2 =>
  write_z devWorldSize (Int.sub (Arr.size (all_I s2)) 1) s2).

(** [all_I[idx] = all_I[idx-1] + (all_I[idx+1] - all_I[idx]);] *)
Definition bump_at (idx : Z) (s : leader_arrays) : outcome leader_arrays :=
  match read_I s (Int.sub idx 1), read_I s (Int.add idx 1), read_I s idx with
  | Some a, Some b, Some c => write_I idx (Int.add a (Int.sub b c)) s
  | _, _, _ => Fault s
  end.

(** [all_I[idx] = all_I[idx+1];] *)
Definition shift_at (idx : Z) (s : leader_arrays) : outcome leader_arrays :=
  match read_I s (Int.add idx 1) with
  | Some b => write_I idx b s
  | None => Fault s
  end.

(** One turn of [while(iter < devWorldSize-1)]. *)
Definition merge_pass (devWorldSize : Z) (iter : Z) (s : leader_arrays)
  : outcome leader_arrays :=
  find_zeros devWorldSize s >>> (fun s1 =>
  match read_z s1 1, read_z s1 2 with
  | Some z1, Some z2 =>
      for_range bump_at (Int.add z1 1) z2 s1 >>> (fun s2 =>
      for_range shift_at z2 (Int.sub (Arr.size (all_I s2)) 1) s2)
  | _, _ => Fault s1
  end).

(** The last time through the array. *)
Definition merge_last (devWorldSize nDevRows : Z) (s : leader_arrays)
  : outcome leader_arrays :=
  find_zeros devWorldSize s >>> (fun s1 =>
  match read_z s1 1 with
  | Some z1 =>
      for_range bump_at (Int.add z1 1) (Int.sub (Arr.size (all_I s1)) 1) s1
      >>> (fun s2 =>
      match read_I s2 (Int.sub (Arr.size (all_I s2)) devWorldSize) with
      | Some nnz => Done (with_counts nnz nDevRows s2)
      | None => Fault s2
      end)
  | None => Fault s1
  end).

(** The block under [if(myDevWorldRank == 0)], from the declaration of
    [z_ind] to the assignment of [local_rows]. *)
Definition merge_rowptr (devWorldSize nDevRows : Z) (s : leader_arrays)
  : outcome leader_arrays :=
  let s0 := with_z_ind (replicate (Z.to_nat (Int.add devWorldSize 1)) None) s in
  iterate (merge_pass devWorldSize) 1
          (Z.to_nat (Int.sub devWorldSize 1 - 1)) s0
  >>> merge_last devWorldSize nDevRows.

Definition setA_merge (myDevWorldRank devWorldSize nDevRows : Z)
  (s : leader_arrays) : outcome leader_arrays :=
  if myDevWorldRank =? 0 then merge_rowptr devWorldSize nDevRows s
  else Done s.

(** The leader's arrays when the gathers have completed: [all_I] holds the
    fragments one after the other; [local_nnz] and [local_rows] are 0. *)
Definition gathered (frags : list (list Z)) (J : list Z) (A : list V)
  : leader_arrays :=
  {| all_I := concat frags; all_J := J; all_A := A; z_ind := [];
     counter := 0; local_nnz := 0; local_rows := 0 |}.

(** The row pointer the engine reads at upload: [local_rows + 1] entries
    from the start of [all_I]. *)
Definition uploaded_rowptr (s : leader_arrays) : list Z :=
  take (Z.to_nat (local_rows s + 1)) (all_I s).

End LeaderArrays.

Arguments leader_arrays V : clear implicits.

(** Rows held by a device group: one less than the length of each
    fragment, summed ([nDevRows]). *)
Definition rows_of (frags : list (list Z)) : Z :=
  foldr (fun f n => Z.of_nat (length f) - 1 + n) 0 frags.

(** The sum of the fragments' final values. *)
Definition nnz_of (frags : list (list Z)) : Z :=
  foldr (fun f n => List.last f 0 + n) 0 frags.

(** The merge as the specification words it: each further fragment, less
    its leading zero, is appended with the running total added. *)
Fixpoint join_rowptrs (acc : list Z) (frags : list (list Z)) : list Z :=
  match frags with
  | [] => acc
  | f :: fs => join_rowptrs (acc ++ map (Z.add (List.last acc 0)) (tail f)) fs
  end.

Definition merged_rowptr (frags : list (list Z)) : list Z :=
  match frags with
  | [] => []
  | f :: fs => join_rowptrs f fs
  end.

(** A row pointer with at least one row, starting at 0, non-decreasing,
    whose first row is not empty. *)
Definition rowptr_ok (f : list Z) : Prop :=
  exists r, f = 0 :: r /\ r <> [] /\ Sorted Z.le f /\ Forall (fun x => 0 < x) r.

(** ** Row partition (AmgXSolver::setA, under [gpuProc == 0]) *)

(** [rowPart[i] += rowPart[i-1];] on [int64_t] entries. *)
Definition add_previous (i : Z) (rowPart : list Z) : outcome (list Z) :=
  match Arr.get rowPart i, Arr.get rowPart (Int.sub i 1) with
  | Some x, Some p =>
      match Arr.set rowPart i (Int.add64 x p) with
      | Some r => Done r
      | None => Fault rowPart
      end
  | _, _ => Fault rowPart
  end.

(** From [rowPart.SetSize(gpuWorldSize+1); rowPart=0;] to the end of the
    fixup loop.  [rows] are the values of [local_rows] on the processes of
    [gpuWorld], in rank order: [MPI_Allgather] stores them from slot 1 on. *)
Definition build_rowPart (gpuWorldSize : Z) (rows : list Z) : outcome (list Z) :=
  let rowPart := replicate (Z.to_nat (Int.add gpuWorldSize 1)) 0 in
  match Arr.store rowPart 1 rows with
  | Some gathered_rows =>
      for_range add_previous 1 (Arr.size gathered_rows) gathered_rows
  | None => Fault rowPart
  end.

(** The table as the specification words it: the running sum of the
    counts, after a leading zero. *)
Fixpoint offsets_from (start : Z) (counts : list Z) : list Z :=
  start :: match counts with
           | [] => []
           | c :: cs => offsets_from (start + c) cs
           end.

Definition sum_list (l : list Z) : Z := foldr Z.add 0 l.

(** ** Variable-length exchange (GatherArray, ScatterArray) *)

Section Exchange.
Context {V : Type}.

(** The four reference arguments of [GatherArray] and [ScatterArray] on
    one process of the group. *)
Record xfer : Type := {
  inArr : list V;
  outArr : list V;
  Apart : list Z;
  Adisp : list Z
}.

Definition with_outArr (o : list V) (r : xfer) : xfer :=
  {| inArr := inArr r; outArr := o; Apart := Apart r; Adisp := Adisp r |}.

Definition with_Apart (a : list Z) (r : xfer) : xfer :=
  {| inArr := inArr r; outArr := outArr r; Apart := a; Adisp := Adisp r |}.

Definition with_Adisp (a : list Z) (r : xfer) : xfer :=
  {| inArr := inArr r; outArr := outArr r; Apart := Apart r; Adisp := a |}.

(** [MPI_Allgather(&locAsz, 1, MPI_INT, Apart.GetData(), 1, MPI_INT, comm)]
    with [locAsz = inArr.Size()]: every process receives the sizes of all,
    in rank order, at the start of its [Apart]. *)
Definition MPI_Allgather_sizes (g : list xfer) : option (list xfer) :=
  let sizes := map (fun r => Arr.size (inArr r)) g in
  mapM (fun r => a ← Arr.store (Apart r) 0 sizes; Some (with_Apart a r)) g.

(** [Adisp[i] = Adisp[i-1] + Apart[i-1];] *)
Definition next_disp (i : Z) (r : xfer) : outcome xfer :=
  match Arr.get (Adisp r) (Int.sub i 1), Arr.get (Apart r) (Int.sub i 1) with
  | Some d, Some n =>
      match Arr.set (Adisp r) i (Int.add d n) with
      | Some a => Done (with_Adisp a r)
      | None => Fault r
      end
  | _, _ => Fault r
  end.

(** Determine stride for process. *)
Definition strides (MPI_SZ : Z) (r : xfer) : outcome xfer :=
  match Arr.set (Adisp r) 0 0 with
  | Some a => for_range next_disp 1 MPI_SZ (with_Adisp a r)
  | None => Fault r
  end.

(** What [MPI_Gatherv] leaves in the root's receive buffer: the array sent
    by process [i] lands at [displs[i]], and [recvcounts[i]] is the number
    of elements it sends. *)
Fixpoint gatherv_recv (recvbuf : list V) (recvcounts displs : list Z) (i : nat)
  (sent : list (list V)) : option (list V) :=
  match sent with
  | [] => Some recvbuf
  | x :: sent' =>
      n ← recvcounts !! i;
      d ← displs !! i;
      if n =? Arr.size x then
        buf ← Arr.store recvbuf d x;
        gatherv_recv buf recvcounts displs (S i) sent'
      else None
  end.

(** [MPI_Gatherv(inArr, inArr.Size(), ..., outArr, Apart, Adisp, ..., 0, comm)]:
    the receive arguments count on the root, the first process, only. *)
Definition MPI_Gatherv (g : list xfer) : option (list xfer) :=
  match g with
  | [] => Some []
  | root :: others =>
      buf ← gatherv_recv (outArr root) (Apart root) (Adisp root) 0 (map inArr g);
      Some (with_outArr buf root :: others)
  end.

(** What process [i] receives in [MPI_Scatterv]: [sendcounts[i]] elements
    of the root's send buffer from [displs[i]] on, which its receive
    buffer of [recvcount = outArr.Size()] elements must be able to take. *)
Definition scatterv_recv (sendbuf : list V) (sendcounts displs : list Z)
  (i : nat) (r : xfer) : option xfer :=
  n ← sendcounts !! i;
  d ← displs !! i;
  if n <=? Arr.size (outArr r) then
    data ← Arr.slice sendbuf d n;
    o ← Arr.store (outArr r) 0 data;
    Some (with_outArr o r)
  else None.

Fixpoint scatterv_all (sendbuf : list V) (sendcounts displs : list Z)
  (i : nat) (g : list xfer) : option (list xfer) :=
  match g with
  | [] => Some []
  | r :: g' =>
      r' ← scatterv_recv sendbuf sendcounts displs i r;
      rest ← scatterv_all sendbuf sendcounts displs (S i) g';
      Some (r' :: rest)
  end.

(** [MPI_Scatterv(inArr, Apart, Adisp, ..., outArr, outArr.Size(), ..., 0, comm)] *)
Definition MPI_Scatterv (g : list xfer) : option (list xfer) :=
  match g with
  | [] => Some []
  | root :: _ => scatterv_all (inArr root) (Apart root) (Adisp root) 0 g
  end.

(** [GatherArray(inArr, outArr, MPI_SZ, mpi_comm, Apart, Adisp)] on all the
    processes of the group. *)
Definition GatherArray (MPI_SZ : Z) (g : list xfer) : option (list xfer) :=
  g1 ← MPI_Allgather_sizes g;
  g2 ← mapM (fun r => completed (strides MPI_SZ r)) g1;
  MPI_Gatherv g2.

(** [ScatterArray(inArr, outArr, MPI_SZ, mpi_comm, Apart, Adisp)] *)
Definition ScatterArray (MPI_SZ : Z) (g : list xfer) : option (list xfer) :=
  MPI_Scatterv g.

(** The call [ScatterArray(all, x, ...)] after [GatherArray(x, all, ...)]:
    what was gathered into is now sent from, and back into the vector that
    was gathered. *)
Definition turn_around (r : xfer) : xfer :=
  {| inArr := outArr r; outArr := inArr r; Apart := Apart r; Adisp := Adisp r |}.

(** The same call with any array [dest] to receive into: a vector that
    has been overwritten since the gather, or another one. *)
Definition scatter_into (dest : list V) (r : xfer) : xfer :=
  {| inArr := outArr r; outArr := dest; Apart := Apart r; Adisp := Adisp r |}.

End Exchange.

Arguments xfer V : clear implicits.

(** The descriptor of the sub-arrays [xs]: their lengths, and where each
    starts in the flat buffer. *)
Definition describes {V : Type} (sizes displs : list Z) (xs : list (list V)) : Prop :=
  sizes = map (fun x => Z.of_nat (length x)) xs /\
  forall i, (i < length xs)%nat ->
            displs !! i = Some (Z.of_nat (length (concat (take i xs)))).

(** ** AmgXSolver::solve on the processes of one device group *)

Module Solve.

Section Solve.
Context {V : Type}.

(** What a freshly sized [Vector] or [Array<int>] holds. *)
Variable indeterminate : V.
Variable indeterminate_int : Z.

(** The status code of a successful solve. *)
Variable AMGX_SOLVE_SUCCESS : Z.

(** One process during a call [solve(X, B)]: the two arguments, the
    members the call reads, the engine's two vectors, what was printed,
    and the six locals. *)
Record state : Type := {
  X : list V;
  B : list V;
  m_local_rows : Z;
  in_gpuWorld : bool;
  AmgXP : list V;
  AmgXRHS : list V;
  stdout : list message;
  all_X : list V;
  all_B : list V;
  Apart_X : list Z;
  Adisp_X : list Z;
  Apart_B : list Z;
  Adisp_B : list Z
}.

(** The declarations at the head of [solve]. *)
Definition enter (devWorldSize : Z) (s : state) : state :=
  {| X := X s; B := B s; m_local_rows := m_local_rows s;
     in_gpuWorld := in_gpuWorld s; AmgXP := AmgXP s; AmgXRHS := AmgXRHS s;
     stdout := stdout s;
     all_X := replicate (Z.to_nat (m_local_rows s)) indeterminate;
     all_B := replicate (Z.to_nat (m_local_rows s)) indeterminate;
     Apart_X := replicate (Z.to_nat devWorldSize) indeterminate_int;
     Adisp_X := replicate (Z.to_nat devWorldSize) indeterminate_int;
     Apart_B := replicate (Z.to_nat devWorldSize) indeterminate_int;
     Adisp_B := replicate (Z.to_nat devWorldSize) indeterminate_int |}.

(** [GatherArray(X, all_X, devWorldSize, devWorld, Apart_X, Adisp_X)] *)
Definition gather_X_args (s : state) : xfer V :=
  {| inArr := X s; outArr := all_X s; Apart := Apart_X s; Adisp := Adisp_X s |}.

Definition gather_X_back (x : xfer V) (s : state) : state :=
  {| X := inArr x; B := B s; m_local_rows := m_local_rows s;
     in_gpuWorld := in_gpuWorld s; AmgXP := AmgXP s; AmgXRHS := AmgXRHS s;
     stdout := stdout s;
     all_X := outArr x; all_B := all_B s;
     Apart_X := Apart x; Adisp_X := Adisp x;
     Apart_B := Apart_B s; Adisp_B := Adisp_B s |}.

(** [GatherArray(B, all_B, devWorldSize, devWorld, Apart_B, Adisp_B)] *)
Definition gather_B_args (s : state) : xfer V :=
  {| inArr := B s; outArr := all_B s; Apart := Apart_B s; Adisp := Adisp_B s |}.

Definition gather_B_back (x : xfer V) (s : state) : state :=
  {| X := X s; B := inArr x; m_local_rows := m_local_rows s;
     in_gpuWorld := in_gpuWorld s; AmgXP := AmgXP s; AmgXRHS := AmgXRHS s;
     stdout := stdout s;
     all_X := all_X s; all_B := outArr x;
     Apart_X := Apart_X s; Adisp_X := Adisp_X s;
     Apart_B := Apart x; Adisp_B := Adisp x |}.

(** [ScatterArray(all_X, X, devWorldSize, devWorld, Apart_X, Adisp_X)] *)
Definition scatter_X_args (s : state) : xfer V :=
  {| inArr := all_X s; outArr := X s; Apart := Apart_X s; Adisp := Adisp_X s |}.

Definition scatter_X_back (x : xfer V) (s : state) : state :=
  {| X := outArr x; B := B s; m_local_rows := m_local_rows s;
     in_gpuWorld := in_gpuWorld s; AmgXP := AmgXP s; AmgXRHS := AmgXRHS s;
     stdout := stdout s;
     all_X := inArr x; all_B := all_B s;
     Apart_X := Apart x; Adisp_X := Adisp x;
     Apart_B := Apart_B s; Adisp_B := Adisp_B s |}.

(** A collective call on the group: every process passes its arguments by
    reference and finds them as the call left them. *)
Definition on_group (args : state -> xfer V) (back : xfer V -> state -> state)
  (op : list (xfer V) -> option (list (xfer V))) (g : list state)
  : option (list state) :=
  res ← op (map args g);
  Some (zip_with back res g).

(** The block under [if(gpuWorld != MPI_COMM_NULL)].  [engine rhs x] is
    what [AMGX_solver_solve] leaves in the solution vector and the status
    [AMGX_solver_get_status] then reports. *)
Definition engine_block (engine : list V -> list V -> list V * Z) (s : state)
  : option state :=
  if in_gpuWorld s then
    let uploaded_P := all_X s in
    let uploaded_RHS := all_B s in
    let solved := engine uploaded_RHS uploaded_P in
    let status := snd solved in
    let out := if negb (status =? AMGX_SOLVE_SUCCESS)
               then stdout s ++ [MsgSolveFailed status]
               else stdout s in
    downloaded ← Arr.store (all_X s) 0 (fst solved);
    Some {| X := X s; B := B s; m_local_rows := m_local_rows s;
            in_gpuWorld := in_gpuWorld s;
            AmgXP := fst solved; AmgXRHS := uploaded_RHS;
            stdout := out;
            all_X := downloaded; all_B := all_B s;
            Apart_X := Apart_X s; Adisp_X := Adisp_X s;
            Apart_B := Apart_B s; Adisp_B := Adisp_B s |}
  else Some s.

Definition solve (engine : list V -> list V -> list V * Z) (devWorldSize : Z)
  (g : list state) : option (list state) :=
  g1 ← on_group gather_X_args gather_X_back (GatherArray devWorldSize)
                (map (enter devWorldSize) g);
  g2 ← on_group gather_B_args gather_B_back (GatherArray devWorldSize) g1;
  g3 ← mapM (engine_block engine) g2;
  on_group scatter_X_args scatter_X_back (ScatterArray devWorldSize) g3.



End Solve.

Arguments state V : clear implicits.

End Solve.

(** ** AmgXSolver::finalize *)

Module Lifecycle.

(** A communicator handle. *)
Inductive comm : Type :=
| MPI_COMM_NULL
| Comm (id : nat).

(** The calls into MPI and the solve engine that release something, with
    the handle they are given. *)
Inductive call : Type :=
| AMGX_solver_destroy (h : nat)
| AMGX_matrix_destroy (h : nat)
| AMGX_vector_destroy (h : nat)
| AMGX_resources_destroy (h : nat)
| AMGX_config_destroy (h : nat)
| AMGX_finalize_plugins
| AMGX_finalize
| MPI_Comm_free (c : comm).

(** The members of an instance that [finalize] touches. *)
Record instance : Type := {
  isInitialized : bool;
  gpuProc : Z;
  globalCpuWorld : comm;
  localCpuWorld : comm;
  devWorld : comm;
  gpuWorld : comm;
  solver : nat;
  AmgXA : nat;
  AmgXP : nat;
  AmgXRHS : nat;
  cfg : nat
}.

(** The static members [count] and [rsrc], with what the process has
    printed and the releasing calls it has made, oldest first. *)
Record process : Type := {
  count : Z;
  rsrc : nat;
  stdout : list message;
  calls : list call
}.

Definition print (m : message) (p : process) : process :=
  {| count := count p; rsrc := rsrc p; stdout := stdout p ++ [m];
     calls := calls p |}.

Definition do_calls (cs : list call) (p : process) : process :=
  {| count := count p; rsrc := rsrc p; stdout := stdout p;
     calls := calls p ++ cs |}.

Definition set_count (c : Z) (p : process) : process :=
  {| count := c; rsrc := rsrc p; stdout := stdout p; calls := calls p |}.

Section Finalize.

(** The value of the MPI constant. *)
Variable MPI_UNDEFINED : Z.

Definition finalize (ip : instance * process) : instance * process :=
  let (i, p) := ip in
  (* skip if this instance has not been initialized *)
  let p1 := if negb (isInitialized i) then print MsgNotInitialized p else p in
  (* only processes using GPU are required to destroy AmgX content *)
  let p2 :=
    if gpuProc i =? 0 then
      let p' := do_calls [AMGX_solver_destroy (solver i);
                          AMGX_matrix_destroy (AmgXA i);
                          AMGX_vector_destroy (AmgXP i);
                          AMGX_vector_destroy (AmgXRHS i)] p1 in
      if count p' =? 1 then
        do_calls [AMGX_resources_destroy (rsrc p');
                  AMGX_config_destroy (cfg i);
                  AMGX_finalize_plugins; AMGX_finalize] p'
      else do_calls [AMGX_config_destroy (cfg i)] p'
      (* destroy gpuWorld: the call is commented out *)
    else p1 in
  let p3 := do_calls [MPI_Comm_free (globalCpuWorld i);
                      MPI_Comm_free (localCpuWorld i);
                      MPI_Comm_free (devWorld i)] p2 in
  ({| isInitialized := false;
      gpuProc := MPI_UNDEFINED;
      globalCpuWorld := MPI_COMM_NULL;
      localCpuWorld := MPI_COMM_NULL;
      devWorld := MPI_COMM_NULL;
      gpuWorld := gpuWorld i;
      solver := solver i; AmgXA := AmgXA i; AmgXP := AmgXP i;
      AmgXRHS := AmgXRHS i; cfg := cfg i |},
   set_count (Int.sub (count p3) 1) p3).

End Finalize.

(** The communicators a list of calls frees. *)
Definition freed (cs : list call) : list comm :=
  omap (fun c => match c with MPI_Comm_free h => Some h | _ => None end) cs.


End Lifecycle.

(** ** Local CSR fragment (AmgXSolver::GetLocalA) *)

Module LocalA.

Section GetLocalA.
Context {V : Type}.

(** What a freshly sized array holds. *)
Variable indeterminate : V.
Variable indeterminate_int : Z.

(** [mfem::SparseMatrix], by what [GetI()], [GetJ()] and [GetData()] point to. *)
Record SparseMatrix : Type := {
  GetI : list Z;
  GetJ : list Z;
  GetData : list V
}.

(** What [GetLocalA] reads of [in_A]: the two blocks as they are after
    [SortColumnIndices()], the column map of the off-diagonal block, and
    the partition arrays.  [HYPRE_Int] is [int]. *)
Record HypreParMatrix : Type := {
  Diag : SparseMatrix;
  Offd : SparseMatrix;
  cmap : list Z;
  RowPart : list Z;
  ColPart : list Z
}.

(** The three output arrays, with the locals that live across the loops:
    the write position [k], the off-diagonal counter [jo], and the four
    running pointers as offsets from the start of their arrays. *)
Record local : Type := {
  I : list Z;
  J : list Z;
  Data : list V;
  k : Z;
  jo : Z;
  DiagJ : Z;
  DiagA : Z;
  OffJ : Z;
  OffA : Z
}.

Definition with_I (a : list Z) (s : local) : local :=
  {| I := a; J := J s; Data := Data s; k := k s; jo := jo s;
     DiagJ := DiagJ s; DiagA := DiagA s; OffJ := OffJ s; OffA := OffA s |}.

Definition with_jo (j : Z) (s : local) : local :=
  {| I := I s; J := J s; Data := Data s; k := k s; jo := j;
     DiagJ := DiagJ s; DiagA := DiagA s; OffJ := OffJ s; OffA := OffA s |}.

(** [J[k] = col;] *)
Definition put_J (col : Z) (s : local) : outcome local :=
  match Arr.set (J s) (k s) col with
  | Some a =>
      Done {| I := I s; J := a; Data := Data s; k := k s; jo := jo s;
              DiagJ := DiagJ s; DiagA := DiagA s; OffJ := OffJ s; OffA := OffA s |}
  | None => Fault s
  end.

(** [Data[k++] = v;] *)
Definition put_Data (v : V) (s : local) : outcome local :=
  match Arr.set (Data s) (k s) v with
  | Some a =>
      Done {| I := I s; J := J s; Data := a; k := Int.add (k s) 1; jo := jo s;
              DiagJ := DiagJ s; DiagA := DiagA s; OffJ := OffJ s; OffA := OffA s |}
  | None => Fault s
  end.

Definition next_OffJ (s : local) : local :=
  {| I := I s; J := J s; Data := Data s; k := k s; jo := jo s;
     DiagJ := DiagJ s; DiagA := DiagA s; OffJ := OffJ s + 1; OffA := OffA s |}.

Definition next_OffA (s : local) : local :=
  {| I := I s; J := J s; Data := Data s; k := k s; jo := jo s;
     DiagJ := DiagJ s; DiagA := DiagA s; OffJ := OffJ s; OffA := OffA s + 1 |}.

Definition next_DiagJ (s : local) : local :=
  {| I := I s; J := J s; Data := Data s; k := k s; jo := jo s;
     DiagJ := DiagJ s + 1; DiagA := DiagA s; OffJ := OffJ s; OffA := OffA s |}.

Definition next_DiagA (s : local) : local :=
  {| I := I s; J := J s; Data := Data s; k := k s; jo := jo s;
     DiagJ := DiagJ s; DiagA := DiagA s + 1; OffJ := OffJ s; OffA := OffA s |}.

Section Rows.
Variable A : HypreParMatrix.
Variable cstart : Z.

(** [Data[k++] = *OffA++;] *)
Definition copy_OffA (s : local) : outcome local :=
  match Arr.get (GetData (Offd A)) (OffA s) with
  | Some v => put_Data v (next_OffA s)
  | None => Fault s
  end.

(** The first off-diagonal loop, with [n] turns left before [jo] reaches
    [ncols_o]:
    [icol = cmap[*OffJ]; if (icol >= cstart) { break; }
     J[k] = icol; OffJ++; Data[k++] = *OffA++;] *)
Fixpoint lower_loop (n : nat) (s : local) : outcome local :=
  match n with
  | O => Done s
  | S n' =>
      match Arr.get (GetJ (Offd A)) (OffJ s) with
      | None => Fault s
      | Some c =>
          match Arr.get (cmap A) c with
          | None => Fault s
          | Some icol =>
              if icol >=? cstart then Done s
              else
                put_J icol s >>> (fun s1 => copy_OffA (next_OffJ s1))
                >>> (fun s2 => lower_loop n' (with_jo (Int.add (jo s2) 1) s2))
          end
      end
  end.

(** [J[k] = cstart + *DiagJ++; Data[k++] = *DiagA++;] *)
Definition diag_entry (j : Z) (s : local) : outcome local :=
  match Arr.get (GetJ (Diag A)) (DiagJ s) with
  | None => Fault s
  | Some c =>
      put_J (Int.add cstart c) (next_DiagJ s) >>> (fun s1 =>
      match Arr.get (GetData (Diag A)) (DiagA s1) with
      | Some v => put_Data v (next_DiagA s1)
      | None => Fault s1
      end)
  end.

(** [J[k] = cmap[*OffJ++]; Data[k++] = *OffA++;] *)
Definition upper_entry (j : Z) (s : local) : outcome local :=
  match Arr.get (GetJ (Offd A)) (OffJ s) with
  | None => Fault s
  | Some c =>
      match Arr.get (cmap A) c with
      | None => Fault s
      | Some col => put_J col (next_OffJ s) >>> copy_OffA
      end
  end.

(** The body of the second loop over the rows. *)
Definition fill_row (i : Z) (s : local) : outcome local :=
  match Arr.get (GetI (Offd A)) (Int.add i 1), Arr.get (GetI (Offd A)) i,
        Arr.get (GetI (Diag A)) (Int.add i 1), Arr.get (GetI (Diag A)) i with
  | Some o1, Some o0, Some d1, Some d0 =>
      let ncols_o := Int.sub o1 o0 in
      let ncols_d := Int.sub d1 d0 in
      lower_loop (Z.to_nat ncols_o) (with_jo 0 s)
      >>> for_range diag_entry 0 ncols_d
      >>> (fun s2 => for_range upper_entry (jo s2) ncols_o s2)
  | _, _, _, _ => Fault s
  end.

(** [I[i+1] = I[i] + (DiagI[i+1] - DiagI[i]) + (OffI[i+1] - OffI[i]);] *)
Definition count_row (i : Z) (s : local) : outcome local :=
  match Arr.get (I s) i,
        Arr.get (GetI (Diag A)) (Int.add i 1), Arr.get (GetI (Diag A)) i,
        Arr.get (GetI (Offd A)) (Int.add i 1), Arr.get (GetI (Offd A)) i with
  | Some x, Some d1, Some d0, Some o1, Some o0 =>
      match Arr.set (I s) (Int.add i 1)
                    (Int.add (Int.add x (Int.sub d1 d0)) (Int.sub o1 o0)) with
      | Some a => Done (with_I a s)
      | None => Fault s
      end
  | _, _, _, _, _ => Fault s
  end.

End Rows.

(** The state when the arrays [I], [J], [Data] of the caller come in. *)
Definition entry (I0 J0 : list Z) (Data0 : list V) : local :=
  {| I := I0; J := J0; Data := Data0; k := 0; jo := 0;
     DiagJ := 0; DiagA := 0; OffJ := 0; OffA := 0 |}.

Definition GetLocalA (A : HypreParMatrix) (s : local) : outcome local :=
  match Arr.get (RowPart A) 1, Arr.get (RowPart A) 0 with
  | Some r1, Some r0 =>
      let row_len := Int.abs (Int.sub r1 r0) in
      (* I.SetSize(row_len+1); I[0]=0; *)
      let sized := replicate (Z.to_nat (Int.add row_len 1)) indeterminate_int in
      match Arr.set sized 0 0 with
      | None => Fault (with_I sized s)
      | Some I0 =>
          for_range (count_row A) 0 row_len (with_I I0 s) >>> (fun s1 =>
          match Arr.get (I s1) row_len, Arr.get (ColPart A) 0 with
          | Some nnz, Some cstart =>
              (* J.SetSize(I[row_len]); Data.SetSize(I[row_len]); int k = 0; *)
              for_range (fill_row A cstart) 0 row_len
                {| I := I s1;
                   J := replicate (Z.to_nat nnz) indeterminate_int;
                   Data := replicate (Z.to_nat nnz) indeterminate;
                   k := 0; jo := jo s1;
                   DiagJ := 0; DiagA := 0; OffJ := 0; OffA := 0 |}
          | _, _ => Fault s1
          end)
      end
  | _, _ => Fault s
  end.

End GetLocalA.

Arguments SparseMatrix V : clear implicits.
Arguments HypreParMatrix V : clear implicits.
Arguments local V : clear implicits.

(** Rows as the input contract words them: per row, the (column, value)
    entries of the diagonal and of the off-diagonal block. *)
Section Contract.
Context {V : Type}.

Definition row : Type := list (Z * V).

(** The CSR arrays of a list of rows. *)
Definition csr (rows : list row) : SparseMatrix V :=
  {| GetI := offsets_from 0 (map (fun r => Z.of_nat (length r)) rows);
     GetJ := concat (map (map fst) rows);
     GetData := concat (map (map snd) rows) |}.

(** [cmap[c]] *)
Definition global (cmap : list Z) (c : Z) : Z := nth (Z.to_nat c) cmap 0.

Definition below (cmap : list Z) (cstart : Z) (e : Z * V) : bool :=
  global cmap (fst e) <? cstart.

(** A row of the fragment as the specification words it: the off-diagonal
    entries left of the column range, the diagonal entries at
    [cstart + column], the other off-diagonal entries. *)
Definition fragment_row (cmap : list Z) (cstart : Z) (d o : row) : row :=
  map (fun e => (global cmap (fst e), snd e)) (List.filter (below cmap cstart) o)
  ++ map (fun e => (cstart + fst e, snd e)) d
  ++ map (fun e => (global cmap (fst e), snd e))
         (List.filter (fun e => negb (below cmap cstart e)) o).

Definition fragment_rows (cmap : list Z) (cstart : Z) (ds os : list row)
  : list row :=
  zip_with (fragment_row cmap cstart) ds os.

(** The state after the entries [es] have gone to [J] and [Data] from
    slot [k] on, the diagonal pointers have moved by [dj], the
    off-diagonal ones by [oj], and [jo] has become [j]. *)
Definition emitted (s : local V) (es : row) (dj oj j : Z) : local V :=
  {| I := I s;
     J := splice (J s) (Z.to_nat (k s)) (map fst es);
     Data := splice (Data s) (Z.to_nat (k s)) (map snd es);
     k := k s + Z.of_nat (length es);
     jo := j;
     DiagJ := DiagJ s + dj; DiagA := DiagA s + dj;
     OffJ := OffJ s + oj; OffA := OffA s + oj |}.

End Contract.

End LocalA.

(** What the zero scan records over a window of [all_I] whose first
    element has index [idx]: one less than the index of each zero. *)
Fixpoint zero_seams (l : list Z) (idx : Z) : list Z :=
  match l with
  | [] => []
  | v :: l' =>
      if v =? 0 then (idx - 1) :: zero_seams l' (idx + 1)
      else zero_seams l' (idx + 1)
  end.

(** [z] after the values [vs] are stored from slot [c] on. *)
Definition write_run (z : list (option Z)) (c : nat) (vs : list Z)
  : list (option Z) :=
  take c z ++ map Some vs ++ drop (c + length vs) z.

(** The shape of [all_I] between passes: the part already merged starts
    with the one leading zero and is positive after it. *)
Definition positive (l : list Z) : Prop := Forall (fun x => 0 < x) l.

Definition merged_so_far (acc : list Z) : Prop :=
  exists acc', acc = 0 :: acc' /\ positive acc'.

(** A step leaves the gathered column and value arrays as they were,
    whether it completes or faults. *)
Definition keeps_JA {V : Type}
  (f : leader_arrays V -> outcome (leader_arrays V)) : Prop :=
  forall s, all_J (state_of (f s)) = all_J s /\ all_A (state_of (f s)) = all_A s.

(** The conditions under which [n] more entries can go out at [k]. *)
Definition room {V : Type} (s : LocalA.local V) (n : nat) : Prop :=
  (0 <= LocalA.k s) /\
  (LocalA.k s + Z.of_nat n <= Z.of_nat (length (LocalA.J s))) /\
  (length (LocalA.Data s) = length (LocalA.J s)) /\
  (Z.of_nat (length (LocalA.J s)) < 2147483648).

(** Entry counts of the rows of a fragment: diagonal row length plus
    off-diagonal row length. *)
Definition row_counts {V : Type} (ds os : list (list (Z * V))) : list Z :=
  zip_with (fun d o => Z.of_nat (length d) + Z.of_nat (length o)) ds os.

(** A row's column indices are in non-decreasing order. *)
Definition columns_sorted {V : Type} (r : list (Z * V)) : Prop :=
  Sorted Z.le (map fst r).

(** A row whose entries left of the column range all come before the
    others. *)
Definition splits {V : Type} (cmap : list Z) (cstart : Z) (o : list (Z * V))
  : Prop :=
  exists lo hi,
    o = lo ++ hi /\
    Forall (fun e => LocalA.below cmap cstart e = true) lo /\
    Forall (fun e => LocalA.below cmap cstart e = false) hi.

(** What a process sends is not changed by either exchange call. *)
Definition same_inArr {V : Type} (r r' : xfer V) : Prop := inArr r' = inArr r.



(** ** AmgXSolver::~AmgXSolver *)

(** [if (isInitialized) finalize();] *)
Definition destructor (MPI_UNDEFINED : Z)
  (ip : Lifecycle.instance * Lifecycle.process)
  : Lifecycle.instance * Lifecycle.process :=
  if Lifecycle.isInitialized (fst ip) then Lifecycle.finalize MPI_UNDEFINED ip
  else ip.

(** ** finalize under an MPI error handler *)

(** The two predefined error handlers of a communicator.  A call of
    [MPI_Comm_free] on [MPI_COMM_NULL] is erroneous: under
    [MPI_ERRORS_ARE_FATAL], the default, the run ends at the call; under
    [MPI_ERRORS_RETURN] the call returns. *)
Inductive errhandler : Type :=
| MPI_ERRORS_ARE_FATAL
| MPI_ERRORS_RETURN.

Section FinalizeUnder.
Variable MPI_UNDEFINED : Z.
Variable handler : errhandler.

Definition with_gpuProc (g : Z) (i : Lifecycle.instance) : Lifecycle.instance :=
  {| Lifecycle.isInitialized := Lifecycle.isInitialized i;
     Lifecycle.gpuProc := g;
     Lifecycle.globalCpuWorld := Lifecycle.globalCpuWorld i;
     Lifecycle.localCpuWorld := Lifecycle.localCpuWorld i;
     Lifecycle.devWorld := Lifecycle.devWorld i;
     Lifecycle.gpuWorld := Lifecycle.gpuWorld i;
     Lifecycle.solver := Lifecycle.solver i; Lifecycle.AmgXA := Lifecycle.AmgXA i;
     Lifecycle.AmgXP := Lifecycle.AmgXP i; Lifecycle.AmgXRHS := Lifecycle.AmgXRHS i;
     Lifecycle.cfg := Lifecycle.cfg i |}.

Definition with_globalCpuWorld (c : Lifecycle.comm) (i : Lifecycle.instance)
  : Lifecycle.instance :=
  {| Lifecycle.isInitialized := Lifecycle.isInitialized i;
     Lifecycle.gpuProc := Lifecycle.gpuProc i;
     Lifecycle.globalCpuWorld := c;
     Lifecycle.localCpuWorld := Lifecycle.localCpuWorld i;
     Lifecycle.devWorld := Lifecycle.devWorld i;
     Lifecycle.gpuWorld := Lifecycle.gpuWorld i;
     Lifecycle.solver := Lifecycle.solver i; Lifecycle.AmgXA := Lifecycle.AmgXA i;
     Lifecycle.AmgXP := Lifecycle.AmgXP i; Lifecycle.AmgXRHS := Lifecycle.AmgXRHS i;
     Lifecycle.cfg := Lifecycle.cfg i |}.

Definition with_localCpuWorld (c : Lifecycle.comm) (i : Lifecycle.instance)
  : Lifecycle.instance :=
  {| Lifecycle.isInitialized := Lifecycle.isInitialized i;
     Lifecycle.gpuProc := Lifecycle.gpuProc i;
     Lifecycle.globalCpuWorld := Lifecycle.globalCpuWorld i;
     Lifecycle.localCpuWorld := c;
     Lifecycle.devWorld := Lifecycle.devWorld i;
     Lifecycle.gpuWorld := Lifecycle.gpuWorld i;
     Lifecycle.solver := Lifecycle.solver i; Lifecycle.AmgXA := Lifecycle.AmgXA i;
     Lifecycle.AmgXP := Lifecycle.AmgXP i; Lifecycle.AmgXRHS := Lifecycle.AmgXRHS i;
     Lifecycle.cfg := Lifecycle.cfg i |}.

Definition with_devWorld (c : Lifecycle.comm) (i : Lifecycle.instance)
  : Lifecycle.instance :=
  {| Lifecycle.isInitialized := Lifecycle.isInitialized i;
     Lifecycle.gpuProc := Lifecycle.gpuProc i;
     Lifecycle.globalCpuWorld := Lifecycle.globalCpuWorld i;
     Lifecycle.localCpuWorld := Lifecycle.localCpuWorld i;
     Lifecycle.devWorld := c;
     Lifecycle.gpuWorld := Lifecycle.gpuWorld i;
     Lifecycle.solver := Lifecycle.solver i; Lifecycle.AmgXA := Lifecycle.AmgXA i;
     Lifecycle.AmgXP := Lifecycle.AmgXP i; Lifecycle.AmgXRHS := Lifecycle.AmgXRHS i;
     Lifecycle.cfg := Lifecycle.cfg i |}.

Definition with_isInitialized (b : bool) (i : Lifecycle.instance)
  : Lifecycle.instance :=
  {| Lifecycle.isInitialized := b;
     Lifecycle.gpuProc := Lifecycle.gpuProc i;
     Lifecycle.globalCpuWorld := Lifecycle.globalCpuWorld i;
     Lifecycle.localCpuWorld := Lifecycle.localCpuWorld i;
     Lifecycle.devWorld := Lifecycle.devWorld i;
     Lifecycle.gpuWorld := Lifecycle.gpuWorld i;
     Lifecycle.solver := Lifecycle.solver i; Lifecycle.AmgXA := Lifecycle.AmgXA i;
     Lifecycle.AmgXP := Lifecycle.AmgXP i; Lifecycle.AmgXRHS := Lifecycle.AmgXRHS i;
     Lifecycle.cfg := Lifecycle.cfg i |}.

(** [MPI_Comm_free(&c)] on the handle [get] reads: the call is made; on a
    null handle under the fatal handler nothing follows it; otherwise it
    returns and the handle is null. *)
Definition free_handle (get : Lifecycle.instance -> Lifecycle.comm)
  (clear : Lifecycle.instance -> Lifecycle.instance)
  (ip : Lifecycle.instance * Lifecycle.process)
  : outcome (Lifecycle.instance * Lifecycle.process) :=
  let p' := Lifecycle.do_calls [Lifecycle.MPI_Comm_free (get (fst ip))] (snd ip) in
  match get (fst ip), handler with
  | Lifecycle.MPI_COMM_NULL, MPI_ERRORS_ARE_FATAL => Fault (fst ip, p')
  | _, _ => Done (clear (fst ip), p')
  end.

(** [finalize], statement by statement, with the three calls of
    [MPI_Comm_free] under the error handler. *)
Definition finalize_under (ip : Lifecycle.instance * Lifecycle.process)
  : outcome (Lifecycle.instance * Lifecycle.process) :=
  let (i, p) := ip in
  (* skip if this instance has not been initialized *)
  let p1 := if negb (Lifecycle.isInitialized i)
            then Lifecycle.print MsgNotInitialized p else p in
  (* only processes using GPU are required to destroy AmgX content *)
  let p2 :=
    if Lifecycle.gpuProc i =? 0 then
      let p' := Lifecycle.do_calls
                  [Lifecycle.AMGX_solver_destroy (Lifecycle.solver i);
                   Lifecycle.AMGX_matrix_destroy (Lifecycle.AmgXA i);
                   Lifecycle.AMGX_vector_destroy (Lifecycle.AmgXP i);
                   Lifecycle.AMGX_vector_destroy (Lifecycle.AmgXRHS i)] p1 in
      if Lifecycle.count p' =? 1 then
        Lifecycle.do_calls
          [Lifecycle.AMGX_resources_destroy (Lifecycle.rsrc p');
           Lifecycle.AMGX_config_destroy (Lifecycle.cfg i);
           Lifecycle.AMGX_finalize_plugins; Lifecycle.AMGX_finalize] p'
      else Lifecycle.do_calls [Lifecycle.AMGX_config_destroy (Lifecycle.cfg i)] p'
    else p1 in
  (* gpuProc = MPI_UNDEFINED; *)
  Done (with_gpuProc MPI_UNDEFINED i, p2)
  >>> free_handle Lifecycle.globalCpuWorld
                  (with_globalCpuWorld Lifecycle.MPI_COMM_NULL)
  >>> free_handle Lifecycle.localCpuWorld
                  (with_localCpuWorld Lifecycle.MPI_COMM_NULL)
  >>> free_handle Lifecycle.devWorld (with_devWorld Lifecycle.MPI_COMM_NULL)
  (* count -= 1; isInitialized = false; *)
  >>> (fun ip' =>
         Done (with_isInitialized false (fst ip'),
               Lifecycle.set_count (Int.sub (Lifecycle.count (snd ip')) 1)
                                   (snd ip'))).

End FinalizeUnder.

(** A step leaves [all_I] at the size it had, whether it completes or
    faults. *)
Definition keeps_size {V : Type}
  (f : leader_arrays V -> outcome (leader_arrays V)) : Prop :=
  forall s, length (all_I (state_of (f s))) = length (all_I s).

(** ** The gathers of AmgXSolver::setA *)

Section SetAGather.
Context {V : Type}.

(** What a freshly sized array holds. *)
Variable indeterminate : V.
Variable indeterminate_int : Z.

(** [a.SetSize(n)]: the first [n] slots stay, further slots are not
    initialised. *)
Definition SetSize {A : Type} (n : Z) (fresh : A) (a : list A) : list A :=
  take (Z.to_nat n) a ++ replicate (Z.to_nat n - length a) fresh.

(** [GatherArray(inArr, outArr, MPI_SZ, mpiTeam)], the overloads that keep
    [Apart] and [Adisp] to themselves. *)
Definition GatherArray_local {A : Type} (MPI_SZ : Z)
  (g : list (list A * list A)) : option (list (list A * list A)) :=
  res ← GatherArray MPI_SZ
          (map (fun io =>
                  {| inArr := fst io; outArr := snd io;
                     Apart := replicate (Z.to_nat MPI_SZ) indeterminate_int;
                     Adisp := replicate (Z.to_nat MPI_SZ) indeterminate_int |}) g);
  Some (map (fun r => (inArr r, outArr r)) res).

(** [GatherArray(Apart, inArr, outArr, MPI_SZ, mpiTeam)], the overload that
    hands the element counts back. *)
Definition GatherArray_rowInfo (MPI_SZ : Z)
  (g : list (list Z * (list Z * list Z))) : option (list (list Z * (list Z * list Z))) :=
  res ← GatherArray MPI_SZ
          (map (fun aio =>
                  {| inArr := fst (snd aio); outArr := snd (snd aio);
                     Apart := SetSize MPI_SZ indeterminate_int (fst aio);
                     Adisp := replicate (Z.to_nat MPI_SZ) indeterminate_int |}) g);
  Some (map (fun r => (Apart r, (inArr r, outArr r))) res).

(** What a process brings to the gathers: the three arrays [GetLocalA]
    filled and its number of rows. *)
Record local_csr : Type := {
  loc_I : list Z;
  loc_J : list Z;
  loc_A : list V;
  loc_row_len : Z
}.

(** [MPI_Allreduce(&x, &sum, 1, MPI_INT, MPI_SUM, devWorld)] *)
Definition MPI_Allreduce_sum (xs : list Z) : Z := foldr Int.add 0 xs.

(** An array of [n] slots on the process of rank 0 of the group, an empty
    one elsewhere. *)
Definition on_leader {A B : Type} (n : Z) (fresh : A) (g : list B) : list (list A) :=
  match g with
  | [] => []
  | _ :: others => replicate (Z.to_nat n) fresh :: map (fun _ => []) others
  end.

(** From the three [MPI_Allreduce] calls to the declarations of
    [local_nnz] and [local_rows]: the value of [nDevRows], and what every
    process of the group holds for the merge. *)
Definition setA_gather (devWorldSize : Z) (g : list local_csr)
  : option (Z * list (leader_arrays V)) :=
  let nDevRows := MPI_Allreduce_sum (map loc_row_len g) in
  let J_allsz := MPI_Allreduce_sum (map (fun l => Arr.size (loc_J l)) g) in
  let all_NNZ := MPI_Allreduce_sum (map (fun l => Arr.size (loc_A l)) g) in
  let all_I0 := on_leader (Int.add nDevRows devWorldSize) indeterminate_int g in
  let all_J0 := on_leader J_allsz 0 g in
  let all_A0 := on_leader all_NNZ indeterminate g in
  gI ← GatherArray_rowInfo devWorldSize
         (zip_with (fun l o => ([], (loc_I l, o))) g all_I0);
  gJ ← GatherArray_local devWorldSize (zip_with (fun l o => (loc_J l, o)) g all_J0);
  gA ← GatherArray_local devWorldSize (zip_with (fun l o => (loc_A l, o)) g all_A0);
  Some (nDevRows,
        zip_with (fun i ja =>
                    {| all_I := snd (snd i); all_J := snd (fst ja);
                       all_A := snd (snd ja); z_ind := []; counter := 0;
                       local_nnz := 0; local_rows := 0 |})
                 gI (zip gJ gA)).

End SetAGather.

Arguments local_csr V : clear implicits.

(** ** What the three loops of GetLocalA leave in a row *)

(** The first loop of a row stops at the end of the row or at an entry
    that is not left of the column range. *)
Definition stops_at {V : Type} (cmap : list Z) (cstart : Z) (hi : list (Z * V))
  : Prop :=
  match hi with
  | [] => True
  | e :: _ => LocalA.below cmap cstart e = false
  end.

(** The number of entries the first loop of a row takes. *)
Fixpoint leading {V : Type} (cmap : list Z) (cstart : Z) (o : list (Z * V)) : nat :=
  match o with
  | [] => O
  | e :: o' => if LocalA.below cmap cstart e then S (leading cmap cstart o') else O
  end.

(** A row as the three loops fill it: the off-diagonal entries the first
    loop takes, the diagonal entries, the off-diagonal entries left. *)
Definition row_as_filled {V : Type} (cmap : list Z) (cstart : Z)
  (d o : list (Z * V)) : list (Z * V) :=
  map (fun e => (LocalA.global cmap (fst e), snd e)) (take (leading cmap cstart o) o)
  ++ map (fun e => (cstart + fst e, snd e)) d
  ++ map (fun e => (LocalA.global cmap (fst e), snd e)) (drop (leading cmap cstart o) o).

Definition rows_as_filled {V : Type} (cmap : list Z) (cstart : Z)
  (ds os : list (list (Z * V))) : list (list (Z * V)) :=
  zip_with (row_as_filled cmap cstart) ds os.

(** * Properties *)

(** ** Machine integers *)

Lemma wrap32_small (z : Z) : Int.in_range 32 z -> Int.wrap 32 z = z.
Proof.
  unfold Int.in_range, Int.wrap. intros H.
  change (2 ^ (32 - 1)) with 2147483648 in *.
  change (2 ^ 32) with 4294967296.
  rewrite Z.mod_small; lia.
Qed.

Lemma wrap64_small (z : Z) : Int.in_range 64 z -> Int.wrap 64 z = z.
Proof.
  unfold Int.in_range, Int.wrap. intros H.
  change (2 ^ (64 - 1)) with 9223372036854775808 in *.
  change (2 ^ 64) with 18446744073709551616.
  rewrite Z.mod_small; lia.
Qed.

Lemma in_range32 (z : Z) : -2147483648 <= z < 2147483648 -> Int.in_range 32 z.
Proof. unfold Int.in_range. change (2 ^ (32 - 1)) with 2147483648. lia. Qed.

Lemma int_add_small (a b : Z) :
  -2147483648 <= a + b < 2147483648 -> Int.add a b = a + b.
Proof. intros H. apply wrap32_small, in_range32, H. Qed.

Lemma int_sub_small (a b : Z) :
  -2147483648 <= a - b < 2147483648 -> Int.sub a b = a - b.
Proof. intros H. apply wrap32_small, in_range32, H. Qed.

Lemma int_mul_small (a b : Z) :
  -2147483648 <= a * b < 2147483648 -> Int.mul a b = a * b.
Proof. intros H. apply wrap32_small, in_range32, H. Qed.

Lemma int_div_nonneg (a b : Z) :
  0 <= a < 2147483648 -> 0 < b -> Int.div a b = a / b.
Proof.
  intros Ha Hb. unfold Int.div. rewrite Z.quot_div_nonneg by lia.
  apply wrap32_small, in_range32.
  assert (0 <= a / b) by (apply Z.div_pos; lia).
  assert (a / b <= a) by (apply Z.div_le_upper_bound; nia).
  lia.
Qed.

Lemma int_rem_nonneg (a b : Z) : 0 <= a -> 0 < b -> Int.rem a b = a mod b.
Proof. intros Ha Hb. unfold Int.rem. apply Z.rem_mod_nonneg; lia. Qed.

(** ** Device assignment *)

Lemma groups_arith (P D : Z) :
  1 <= D <= P ->
  P = D * (P / D) + P mod D /\ 0 <= P mod D < D /\ 1 <= P / D <= P.
Proof.
  intros HD. pose proof (Z.div_mod P D ltac:(lia)).
  pose proof (Z.mod_pos_bound P D ltac:(lia)).
  assert (1 <= P / D) by (apply Z.div_le_lower_bound; lia).
  assert (P / D <= P) by (apply Z.div_le_upper_bound; nia).
  lia.
Qed.

(** The closed form of what [setDeviceIDs] computes when there are fewer
    devices than processes. *)
Lemma device_of_fewer (P D r g0 : Z) :
  1 <= D < P -> P < 2147483647 -> 0 <= r < P ->
  device_of P D r g0 =
    (if r <? (P / D + 1) * (P mod D) then r / (P / D + 1)
     else (r - (P / D + 1) * (P mod D)) / (P / D) + P mod D) /\
  is_leader P D r g0 =
    ((if r <? (P / D + 1) * (P mod D) then r mod (P / D + 1) =? 0
      else (r - (P / D + 1) * (P mod D)) mod (P / D) =? 0)
     || (g0 =? 0)).
Proof.
  intros HD HP Hr. destruct (groups_arith P D ltac:(lia)) as (HPeq & Hm & Hb).
  unfold device_of, is_leader, setDeviceIDs, rank_topology; cbn [localSize myLocalRank].
  destruct (Z.eqb_spec D P) as [->|_]; [lia|].
  destruct (Z.gtb_spec D P) as [?|_]; [lia|].
  rewrite (int_div_nonneg P D) by lia.
  rewrite (int_rem_nonneg P D) by lia.
  set (b := P / D) in *. set (m := P mod D) in *. clearbody b m.
  assert (Hbm : 0 <= (b + 1) * m <= P) by nia.
  rewrite (int_add_small b 1) by lia.
  rewrite (int_mul_small (b + 1) m) by lia.
  destruct (Z.ltb_spec r ((b + 1) * m)) as [Hlt|Hge].
  - rewrite (int_div_nonneg r (b + 1)) by lia.
    rewrite (int_rem_nonneg r (b + 1)) by lia.
    cbn [assign devID gpuProc]. split; [reflexivity|].
    destruct (r mod (b + 1) =? 0); cbn; reflexivity.
  - rewrite (int_sub_small r ((b + 1) * m)) by lia.
    rewrite (int_div_nonneg (r - (b + 1) * m) b) by lia.
    rewrite (int_rem_nonneg (r - (b + 1) * m) b) by lia.
    assert (0 <= (r - (b + 1) * m) / b) by (apply Z.div_pos; lia).
    assert ((r - (b + 1) * m) / b <= r - (b + 1) * m)
      by (apply Z.div_le_upper_bound; nia).
    rewrite int_add_small by lia.
    cbn [assign devID gpuProc]. split; [reflexivity|].
    destruct ((r - (b + 1) * m) mod b =? 0); cbn; reflexivity.
Qed.

Lemma device_of_equal (P r g0 : Z) :
  device_of P P r g0 = r /\ is_leader P P r g0 = true.
Proof.
  unfold device_of, is_leader, setDeviceIDs, rank_topology; cbn [localSize myLocalRank].
  rewrite Z.eqb_refl. cbn. split; reflexivity.
Qed.

Lemma groups_equal (P d : Z) :
  1 <= P -> 0 <= d -> group_start P P d = d /\ group_size P P d = 1.
Proof.
  intros HP Hd. unfold group_start, group_size.
  rewrite Z.mod_same, Z.div_same by lia.
  destruct (Z.ltb_spec d 0); [lia|]. split; lia.
Qed.

(** A rank lies in the group of the device it is given, and leads it
    exactly when it is the first rank of that group. *)
Lemma rank_in_own_group (P D r g0 : Z) :
  1 <= D <= P -> P < 2147483647 -> g0 <> 0 -> 0 <= r < P ->
  0 <= device_of P D r g0 < D /\
  group_start P D (device_of P D r g0) <= r
    < group_start P D (device_of P D r g0) + group_size P D (device_of P D r g0) /\
  (is_leader P D r g0 = true <-> r = group_start P D (device_of P D r g0)).
Proof.
  intros HD HP Hg Hr.
  destruct (Z.eq_dec D P) as [->|Hne].
  { destruct (device_of_equal P r g0) as [-> ->].
    destruct (groups_equal P r ltac:(lia) ltac:(lia)) as [-> ->].
    repeat split; lia. }
  destruct (device_of_fewer P D r g0 ltac:(lia) HP Hr) as [-> ->].
  destruct (groups_arith P D HD) as (HPeq & Hm & Hb).
  unfold group_start, group_size.
  set (b := P / D) in *. set (m := P mod D) in *. clearbody b m.
  replace (g0 =? 0) with false by (symmetry; apply Z.eqb_neq; exact Hg).
  rewrite orb_false_r.
  destruct (Z.ltb_spec r ((b + 1) * m)) as [Hlt|Hge].
  - pose proof (Z.div_mod r (b + 1) ltac:(lia)) as Hdm.
    pose proof (Z.mod_pos_bound r (b + 1) ltac:(lia)) as Hmb.
    set (q := r / (b + 1)) in *. set (x := r mod (b + 1)) in *. clearbody q x.
    assert (0 <= q < m) by nia.
    destruct (Z.ltb_spec q m); [|lia].
    rewrite Z.eqb_eq. repeat split; nia.
  - pose proof (Z.div_mod (r - (b + 1) * m) b ltac:(lia)) as Hdm.
    pose proof (Z.mod_pos_bound (r - (b + 1) * m) b ltac:(lia)) as Hmb.
    set (q := (r - (b + 1) * m) / b) in *.
    set (x := (r - (b + 1) * m) mod b) in *. clearbody q x.
    assert (0 <= q < D - m) by nia.
    destruct (Z.ltb_spec (q + m) m); [lia|].
    rewrite Z.eqb_eq. repeat split; nia.
Qed.

(** The groups are consecutive intervals that cover the ranks. *)
Lemma groups_consecutive (P D d : Z) :
  1 <= D <= P -> 0 <= d < D ->
  P / D <= group_size P D d <= P / D + 1 /\
  group_start P D (d + 1) = group_start P D d + group_size P D d /\
  0 <= group_start P D d /\ group_start P D d + group_size P D d <= P.
Proof.
  intros HD Hd. destruct (groups_arith P D HD) as (HPeq & Hm & Hb).
  unfold group_start, group_size.
  set (b := P / D) in *. set (m := P mod D) in *. clearbody b m.
  destruct (Z.ltb_spec d m), (Z.ltb_spec (d + 1) m); repeat split; nia.
Qed.

Lemma groups_ends (P D : Z) :
  1 <= D <= P -> group_start P D 0 = 0 /\ group_start P D D = P.
Proof.
  intros HD. destruct (groups_arith P D HD) as (HPeq & Hm & Hb).
  unfold group_start.
  set (b := P / D) in *. set (m := P mod D) in *. clearbody b m.
  destruct (Z.ltb_spec 0 m), (Z.ltb_spec D m); split; nia.
Qed.

Lemma group_start_mono (P D d d' : Z) :
  1 <= D <= P -> 0 <= d -> d < d' ->
  group_start P D d + group_size P D d <= group_start P D d'.
Proof.
  intros HD Hd Hlt. destruct (groups_arith P D HD) as (HPeq & Hm & Hb).
  unfold group_start, group_size.
  set (b := P / D) in *. set (m := P mod D) in *. clearbody b m.
  destruct (Z.ltb_spec d m), (Z.ltb_spec d' m); nia.
Qed.

(** Every rank of a group is given the device of that group. *)
Lemma group_members (P D d r g0 : Z) :
  1 <= D <= P -> P < 2147483647 -> g0 <> 0 -> 0 <= d < D ->
  group_start P D d <= r < group_start P D d + group_size P D d ->
  0 <= r < P /\ device_of P D r g0 = d.
Proof.
  intros HD HP Hg Hd Hr.
  destruct (groups_consecutive P D d HD Hd) as (_ & _ & H0 & HPle).
  assert (Hr' : 0 <= r < P) by lia. split; [exact Hr'|].
  destruct (rank_in_own_group P D r g0 HD HP Hg Hr') as (Hdev & Hin & _).
  set (d' := device_of P D r g0) in *. clearbody d'.
  destruct (Z.lt_trichotomy d d') as [Hlt|[Heq|Hgt]]; [|congruence|].
  - pose proof (group_start_mono P D d d' HD ltac:(lia) Hlt). lia.
  - pose proof (group_start_mono P D d' d HD ltac:(lia) Hgt). lia.
Qed.

(** C2. With at most as many devices as node-local processes,
    [setDeviceIDs] gives every rank one device in [0, D); the ranks of a
    device are the consecutive interval [group_start, group_start +
    group_size), of [P / D + 1] ranks for the first [P mod D] devices and
    [P / D] for the others, and the intervals cover [0, P); the one leader
    of a device is the first rank of its interval.  With four processes and
    two devices, ranks 0 and 1 get device 0 led by rank 0, ranks 2 and 3 get
    device 1 led by rank 2. *)
Theorem setDeviceIDs_partition (P D g0 : Z) :
  1 <= D <= P -> P < 2147483647 -> g0 <> 0 ->
  (forall r, 0 <= r < P ->
     0 <= device_of P D r g0 < D /\
     group_start P D (device_of P D r g0) <= r
       < group_start P D (device_of P D r g0)
         + group_size P D (device_of P D r g0) /\
     (is_leader P D r g0 = true <-> r = group_start P D (device_of P D r g0))) /\
  (forall d, 0 <= d < D ->
     P / D <= group_size P D d <= P / D + 1 /\
     group_start P D (d + 1) = group_start P D d + group_size P D d /\
     (forall r, group_start P D d <= r < group_start P D d + group_size P D d ->
        0 <= r < P /\ device_of P D r g0 = d) /\
     (forall r, 0 <= r < P ->
        (device_of P D r g0 = d /\ is_leader P D r g0 = true)
        <-> r = group_start P D d)) /\
  group_start P D 0 = 0 /\ group_start P D D = P /\
  map (fun r => (device_of 4 2 r g0, is_leader 4 2 r g0)) [0; 1; 2; 3]
    = [(0, true); (0, false); (1, true); (1, false)].
Proof.
  intros HD HP Hg. split; [|split; [|split; [|split]]].
  - intros r Hr. apply rank_in_own_group; assumption.
  - intros d Hd.
    destruct (groups_consecutive P D d HD Hd) as (Hsz & Hnext & H0 & HPle).
    split; [exact Hsz|]. split; [exact Hnext|]. split.
    + intros r Hr. apply (group_members P D d r g0); assumption.
    + intros r Hr.
      destruct (rank_in_own_group P D r g0 HD HP Hg Hr) as (_ & _ & Hlead).
      split.
      * intros [Hdev Hl]. apply Hlead in Hl. rewrite Hdev in Hl. exact Hl.
      * intros ->.
        destruct (groups_arith P D HD) as (_ & _ & Hb).
        assert (Hin : group_start P D d <= group_start P D d
                      < group_start P D d + group_size P D d) by lia.
        destruct (group_members P D d _ g0 HD HP Hg Hd Hin) as [Hr' Hdev].
        split; [exact Hdev|].
        destruct (rank_in_own_group P D _ g0 HD HP Hg Hr') as (_ & _ & Hl).
        apply Hl. rewrite Hdev. reflexivity.
  - apply groups_ends, HD.
  - apply groups_ends, HD.
  - unfold device_of, is_leader, setDeviceIDs, rank_topology. cbn.
    destruct g0; [contradiction Hg; reflexivity| |]; reflexivity.
Qed.

Lemma setDeviceIDs_partition_witness :
  (1 <= 3 <= 5 /\ 5 < 2147483647 /\ -32766 <> 0) /\
  group_start 5 3 0 = 0 /\ group_start 5 3 3 = 5 /\
  (forall r, 0 <= r < 5 ->
     (device_of 5 3 r (-32766) = 1 /\ is_leader 5 3 r (-32766) = true)
     <-> r = group_start 5 3 1).
Proof.
  assert (H1 : 1 <= 3 <= 5) by lia.
  assert (H2 : 5 < 2147483647) by lia.
  assert (H3 : -32766 <> 0) by lia.
  pose proof (setDeviceIDs_partition 5 3 (-32766) H1 H2 H3) as (_ & Hd & H0 & HP & _).
  split; [auto|]. split; [exact H0|]. split; [exact HP|].
  apply (Hd 1). lia.
Defined.

(** ** Row-pointer merge *)

Example merge_scenario_run :
  merge_rowptr (V:=unit) 3 5 (gathered [[0;2;5];[0;3];[0;1;4]] [] [])
  = Done {| all_I := [0;2;5;8;9;12;12;4]; all_J := []; all_A := [];
            z_ind := [Some 0; Some 3; Some 4; Some 7]; counter := 2;
            local_nnz := 12; local_rows := 5 |}.
Proof. vm_compute. reflexivity. Qed.

Lemma get_middle {A : Type} (l pre : list A) (x : A) (post : list A) (i : Z) :
  l = pre ++ x :: post -> i = Z.of_nat (length pre) -> Arr.get l i = Some x.
Proof.
  intros -> ->. unfold Arr.get.
  destruct (Z.ltb_spec (Z.of_nat (length pre)) 0); [lia|].
  rewrite Nat2Z.id. apply list_lookup_middle. reflexivity.
Qed.

Lemma set_middle {A : Type} (l pre : list A) (x v : A) (post : list A) (i : Z) :
  l = pre ++ x :: post -> i = Z.of_nat (length pre) ->
  Arr.set l i v = Some (pre ++ v :: post).
Proof.
  intros -> ->. unfold Arr.set.
  destruct (Z.leb_spec 0 (Z.of_nat (length pre))); [|lia].
  rewrite length_app; cbn [length].
  destruct (Z.ltb_spec (Z.of_nat (length pre)) (Z.of_nat (length pre + S (length post))));
    [|lia].
  cbn [andb]. rewrite Nat2Z.id.
  rewrite insert_app_r_alt by lia. rewrite Nat.sub_diag. reflexivity.
Qed.

Lemma iterate_app {S : Type} (body : Z -> S -> outcome S) (idx : Z) (n1 n2 : nat)
  (s s1 : S) :
  iterate body idx n1 s = Done s1 ->
  iterate body idx (n1 + n2) s = iterate body (idx + Z.of_nat n1) n2 s1.
Proof.
  revert idx s. induction n1 as [|n1 IH]; intros idx s H.
  - cbn in H. injection H as ->. cbn. f_equal. lia.
  - cbn [iterate Nat.add] in *. destruct (body idx s) as [s'|s']; cbn in *.
    + rewrite (IH _ _ H). f_equal. lia.
    + discriminate.
Qed.

(** *** The zero scan *)

Lemma zero_seams_app (l1 l2 : list Z) (idx : Z) :
  zero_seams (l1 ++ l2) idx
  = zero_seams l1 idx ++ zero_seams l2 (idx + Z.of_nat (length l1)).
Proof.
  revert idx. induction l1 as [|v l1 IH]; intros idx.
  - cbn. f_equal. lia.
  - cbn [zero_seams app length]. rewrite IH.
    replace (idx + 1 + Z.of_nat (length l1)) with (idx + Z.of_nat (S (length l1))) by lia.
    destruct (v =? 0); reflexivity.
Qed.

Lemma zero_seams_positive (l : list Z) (idx : Z) :
  Forall (fun x => 0 < x) l -> zero_seams l idx = [].
Proof.
  intros H. revert idx. induction H as [|v l Hv _ IH]; intros idx; [reflexivity|].
  cbn. destruct (Z.eqb_spec v 0); [lia|]. apply IH.
Qed.

Lemma write_run_length (z : list (option Z)) (c : nat) (vs : list Z) :
  (c + length vs <= length z)%nat -> length (write_run z c vs) = length z.
Proof.
  intros H. unfold write_run.
  rewrite !length_app, length_take, length_map, length_drop. lia.
Qed.

Lemma write_run_nil (z : list (option Z)) (c : nat) : write_run z c [] = z.
Proof. unfold write_run. cbn. rewrite Nat.add_0_r. apply take_drop. Qed.

Lemma write_run_cons (z : list (option Z)) (c : nat) (v : Z) (vs : list Z) :
  (c < length z)%nat ->
  write_run (<[c := Some v]> z) (S c) vs = write_run z c (v :: vs).
Proof.
  intros H. unfold write_run. cbn [map length app].
  rewrite drop_insert_lt by lia.
  rewrite (take_S_r (<[c := Some v]> z) c (Some v))
    by (apply list_lookup_insert_eq; exact H).
  rewrite take_insert_ge by lia.
  rewrite <- app_assoc. cbn.
  replace (c + S (length vs))%nat with (S (c + length vs)) by lia.
  reflexivity.
Qed.

Lemma set_in_range {A : Type} (l : list A) (i : nat) (v : A) :
  (i < length l)%nat -> Arr.set l (Z.of_nat i) v = Some (<[i := v]> l).
Proof.
  intros H. unfold Arr.set.
  destruct (Z.leb_spec 0 (Z.of_nat i)); [|lia].
  destruct (Z.ltb_spec (Z.of_nat i) (Z.of_nat (length l))); [|lia].
  cbn [andb]. rewrite Nat2Z.id. reflexivity.
Qed.

Section Scan.
Context {V : Type}.
Implicit Types s : leader_arrays V.

Lemma write_z_ok s (i : nat) (v : Z) :
  (i < length (z_ind s))%nat ->
  write_z (Z.of_nat i) v s = Done (with_z_ind (<[i := Some v]> (z_ind s)) s).
Proof. intros H. unfold write_z. rewrite set_in_range by exact H. reflexivity. Qed.

Lemma note_zero_run (win : list Z) :
  forall (pre post : list Z) s (c : nat) (idx : Z),
    all_I s = pre ++ win ++ post ->
    idx = Z.of_nat (length pre) ->
    1 <= idx -> idx + Z.of_nat (length win) < 2147483648 ->
    counter s = Z.of_nat c ->
    (c + length (zero_seams win idx) <= length (z_ind s))%nat ->
    Z.of_nat (length (z_ind s)) < 2147483648 ->
    exists s',
      iterate note_zero idx (length win) s = Done s' /\
      all_I s' = all_I s /\
      z_ind s' = write_run (z_ind s) c (zero_seams win idx) /\
      counter s' = Z.of_nat (c + length (zero_seams win idx)).
Proof.
  induction win as [|v win IH]; intros pre post s c idx HI Hidx H1 Hmax Hc Hfit Hz.
  - exists s. cbn. rewrite write_run_nil, Nat.add_0_r. auto.
  - cbn [length iterate].
    assert (Hread : read_I s idx = Some v).
    { unfold read_I. eapply get_middle; [exact HI|exact Hidx]. }
    assert (HI' : all_I s = (pre ++ [v]) ++ win ++ post).
    { rewrite HI, <- app_assoc. reflexivity. }
    assert (Hidx' : idx + 1 = Z.of_nat (length (pre ++ [v]))).
    { rewrite length_app. cbn. lia. }
    cbn [length] in Hmax.
    unfold note_zero at 1. rewrite Hread.
    cbn [zero_seams] in *. destruct (Z.eqb_spec v 0) as [Hv|Hv].
    + cbn [length] in Hfit.
      rewrite Hc, write_z_ok by lia. cbn [and_then].
      rewrite int_sub_small by lia.
      cbn [with_z_ind counter]. rewrite Hc, int_add_small by lia.
      destruct (IH (pre ++ [v]) post
                  (with_counter (Z.of_nat c + 1)
                     (with_z_ind (<[c := Some (idx - 1)]> (z_ind s)) s))
                  (S c) (idx + 1))
        as (s' & Hrun & HI2 & Hz2 & Hc2);
        try (cbn; rewrite ?length_insert; first [assumption | lia]).
      exists s'. split; [exact Hrun|]. cbn in HI2, Hz2.
      split; [exact HI2|]. split.
      * rewrite Hz2. apply write_run_cons. lia.
      * rewrite Hc2. cbn [length]. lia.
    + cbn [and_then].
      destruct (IH (pre ++ [v]) post s c (idx + 1))
        as (s' & Hrun & HI2 & Hz2 & Hc2); try first [assumption | lia].
      exists s'. auto.
Qed.

(** The first zero scan of a pass, on an array whose last entry is not 0. *)
Lemma find_zeros_run (n : nat) s (x0 : Z) (win : list Z) (xl : Z) :
  all_I s = x0 :: win ++ [xl] -> xl <> 0 ->
  length (z_ind s) = S n -> (1 <= n)%nat ->
  (length (zero_seams (win ++ [xl]) 1) <= n)%nat ->
  Z.of_nat (length (all_I s)) < 2147483648 ->
  Z.of_nat n + 1 < 2147483648 ->
  exists s',
    find_zeros (Z.of_nat n) s = Done s' /\
    all_I s' = all_I s /\
    z_ind s' = <[n := Some (Z.of_nat (length (all_I s)) - 1)]>
                 (write_run (<[0%nat := Some 0]> (z_ind s)) 1
                            (zero_seams (win ++ [xl]) 1)).
Proof.
  intros HI Hxl Hlen Hn Hfit Hsize Hnmax.
  assert (Hseams : zero_seams (win ++ [xl]) 1 = zero_seams win 1).
  { rewrite zero_seams_app. cbn. destruct (Z.eqb_spec xl 0); [contradiction|].
    apply app_nil_r. }
  rewrite Hseams in *.
  assert (Hsz : Z.of_nat (length (all_I s)) = Z.of_nat (length win) + 2).
  { rewrite HI. cbn [length]. rewrite length_app. cbn. lia. }
  unfold find_zeros.
  pose proof (write_z_ok (with_counter 0 s) 0%nat 0) as Hw0.
  change (Z.of_nat 0) with 0 in Hw0. rewrite Hw0 by (cbn; lia). clear Hw0.
  cbn [and_then with_z_ind with_counter all_I counter z_ind].
  unfold Arr.size. rewrite int_sub_small by lia. rewrite int_add_small by lia.
  unfold for_range.
  replace (Z.to_nat (Z.of_nat (length (all_I s)) - 1 - 1)) with (length win) by lia.
  destruct (note_zero_run win [x0] [xl]
              (with_counter (0 + 1)
                 (with_z_ind (<[0%nat := Some 0]> (z_ind s)) (with_counter 0 s)))
              1%nat 1)
    as (s' & Hrun & HI2 & Hz2 & Hc2);
    try (cbn; rewrite ?length_insert; first [assumption | reflexivity | lia]).
  cbn [with_counter with_z_ind all_I z_ind counter] in *.
  rewrite Hrun. cbn [and_then].
  rewrite HI2.
  rewrite int_sub_small by lia.
  rewrite write_z_ok
    by (rewrite Hz2, write_run_length; rewrite length_insert; lia).
  exists (with_z_ind (<[n := Some (Z.of_nat (length (all_I s)) - 1)]> (z_ind s')) s').
  split; [reflexivity|]. cbn. split; [exact HI2|]. rewrite Hz2. reflexivity.
Qed.

End Scan.

Lemma last_cons_default {A : Type} (l : list A) (x d : A) :
  List.last (x :: l) d = List.last l x.
Proof.
  revert x d. induction l as [|y l IH]; intros x d; [reflexivity|].
  change (List.last (x :: y :: l) d) with (List.last (y :: l) d).
  rewrite (IH y d), (IH y x). reflexivity.
Qed.

(** *** The bump and the shift *)

Section BumpShift.
Context {V : Type}.
Implicit Types s : leader_arrays V.

Lemma write_I_ok s (pre : list Z) (x v : Z) (post : list Z) (i : Z) :
  all_I s = pre ++ x :: post -> i = Z.of_nat (length pre) ->
  write_I i v s = Done (with_all_I (pre ++ v :: post) s).
Proof.
  intros HI Hi. unfold write_I.
  rewrite (set_middle (all_I s) pre x v post i HI Hi). reflexivity.
Qed.

Lemma bump_run (ms : list Z) :
  forall (pre : list Z) (a c : Z) (post : list Z) s,
    all_I s = pre ++ a :: c :: ms ++ post ->
    Z.of_nat (length (all_I s)) < 2147483648 ->
    Forall (fun x => 0 <= x < 2147483648) (c :: ms) ->
    Forall (fun x => 0 <= a + (x - c) < 2147483648) ms ->
    exists s',
      iterate bump_at (Z.of_nat (length pre) + 1) (length ms) s = Done s' /\
      all_I s' = pre ++ a :: map (fun x => a + (x - c)) ms ++ List.last ms c :: post /\
      z_ind s' = z_ind s.
Proof.
  induction ms as [|m1 ms IH]; intros pre a c post s HI Hsize Hrng Hsum.
  - exists s. cbn. auto.
  - cbn [length iterate]. cbn [app] in HI.
    assert (Hlen : Z.of_nat (length (all_I s))
                   = Z.of_nat (length pre) + 3 + Z.of_nat (length ms)
                     + Z.of_nat (length post)).
    { rewrite HI. rewrite length_app. cbn [length]. rewrite length_app. lia. }
    apply Forall_cons in Hrng as [Hc Hrng].
    pose proof Hrng as Hrng'. apply Forall_cons in Hrng' as [Hm1 _].
    apply Forall_cons in Hsum as [Ha' Hsum].
    unfold bump_at at 1.
    rewrite int_sub_small, int_add_small by lia.
    assert (Hra : read_I s (Z.of_nat (length pre) + 1 - 1) = Some a).
    { unfold read_I. eapply get_middle; [exact HI|lia]. }
    assert (Hrc : read_I s (Z.of_nat (length pre) + 1) = Some c).
    { unfold read_I. apply (get_middle _ (pre ++ [a]) c (m1 :: ms ++ post)).
      - rewrite HI, <- app_assoc. reflexivity.
      - rewrite length_app. cbn. lia. }
    assert (Hrm : read_I s (Z.of_nat (length pre) + 1 + 1) = Some m1).
    { unfold read_I. apply (get_middle _ (pre ++ [a; c]) m1 (ms ++ post)).
      - rewrite HI, <- app_assoc. reflexivity.
      - rewrite length_app. cbn. lia. }
    rewrite Hra, Hrm, Hrc.
    rewrite (int_sub_small m1 c) by lia.
    rewrite int_add_small by lia.
    rewrite (write_I_ok s (pre ++ [a]) c (a + (m1 - c)) (m1 :: ms ++ post))
      by (rewrite ?length_app; cbn; first [rewrite HI, <- app_assoc; reflexivity | lia]).
    cbn [and_then].
    destruct (IH (pre ++ [a]) (a + (m1 - c)) m1 post
                (with_all_I ((pre ++ [a]) ++ a + (m1 - c) :: m1 :: ms ++ post) s))
      as (s' & Hrun & HI' & Hz').
    + reflexivity.
    + cbn [with_all_I all_I]. rewrite !length_app. cbn [length].
      rewrite length_app. lia.
    + exact Hrng.
    + eapply Forall_impl; [exact Hsum|]. cbn. intros x Hx. lia.
    + exists s'. split.
      * rewrite <- Hrun. f_equal. rewrite length_app. cbn. lia.
      * split; [|exact Hz'].
        rewrite HI', <- app_assoc. cbn [app map]. do 3 f_equal.
        f_equal; [apply map_ext; intros x; lia|].
        f_equal. symmetry. apply last_cons_default.
Qed.

Lemma shift_run (post : list Z) :
  forall (pre : list Z) (x : Z) s,
    all_I s = pre ++ x :: post ->
    Z.of_nat (length (all_I s)) < 2147483648 ->
    exists s',
      iterate shift_at (Z.of_nat (length pre)) (length post) s = Done s' /\
      all_I s' = pre ++ post ++ [List.last post x] /\
      z_ind s' = z_ind s.
Proof.
  induction post as [|y post IH]; intros pre x s HI Hsize.
  - exists s. cbn. auto.
  - cbn [length iterate].
    assert (Hlen : Z.of_nat (length (all_I s))
                   = Z.of_nat (length pre) + 2 + Z.of_nat (length post)).
    { rewrite HI. rewrite length_app. cbn [length]. lia. }
    unfold shift_at at 1. rewrite int_add_small by lia.
    assert (Hry : read_I s (Z.of_nat (length pre) + 1) = Some y).
    { unfold read_I. apply (get_middle _ (pre ++ [x]) y post).
      - rewrite HI, <- app_assoc. reflexivity.
      - rewrite length_app. cbn. lia. }
    rewrite Hry.
    rewrite (write_I_ok s pre x y (y :: post)) by first [exact HI | reflexivity].
    cbn [and_then].
    destruct (IH (pre ++ [y]) y (with_all_I (pre ++ y :: y :: post) s))
      as (s' & Hrun & HI' & Hz').
    + cbn. rewrite <- app_assoc. reflexivity.
    + cbn [with_all_I all_I]. rewrite length_app. cbn [length]. lia.
    + exists s'. split.
      * rewrite <- Hrun. f_equal. rewrite length_app. cbn. lia.
      * split; [|exact Hz'].
        rewrite HI', <- app_assoc. cbn [app].
        rewrite (last_cons_default post y x). reflexivity.
Qed.

End BumpShift.

(** *** Fragments *)

Lemma last_app_nonempty {A : Type} (l1 l2 : list A) (d : A) :
  l2 <> [] -> List.last (l1 ++ l2) d = List.last l2 d.
Proof.
  intros H. destruct (exists_last H) as (l' & a & ->).
  rewrite app_assoc, !last_last. reflexivity.
Qed.

Lemma positive_last (l : list Z) (d : Z) :
  positive l -> l <> [] -> 0 < List.last l d.
Proof.
  intros Hp H. destruct (exists_last H) as (l' & a & ->).
  rewrite last_last. apply Forall_app in Hp as [_ Ha].
  apply Forall_cons in Ha as [Ha _]. exact Ha.
Qed.

Lemma last_in {A : Type} (l : list A) (x : A) : In (List.last l x) (x :: l).
Proof.
  destruct (@exists_last _ (x :: l) ltac:(discriminate)) as (l' & a & E).
  rewrite <- (last_cons_default l x x), E, last_last.
  apply in_or_app. right. left. reflexivity.
Qed.

Lemma sorted_le_last (l : list Z) (d : Z) :
  Sorted Z.le l -> Forall (fun x => x <= List.last l d) l.
Proof.
  intros H. apply Sorted_StronglySorted in H; [|intros x y z; apply Z.le_trans].
  induction H as [|x l Hl IH Hx]; [constructor|].
  rewrite last_cons_default. constructor.
  - destruct (last_in l x) as [<-|Hin]; [lia|].
    rewrite Forall_forall in Hx. apply Hx, list_elem_of_In, Hin.
  - destruct l as [|y l]; [constructor|].
    rewrite last_cons_default. rewrite last_cons_default in IH. exact IH.
Qed.

(** What a well-formed fragment gives the merge. *)
Lemma rowptr_ok_inv (f : list Z) :
  rowptr_ok f ->
  exists r, f = 0 :: r /\ r <> [] /\ positive r /\
            List.last f 0 = List.last r 0 /\
            0 < List.last f 0 /\
            Forall (fun x => x <= List.last f 0) r.
Proof.
  intros (r & -> & Hne & Hs & Hp). exists r.
  split; [reflexivity|]. split; [exact Hne|]. split; [exact Hp|].
  assert (E : List.last (0 :: r) 0 = List.last r 0) by apply last_cons_default.
  split; [exact E|]. split.
  - rewrite E. apply positive_last; assumption.
  - pose proof (sorted_le_last _ 0 Hs) as H. apply Forall_cons in H as [_ H]. exact H.
Qed.

Lemma nnz_of_cons (f : list Z) (frags : list (list Z)) :
  nnz_of (f :: frags) = List.last f 0 + nnz_of frags.
Proof. reflexivity. Qed.

Lemma rows_of_cons (f : list Z) (frags : list (list Z)) :
  rows_of (f :: frags) = Z.of_nat (length f) - 1 + rows_of frags.
Proof. reflexivity. Qed.

Lemma nnz_of_nonneg (frags : list (list Z)) :
  Forall rowptr_ok frags -> 0 <= nnz_of frags.
Proof.
  induction 1 as [|f frags Hf _ IH]; [cbn; lia|].
  destruct (rowptr_ok_inv f Hf) as (r & _ & _ & _ & _ & Hl & _).
  rewrite nnz_of_cons. lia.
Qed.

Lemma zero_seams_length (l : list Z) (i j : Z) :
  length (zero_seams l i) = length (zero_seams l j).
Proof.
  revert i j. induction l as [|v l IH]; intros i j; [reflexivity|].
  cbn. destruct (v =? 0); cbn; rewrite (IH (i + 1) (j + 1)); reflexivity.
Qed.

Lemma zero_seams_fragments (rest : list (list Z)) (pad : list Z) (i : Z) :
  Forall rowptr_ok rest -> positive pad ->
  length (zero_seams (concat rest ++ pad) i) = length rest.
Proof.
  intros Hrest Hpad. revert i.
  induction Hrest as [|f rest Hf _ IH]; intros i.
  - cbn. rewrite zero_seams_positive by exact Hpad. reflexivity.
  - destruct (rowptr_ok_inv f Hf) as (r & -> & _ & Hp & _).
    cbn [concat app zero_seams]. cbn [Z.eqb length].
    rewrite <- app_assoc, zero_seams_app, zero_seams_positive by exact Hp.
    cbn [app]. rewrite IH. reflexivity.
Qed.

Lemma fragments_last_nonzero (rest : list (list Z)) (pad : list Z) :
  Forall rowptr_ok rest -> positive pad -> rest <> [] ->
  0 < List.last (concat rest ++ pad) 0.
Proof.
  intros Hrest Hpad Hne. destruct pad as [|p pad].
  - rewrite app_nil_r. destruct (exists_last Hne) as (rest' & f & ->).
    apply Forall_app in Hrest as [_ Hf]. apply Forall_cons in Hf as [Hf _].
    destruct (rowptr_ok_inv f Hf) as (r & E & _ & _ & _ & Hl & _).
    rewrite concat_app. cbn [concat]. rewrite app_nil_r.
    rewrite last_app_nonempty by (rewrite E; discriminate). exact Hl.
  - rewrite last_app_nonempty by discriminate.
    apply positive_last; [exact Hpad|discriminate].
Qed.

(** *** One pass *)

Ltac norm_app :=
  repeat first [rewrite <- app_assoc | progress cbn [app concat]].

Lemma get_nat {A : Type} (l : list A) (i : nat) : Arr.get l (Z.of_nat i) = l !! i.
Proof.
  unfold Arr.get. destruct (Z.ltb_spec (Z.of_nat i) 0); [lia|].
  rewrite Nat2Z.id. reflexivity.
Qed.

Lemma write_run_lookup (z : list (option Z)) (c i : nat) (vs : list Z) (v : Z) :
  (c <= length z)%nat -> vs !! i = Some v ->
  write_run z c vs !! (c + i)%nat = Some (Some v).
Proof.
  intros Hc Hv. unfold write_run.
  rewrite lookup_app_r by (rewrite length_take; lia).
  rewrite length_take, Nat.min_l by exact Hc.
  replace (c + i - c)%nat with i by lia.
  rewrite lookup_app_l by (rewrite length_map; eapply lookup_lt_Some; exact Hv).
  rewrite list_lookup_fmap, Hv. reflexivity.
Qed.

Section Passes.
Context {V : Type}.
Implicit Types s : leader_arrays V.

(** The slot [j] of [z_ind] after a scan that found [seams], for a slot the
    closing store [z_ind[devWorldSize] = ...] does not hit. *)
Lemma read_z_seam s (z : list (option Z)) (k j : nat) (v zj : Z) (seams : list Z) :
  z_ind s = <[k := Some v]> (write_run (<[0%nat := Some 0]> z) 1 seams) ->
  length z = S k -> (S j < k)%nat -> seams !! j = Some zj ->
  read_z s (Z.of_nat (S j)) = Some zj.
Proof.
  intros Hz Hlen Hj Hs. unfold read_z. rewrite get_nat, Hz.
  rewrite list_lookup_insert_ne by lia.
  change (S j) with (1 + j)%nat.
  rewrite (write_run_lookup _ 1 j seams zj); [reflexivity| |exact Hs].
  rewrite length_insert. lia.
Qed.

Lemma read_z_closing s (z : list (option Z)) (k : nat) (v : Z) (seams : list Z) :
  z_ind s = <[k := Some v]> (write_run (<[0%nat := Some 0]> z) 1 seams) ->
  length z = S k -> (length seams <= k)%nat ->
  read_z s (Z.of_nat k) = Some v.
Proof.
  intros Hz Hlen Hs. unfold read_z. rewrite get_nat, Hz.
  rewrite list_lookup_insert_eq; [reflexivity|].
  rewrite write_run_length; rewrite length_insert; lia.
Qed.

Lemma merge_pass_run (k : nat) (iter : Z) (acc f1 f2 : list Z)
  (rest : list (list Z)) (pad : list Z) s :
  all_I s = acc ++ concat (f1 :: f2 :: rest) ++ pad ->
  merged_so_far acc -> rowptr_ok f1 -> rowptr_ok f2 -> Forall rowptr_ok rest ->
  positive pad ->
  length (z_ind s) = S k -> (3 <= k)%nat -> (2 + length rest <= k)%nat ->
  Z.of_nat k + 1 < 2147483648 ->
  Z.of_nat (length (all_I s)) < 2147483648 ->
  List.last acc 0 + List.last f1 0 < 2147483648 ->
  exists s',
    merge_pass (Z.of_nat k) iter s = Done s' /\
    all_I s' = (acc ++ map (Z.add (List.last acc 0)) (tail f1))
               ++ concat (f2 :: rest) ++ pad ++ [List.last (all_I s) 0] /\
    length (z_ind s') = S k.
Proof.
  intros HI (acc' & -> & Hacc) Hf1 Hf2 Hrest Hpad Hz Hk Hfit Hkmax Hsize Hsum.
  destruct (rowptr_ok_inv f1 Hf1) as (r1 & -> & Hne1 & Hp1 & Hl1 & Hl1pos & Hle1).
  destruct (rowptr_ok_inv f2 Hf2) as (r2 & -> & Hne2 & Hp2 & _).
  set (R := r2 ++ concat rest ++ pad).
  assert (HR : R <> []).
  { subst R. destruct r2; [contradiction|discriminate]. }
  destruct (exists_last HR) as (body & xl & HRe).
  assert (Hxl : 0 < xl).
  { pose proof (fragments_last_nonzero ((0 :: r2) :: rest) pad
                  ltac:(constructor; assumption) Hpad ltac:(discriminate)) as H.
    cbn [concat app] in H. rewrite <- app_assoc in H. fold R in H.
    rewrite last_cons_default, HRe in H.
    rewrite <- (last_cons_default _ 0 0) in H.
    rewrite app_comm_cons, last_last in H. exact H. }
  assert (HI1 : all_I s = 0 :: (acc' ++ 0 :: r1 ++ 0 :: body) ++ [xl]).
  { rewrite HI. norm_app. rewrite <- HRe. subst R. reflexivity. }
  assert (Hlast : List.last (all_I s) 0 = xl).
  { rewrite HI1, app_comm_cons, last_last. reflexivity. }
  set (z1 := Z.of_nat (length acc')).
  set (z2 := Z.of_nat (length acc') + 1 + Z.of_nat (length r1)).
  assert (Hseams : exists more,
            zero_seams ((acc' ++ 0 :: r1 ++ 0 :: body) ++ [xl]) 1 = z1 :: z2 :: more /\
            length more = length rest).
  { exists (zero_seams R (1 + Z.of_nat (length acc') + 1 + Z.of_nat (length r1) + 1)).
    split.
    - norm_app. rewrite <- HRe.
      rewrite zero_seams_app, (zero_seams_positive acc') by exact Hacc.
      cbn [app zero_seams Z.eqb].
      rewrite zero_seams_app, (zero_seams_positive r1) by exact Hp1.
      cbn [app zero_seams Z.eqb]. subst z1 z2.
      f_equal; [lia|]. f_equal. lia.
    - subst R. rewrite <- (app_nil_l (r2 ++ concat rest ++ pad)).
      rewrite (zero_seams_length _ _ 0). cbn [app].
      rewrite zero_seams_app, (zero_seams_positive r2) by exact Hp2.
      cbn [app]. apply zero_seams_fragments; assumption. }
  destruct Hseams as (more & Hseams & Hmore).
  destruct (find_zeros_run k s 0 (acc' ++ 0 :: r1 ++ 0 :: body) xl)
    as (s1 & Hfz & HIs1 & Hzs1);
    try first [assumption | lia].
  { rewrite Hseams. cbn [length]. lia. }
  rewrite Hseams in Hzs1.
  unfold merge_pass. rewrite Hfz. cbn [and_then].
  pose proof (read_z_seam s1 (z_ind s) k 0 _ z1 _ Hzs1 Hz ltac:(lia) eq_refl) as Hr1.
  pose proof (read_z_seam s1 (z_ind s) k 1 _ z2 _ Hzs1 Hz ltac:(lia) eq_refl) as Hr2.
  change (Z.of_nat 1) with 1 in Hr1. change (Z.of_nat 2) with 2 in Hr2.
  rewrite Hr1, Hr2.
  assert (Hlen : Z.of_nat (length (all_I s))
                 = Z.of_nat (length acc') + Z.of_nat (length r1)
                   + Z.of_nat (length body) + 4).
  { rewrite HI1. cbn [length]. rewrite !length_app. cbn [length].
    rewrite length_app. cbn [length]. lia. }
  assert (Hzlen : length (z_ind s1) = S k).
  { rewrite Hzs1, length_insert, write_run_length; rewrite length_insert;
      [exact Hz|]. cbn [length]. lia. }
  (* the merged part ends in its running total *)
  destruct (@exists_last _ (0 :: acc') ltac:(discriminate)) as (acc0 & a & Hacc0).
  assert (Ha : List.last (0 :: acc') 0 = a) by (rewrite Hacc0; apply last_last).
  assert (Ha0 : 0 <= a).
  { rewrite <- Ha, last_cons_default.
    destruct (last_in acc' 0) as [<-|Hin]; [lia|].
    unfold positive in Hacc. rewrite Forall_forall in Hacc.
    apply list_elem_of_In, Hacc in Hin. lia. }
  assert (Hlen0 : length acc0 = length acc').
  { apply (f_equal (@length Z)) in Hacc0. rewrite length_app in Hacc0.
    cbn [length] in Hacc0. lia. }
  rewrite Ha in *. clear Ha.
  assert (HI2 : all_I s1 = acc0 ++ a :: 0 :: r1 ++ 0 :: R).
  { rewrite HIs1, HI. change (0 :: acc') with (0 :: acc'). rewrite Hacc0.
    norm_app. reflexivity. }
  subst z1 z2.
  rewrite int_add_small by lia. unfold for_range.
  replace (Z.to_nat (Z.of_nat (length acc') + 1 + Z.of_nat (length r1)
                     - (Z.of_nat (length acc') + 1))) with (length r1) by lia.
  destruct (bump_run r1 acc0 a 0 (0 :: R) s1 HI2) as (s2 & Hbump & HI3 & Hz3).
  { rewrite HIs1. exact Hsize. }
  { constructor; [lia|]. unfold positive in Hp1.
    rewrite Forall_forall in Hp1, Hle1 |- *. intros x Hx.
    specialize (Hp1 x Hx). specialize (Hle1 x Hx). cbn beta in *. lia. }
  { unfold positive in Hp1.
    rewrite Forall_forall in Hp1, Hle1 |- *. intros x Hx.
    specialize (Hp1 x Hx). specialize (Hle1 x Hx). cbn beta in *. lia. }
  rewrite Hlen0 in Hbump. rewrite Hbump. cbn [and_then].
  assert (Hlen3 : length (all_I s2) = length (all_I s)).
  { rewrite HI3, <- HIs1, HI2. rewrite !length_app. cbn [length].
    rewrite !length_app, length_map. cbn [length]. lia. }
  unfold Arr.size. rewrite Hlen3, int_sub_small by lia.
  replace (Z.to_nat (Z.of_nat (length (all_I s)) - 1
                     - (Z.of_nat (length acc') + 1 + Z.of_nat (length r1))))
    with (length (0 :: R))
    by (rewrite HRe; cbn [length]; rewrite length_app; cbn [length]; lia).
  destruct (shift_run (0 :: R) (acc0 ++ a :: map (fun x => a + (x - 0)) r1)
              (List.last r1 0) s2) as (s3 & Hshift & HI4 & Hz4).
  { rewrite HI3. norm_app. reflexivity. }
  { rewrite Hlen3. exact Hsize. }
  replace (Z.of_nat (length (acc0 ++ a :: map (fun x => a + (x - 0)) r1)))
    with (Z.of_nat (length acc') + 1 + Z.of_nat (length r1)) in Hshift
    by (rewrite length_app; cbn [length]; rewrite length_map; lia).
  exists s3. split; [exact Hshift|]. split.
  - rewrite HI4, Hlast. cbn [tail]. rewrite Hacc0.
    rewrite last_cons_default, HRe, last_app_nonempty by discriminate.
    cbn [List.last]. rewrite <- HRe. subst R. norm_app.
    do 2 f_equal. f_equal. apply map_ext. intros x. lia.
  - rewrite Hz4, Hz3. exact Hzlen.
Qed.

End Passes.

(** *** The passes of the while loop *)

Section Loop.
Context {V : Type}.
Implicit Types s : leader_arrays V.

Lemma merged_so_far_last (acc : list Z) : merged_so_far acc -> 0 <= List.last acc 0.
Proof.
  intros (acc' & -> & Hacc). rewrite last_cons_default.
  destruct (last_in acc' 0) as [<-|Hin]; [lia|].
  unfold positive in Hacc. rewrite Forall_forall in Hacc.
  apply list_elem_of_In, Hacc in Hin. lia.
Qed.

Lemma merged_so_far_join (acc f : list Z) :
  merged_so_far acc -> rowptr_ok f ->
  merged_so_far (acc ++ map (Z.add (List.last acc 0)) (tail f)) /\
  List.last (acc ++ map (Z.add (List.last acc 0)) (tail f)) 0
  = List.last acc 0 + List.last f 0.
Proof.
  intros Hacc Hf. pose proof (merged_so_far_last acc Hacc) as Ha.
  destruct Hacc as (acc' & -> & Hacc).
  destruct (rowptr_ok_inv f Hf) as (r & -> & Hne & Hp & Hl & _).
  cbn [tail]. split.
  - exists (acc' ++ map (Z.add (List.last (0 :: acc') 0)) r).
    split; [reflexivity|]. apply Forall_app. split; [exact Hacc|].
    apply Forall_fmap. eapply Forall_impl; [exact Hp|].
    intros x Hx. unfold compose. cbn beta in *. lia.
  - destruct (exists_last Hne) as (r' & x & ->).
    rewrite Hl, map_app. cbn [map]. rewrite app_assoc, !last_last. reflexivity.
Qed.

Lemma merge_passes_run (k n : nat) :
  forall (iter : Z) (acc : list Z) (rest : list (list Z)) (pad : list Z) s,
    all_I s = acc ++ concat rest ++ pad ->
    length rest = S n ->
    merged_so_far acc -> Forall rowptr_ok rest -> positive pad ->
    length (z_ind s) = S k -> (S (length rest) <= k)%nat ->
    Z.of_nat k + 1 < 2147483648 ->
    Z.of_nat (length (all_I s)) < 2147483648 ->
    List.last acc 0 + nnz_of rest < 2147483648 ->
    exists s',
      iterate (merge_pass (Z.of_nat k)) iter n s = Done s' /\
      all_I s' = join_rowptrs acc (take n rest) ++ concat (drop n rest)
                 ++ pad ++ replicate n (List.last (all_I s) 0) /\
      length (z_ind s') = S k.
Proof.
  induction n as [|n IH]; intros iter acc rest pad s HI Hlen Hacc Hrest Hpad Hz Hk
    Hkmax Hsize Hsum.
  - exists s. cbn. rewrite app_nil_r. auto.
  - destruct rest as [|f1 [|f2 rest]]; try discriminate.
    apply Forall_cons in Hrest as [Hf1 Hrest].
    pose proof Hrest as Hrest'. apply Forall_cons in Hrest' as [Hf2 Hrest2].
    cbn [length] in Hlen, Hk. rewrite nnz_of_cons in Hsum.
    pose proof (nnz_of_nonneg _ Hrest) as Hnn.
    destruct (merge_pass_run k iter acc f1 f2 rest pad s HI Hacc Hf1 Hf2 Hrest2
                Hpad Hz ltac:(lia) ltac:(lia) Hkmax Hsize ltac:(lia))
      as (s1 & Hpass & HI1 & Hz1).
    destruct (merged_so_far_join acc f1 Hacc Hf1) as [Hacc1 Hlast1].
    set (g := List.last (all_I s) 0) in *.
    assert (Hg : 0 < g).
    { subst g. rewrite HI.
      rewrite last_app_nonempty.
      - apply fragments_last_nonzero; [constructor; assumption|exact Hpad|discriminate].
      - destruct (rowptr_ok_inv f1 Hf1) as (r & -> & _). discriminate. }
    assert (Hsame : length (all_I s1) = length (all_I s)).
    { rewrite HI1, HI. destruct (rowptr_ok_inv f1 Hf1) as (r & -> & _).
      cbn [concat tail].
      repeat first [rewrite length_app | rewrite length_map | progress cbn [length]].
      lia. }
    destruct (IH (iter + 1) (acc ++ map (Z.add (List.last acc 0)) (tail f1))
                (f2 :: rest) (pad ++ [g]) s1)
      as (s' & Hrun & HI' & Hz').
    + rewrite HI1. norm_app. reflexivity.
    + cbn [length]. lia.
    + exact Hacc1.
    + exact Hrest.
    + apply Forall_app. split; [exact Hpad|]. constructor; [exact Hg|constructor].
    + exact Hz1.
    + cbn [length]. lia.
    + exact Hkmax.
    + rewrite Hsame. exact Hsize.
    + rewrite Hlast1. lia.
    + exists s'. cbn [iterate]. rewrite Hpass. cbn [and_then].
      split; [exact Hrun|]. split; [|exact Hz'].
      rewrite HI'. cbn [take drop join_rowptrs].
      assert (Hg1 : List.last (all_I s1) 0 = g).
      { rewrite HI1. rewrite !app_assoc. apply last_last. }
      rewrite Hg1. norm_app. reflexivity.
Qed.

End Loop.

(** *** The last time through the array *)

Section Last.
Context {V : Type}.
Implicit Types s : leader_arrays V.

Lemma merge_last_run (k m : nat) (nDevRows : Z) (acc f : list Z) s :
  all_I s = acc ++ f ++ replicate m (List.last f 0) ->
  merged_so_far acc -> rowptr_ok f ->
  k = (m + 2)%nat -> length (z_ind s) = S k ->
  Z.of_nat k + 1 < 2147483648 ->
  Z.of_nat (length (all_I s)) < 2147483648 ->
  List.last acc 0 + List.last f 0 < 2147483648 ->
  exists s',
    merge_last (Z.of_nat k) nDevRows s = Done s' /\
    all_I s' = (acc ++ map (Z.add (List.last acc 0)) (tail f))
               ++ map (Z.add (List.last acc 0)) (replicate m (List.last f 0))
               ++ [List.last f 0] /\
    local_nnz s' = List.last acc 0 + List.last f 0 /\
    local_rows s' = nDevRows.
Proof.
  intros HI Hacc Hf Hk Hz Hkmax Hsize Hsum.
  pose proof (merged_so_far_last acc Hacc) as Ha0.
  destruct Hacc as (acc' & -> & Hacc).
  destruct (rowptr_ok_inv f Hf) as (r & -> & Hne & Hp & Hl & Hlpos & Hle).
  set (g := List.last (0 :: r) 0) in *.
  set (a := List.last (0 :: acc') 0) in *.
  assert (Hpad : positive (replicate m g)).
  { apply Forall_replicate. exact Hlpos. }
  set (R := r ++ replicate m g).
  assert (HR : R <> []) by (subst R; destruct r; [contradiction|discriminate]).
  destruct (exists_last HR) as (body & xl & HRe).
  assert (Hxl : xl = g).
  { assert (E : List.last R 0 = g).
    { subst R. destruct m as [|m].
      - cbn [replicate]. rewrite app_nil_r. symmetry. exact Hl.
      - rewrite replicate_S_end, !app_assoc. apply last_last. }
    rewrite HRe, last_last in E. exact E. }
  assert (HI1 : all_I s = 0 :: (acc' ++ 0 :: body) ++ [xl]).
  { rewrite HI. norm_app. rewrite <- HRe. subst R. reflexivity. }
  assert (Hseams : zero_seams ((acc' ++ 0 :: body) ++ [xl]) 1
                   = [Z.of_nat (length acc')]).
  { norm_app. rewrite <- HRe.
    rewrite zero_seams_app, (zero_seams_positive acc') by exact Hacc.
    cbn [app zero_seams Z.eqb]. subst R.
    rewrite zero_seams_positive by (apply Forall_app; split; assumption).
    f_equal. lia. }
  destruct (find_zeros_run k s 0 (acc' ++ 0 :: body) xl)
    as (s1 & Hfz & HIs1 & Hzs1); try first [assumption | lia].
  { rewrite Hseams. cbn [length]. lia. }
  rewrite Hseams in Hzs1.
  unfold merge_last. rewrite Hfz. cbn [and_then].
  pose proof (read_z_seam s1 (z_ind s) k 0 _ _ _ Hzs1 Hz ltac:(lia) eq_refl) as Hr1.
  change (Z.of_nat 1) with 1 in Hr1. rewrite Hr1.
  assert (Hlen : Z.of_nat (length (all_I s))
                 = Z.of_nat (length acc') + Z.of_nat (length R) + 2).
  { rewrite HI. change ((0 :: r) ++ replicate m g) with (0 :: R).
    rewrite length_app. cbn [length]. lia. }
  destruct (@exists_last _ (0 :: acc') ltac:(discriminate)) as (acc0 & a' & Hacc0).
  assert (Ha : a' = a) by (subst a; rewrite Hacc0; symmetry; apply last_last).
  subst a'.
  assert (Hlen0 : length acc0 = length acc').
  { apply (f_equal (@length Z)) in Hacc0. rewrite length_app in Hacc0.
    cbn [length] in Hacc0. lia. }
  assert (HI2 : all_I s1 = acc0 ++ a :: 0 :: R ++ []).
  { rewrite HIs1, HI, Hacc0. subst R. norm_app. rewrite app_nil_r. reflexivity. }
  rewrite int_add_small by lia. unfold for_range, Arr.size.
  rewrite HIs1, int_sub_small by lia.
  replace (Z.to_nat (Z.of_nat (length (all_I s)) - 1 - (Z.of_nat (length acc') + 1)))
    with (length R) by lia.
  assert (HRle : Forall (fun x => 0 < x <= g) R).
  { subst R. apply Forall_app. split.
    - unfold positive in Hp. rewrite Forall_forall in Hp, Hle |- *.
      intros x Hx. specialize (Hp x Hx). specialize (Hle x Hx). cbn beta in *. lia.
    - apply Forall_replicate. lia. }
  destruct (bump_run R acc0 a 0 [] s1 HI2) as (s2 & Hbump & HI3 & Hz3).
  { rewrite HIs1. exact Hsize. }
  { constructor; [lia|]. eapply Forall_impl; [exact HRle|].
    intros x Hx. cbn beta in *. lia. }
  { eapply Forall_impl; [exact HRle|]. intros x Hx. cbn beta in *. lia. }
  rewrite Hlen0 in Hbump. rewrite Hbump. cbn [and_then].
  assert (Hlen3 : length (all_I s2) = length (all_I s)).
  { rewrite HI3, <- HIs1, HI2.
    repeat first [rewrite length_app | rewrite length_map | progress cbn [length]].
    lia. }
  rewrite Hlen3, int_sub_small by lia.
  (* the entry read into [local_nnz] is the last one of the merged part *)
  destruct (exists_last Hne) as (r' & lr & Hr').
  assert (Hlr : lr = g).
  { subst g. rewrite Hl, Hr'. symmetry. apply last_last. }
  assert (Hread : read_I s2 (Z.of_nat (length (all_I s)) - Z.of_nat k)
                  = Some (a + g)).
  { unfold read_I.
    apply (get_middle _ (acc0 ++ a :: map (fun x => a + (x - 0)) r') (a + g)
                      (map (fun x => a + (x - 0)) (replicate m g)
                       ++ [List.last R 0])).
    - rewrite HI3. subst R. rewrite Hr', !map_app. cbn [map]. norm_app.
      rewrite Hlr. do 3 f_equal. f_equal. lia.
    - rewrite Hlen. subst R.
      repeat first [rewrite length_app | rewrite length_map
                   | rewrite length_replicate | progress cbn [length]].
      rewrite Hr', length_app. cbn [length]. lia. }
  rewrite Hread.
  eexists. split; [reflexivity|]. cbn [with_counts all_I local_nnz local_rows].
  split; [|split; reflexivity].
  rewrite HI3, Hacc0. cbn [tail]. subst R. rewrite map_app. norm_app.
  do 2 f_equal. f_equal; [apply map_ext; intros x; lia|].
  f_equal; [apply map_ext; intros x; lia|].
  rewrite HRe, last_last, Hxl. reflexivity.
Qed.

(** A group of one process: nothing is bumped. *)
Lemma merge_last_single (nDevRows : Z) (f : list Z) s :
  all_I s = f -> rowptr_ok f -> length (z_ind s) = 2%nat ->
  Z.of_nat (length (all_I s)) < 2147483648 ->
  exists s',
    merge_last 1 nDevRows s = Done s' /\
    all_I s' = f /\
    local_nnz s' = List.last f 0 /\
    local_rows s' = nDevRows.
Proof.
  intros HI Hf Hz Hsize.
  destruct (rowptr_ok_inv f Hf) as (r & -> & Hne & Hp & Hl & Hlpos & Hle).
  destruct (exists_last Hne) as (body & xl & Hr).
  assert (Hxl : xl = List.last (0 :: r) 0).
  { rewrite Hl, Hr. symmetry. apply last_last. }
  assert (HI1 : all_I s = 0 :: body ++ [xl]) by (rewrite HI, Hr; reflexivity).
  assert (Hseams : zero_seams (body ++ [xl]) 1 = []).
  { rewrite <- Hr. apply zero_seams_positive, Hp. }
  destruct (find_zeros_run 1 s 0 body xl)
    as (s1 & Hfz & HIs1 & Hzs1); try first [assumption | lia].
  { rewrite Hseams. cbn [length]. lia. }
  rewrite Hseams in Hzs1.
  change 1 with (Z.of_nat 1) at 1. unfold merge_last. rewrite Hfz. cbn [and_then].
  pose proof (read_z_closing s1 (z_ind s) 1 _ _ Hzs1 Hz ltac:(cbn; lia)) as Hr1.
  change (Z.of_nat 1) with 1 in *. rewrite Hr1.
  assert (Hlen : Z.of_nat (length (all_I s)) = Z.of_nat (length body) + 2).
  { rewrite HI1. cbn [length]. rewrite length_app. cbn [length]. lia. }
  rewrite int_add_small by lia. unfold for_range, Arr.size.
  rewrite HIs1, int_sub_small by lia.
  replace (Z.to_nat (Z.of_nat (length (all_I s)) - 1
                     - (Z.of_nat (length (all_I s)) - 1 + 1))) with 0%nat by lia.
  cbn [iterate and_then]. rewrite HIs1, int_sub_small by lia.
  assert (Hread : read_I s1 (Z.of_nat (length (all_I s)) - 1) = Some xl).
  { unfold read_I. apply (get_middle _ (0 :: body) xl []).
    - rewrite HIs1, HI1. reflexivity.
    - rewrite Hlen. cbn [length]. lia. }
  rewrite Hread. eexists. split; [reflexivity|].
  cbn [with_counts all_I local_nnz local_rows].
  split; [rewrite HIs1, HI; reflexivity|]. split; [exact Hxl|reflexivity].
Qed.

End Last.

(** *** The merged row pointer *)

Lemma join_rowptrs_app (acc : list Z) (l1 l2 : list (list Z)) :
  join_rowptrs acc (l1 ++ l2) = join_rowptrs (join_rowptrs acc l1) l2.
Proof.
  revert acc. induction l1 as [|f l1 IH]; intros acc; [reflexivity|].
  cbn [app join_rowptrs]. apply IH.
Qed.

Lemma rowptr_ok_merged_so_far (f : list Z) : rowptr_ok f -> merged_so_far f.
Proof.
  intros Hf. destruct (rowptr_ok_inv f Hf) as (r & -> & _ & Hp & _).
  exists r. split; [reflexivity|exact Hp].
Qed.

Lemma concat_length_rows (frags : list (list Z)) :
  Forall rowptr_ok frags ->
  Z.of_nat (length (concat frags)) = rows_of frags + Z.of_nat (length frags).
Proof.
  induction 1 as [|f frags Hf _ IH]; [reflexivity|].
  cbn [concat]. rewrite length_app, rows_of_cons. cbn [length]. lia.
Qed.

Lemma join_rowptrs_facts (rest : list (list Z)) :
  forall acc : list Z,
    merged_so_far acc -> Sorted Z.le acc -> Forall rowptr_ok rest ->
    merged_so_far (join_rowptrs acc rest) /\
    Sorted Z.le (join_rowptrs acc rest) /\
    List.last (join_rowptrs acc rest) 0 = List.last acc 0 + nnz_of rest /\
    Z.of_nat (length (join_rowptrs acc rest))
    = Z.of_nat (length acc) + rows_of rest.
Proof.
  induction rest as [|f rest IH]; intros acc Hacc Hs Hrest.
  - cbn. repeat split; try assumption; lia.
  - apply Forall_cons in Hrest as [Hf Hrest].
    destruct (merged_so_far_join acc f Hacc Hf) as [Hacc1 Hlast1].
    pose proof (merged_so_far_last acc Hacc) as Ha.
    destruct (rowptr_ok_inv f Hf) as (r & E & Hne & Hp & Hl & Hlpos & Hle).
    assert (Hs1 : Sorted Z.le (acc ++ map (Z.add (List.last acc 0)) (tail f))).
    { apply StronglySorted_Sorted, StronglySorted_app_2.
      - intros x1 x2 H1 H2. apply list_elem_of_fmap in H2 as (y & -> & Hy).
        pose proof (sorted_le_last acc 0 Hs) as Hle1.
        rewrite Forall_forall in Hle1. specialize (Hle1 x1 H1).
        rewrite E in Hy. cbn [tail] in Hy.
        unfold positive in Hp. rewrite Forall_forall in Hp.
        specialize (Hp y Hy). cbn beta in *. lia.
      - apply Sorted_StronglySorted; [intros x y z; apply Z.le_trans|exact Hs].
      - apply (StronglySorted_fmap (Z.add (List.last acc 0)) Z.le Z.le).
        + intros x y Hxy. lia.
        + destruct Hf as (r0 & E0 & _ & Hsf & _).
          apply Sorted_StronglySorted in Hsf; [|intros x y z; apply Z.le_trans].
          rewrite E0 in Hsf |- *. cbn [tail]. inversion Hsf; assumption. }
    destruct (IH _ Hacc1 Hs1 Hrest) as (H1 & H2 & H3 & H4).
    cbn [join_rowptrs]. split; [exact H1|]. split; [exact H2|]. split.
    + rewrite H3, Hlast1, nnz_of_cons. lia.
    + rewrite H4, length_app, length_map, rows_of_cons, E. cbn [tail length]. lia.
Qed.

Lemma gathered_setup {V : Type} (frags : list (list Z)) (J : list Z) (A : list V)
  (k : nat) :
  Z.of_nat k + 1 < 2147483648 ->
  let s0 := with_z_ind (replicate (Z.to_nat (Int.add (Z.of_nat k) 1)) None)
                       (gathered frags J A) in
  all_I s0 = concat frags /\ length (z_ind s0) = S k.
Proof.
  intros Hk. cbn. split; [reflexivity|].
  rewrite int_add_small by lia. rewrite length_replicate. lia.
Qed.

(** C1 (amended).  For fragments that each hold at least one row, start at
    0, are non-decreasing and have a non-empty first row, and whose sizes
    and totals fit an [int], the merge block of [setA] completes on their
    concatenation; the row pointer handed to the upload is the merge of the
    fragments: non-decreasing, of length [sum(len_i) - (k-1)], ending in
    the sum of the fragments' final values, which is also [local_nnz].  The
    fragments [0,2,5], [0,3], [0,1,4] give [0,2,5,8,9,12]. *)
Theorem merge_rowptr_fragments {V : Type} (frags : list (list Z))
  (J : list Z) (A : list V) :
  frags <> [] -> Forall rowptr_ok frags ->
  Z.of_nat (length (concat frags)) < 2147483648 ->
  nnz_of frags < 2147483648 ->
  (exists s',
     merge_rowptr (Z.of_nat (length frags)) (rows_of frags) (gathered frags J A)
     = Done s' /\
     uploaded_rowptr s' = merged_rowptr frags /\
     Sorted Z.le (uploaded_rowptr s') /\
     Z.of_nat (length (uploaded_rowptr s'))
     = Z.of_nat (length (concat frags)) - (Z.of_nat (length frags) - 1) /\
     List.last (uploaded_rowptr s') 0 = nnz_of frags /\
     local_nnz s' = nnz_of frags) /\
  uploaded_rowptr
    (state_of (merge_rowptr 3 5 (gathered [[0; 2; 5]; [0; 3]; [0; 1; 4]] J A)))
  = [0; 2; 5; 8; 9; 12].
Proof.
  intros Hne Hfrags Hsize Hsum. split; [|reflexivity].
  destruct frags as [|f1 rest]; [contradiction|]. clear Hne.
  pose proof Hfrags as Hfr. apply Forall_cons in Hfr as [Hf1 Hrest].
  pose proof (concat_length_rows _ Hfrags) as Hrows.
  remember (length (f1 :: rest)) as k eqn:Ek.
  assert (Hk1 : (1 <= k)%nat) by (subst k; cbn; lia).
  pose proof (nnz_of_nonneg _ Hfrags) as Hnn0.
  assert (Hr0 : 0 <= rows_of (f1 :: rest)).
  { clear -Hfrags. induction Hfrags as [|f fs Hf _ IH]; [cbn; lia|].
    destruct (rowptr_ok_inv f Hf) as (r & -> & _). rewrite rows_of_cons.
    cbn [length]. lia. }
  assert (Hkmax : Z.of_nat k + 1 < 2147483648).
  { assert (Z.of_nat k <= rows_of (f1 :: rest)); [|lia].
    subst k. clear -Hfrags. induction Hfrags as [|f fs Hf _ IH]; [cbn; lia|].
    destruct (rowptr_ok_inv f Hf) as (r & -> & Hr & _). rewrite rows_of_cons.
    destruct r; [contradiction|]. cbn [length] in *. lia. }
  destruct (gathered_setup (f1 :: rest) J A k Hkmax) as [HI0 Hz0].
  pose proof (rowptr_ok_merged_so_far f1 Hf1) as Hacc1.
  assert (Hs1 : Sorted Z.le f1) by (destruct Hf1 as (r & _ & _ & Hs & _); exact Hs).
  destruct (join_rowptrs_facts rest f1 Hacc1 Hs1 Hrest) as (_ & Hsorted & Hlast & Hlen).
  assert (Hfinish : forall s' : leader_arrays V,
    all_I s' = join_rowptrs f1 rest ++ drop (length (join_rowptrs f1 rest)) (all_I s') ->
    local_rows s' = rows_of (f1 :: rest) ->
    uploaded_rowptr s' = join_rowptrs f1 rest).
  { intros s' HI' Hrows'. unfold uploaded_rowptr. rewrite Hrows', HI'.
    apply take_app_length'. rewrite rows_of_cons. lia. }
  assert (Hprops : forall s' : leader_arrays V,
    uploaded_rowptr s' = join_rowptrs f1 rest ->
    local_nnz s' = nnz_of (f1 :: rest) ->
    uploaded_rowptr s' = merged_rowptr (f1 :: rest) /\
    Sorted Z.le (uploaded_rowptr s') /\
    Z.of_nat (length (uploaded_rowptr s'))
    = Z.of_nat (length (concat (f1 :: rest))) - (Z.of_nat k - 1) /\
    List.last (uploaded_rowptr s') 0 = nnz_of (f1 :: rest) /\
    local_nnz s' = nnz_of (f1 :: rest)).
  { intros s' Hup Hnnz. rewrite Hup. split; [reflexivity|].
    split; [exact Hsorted|]. split.
    - rewrite Hlen, Hrows, rows_of_cons. lia.
    - split; [rewrite Hlast, nnz_of_cons; reflexivity|exact Hnnz]. }
  unfold merge_rowptr.
  destruct rest as [|f2 rest].
  - (* a single process in the device group *)
    subst k. change (Z.of_nat (length [f1])) with 1.
    change (Z.to_nat (Int.sub 1 1 - 1)) with 0%nat.
    cbn [iterate and_then].
    destruct (merge_last_single (rows_of [f1]) f1
                (with_z_ind (replicate (Z.to_nat (Int.add 1 1)) None)
                            (gathered [f1] J A))
                ltac:(cbn; apply app_nil_r) Hf1 eq_refl
                ltac:(cbn [with_z_ind gathered all_I]; exact Hsize))
      as (s' & Hrun & HI' & Hnnz & Hrows').
    exists s'. split; [exact Hrun|]. apply Hprops.
    + apply Hfinish; [|exact Hrows']. cbn [join_rowptrs].
      rewrite HI', drop_all, app_nil_r. reflexivity.
    + rewrite Hnnz. cbn. lia.
  - destruct (@exists_last _ (f2 :: rest) ltac:(discriminate)) as (rest' & fk & Hre).
    rewrite Hre in *.
    assert (Hk : k = (length rest' + 2)%nat).
    { subst k. cbn [length]. rewrite length_app. cbn [length]. lia. }
    apply Forall_app in Hrest as [Hrest' Hfk]. apply Forall_cons in Hfk as [Hfk _].
    rewrite int_sub_small by lia.
    replace (Z.to_nat (Z.of_nat k - 1 - 1)) with (length rest') by lia.
    set (s0 := with_z_ind (replicate (Z.to_nat (Int.add (Z.of_nat k) 1)) None)
                          (gathered (f1 :: rest' ++ [fk]) J A)) in *.
    assert (HIs0 : all_I s0 = f1 ++ concat (rest' ++ [fk]) ++ []).
    { rewrite HI0. cbn [concat]. rewrite app_nil_r. reflexivity. }
    assert (Hlenr : length (rest' ++ [fk]) = S (length rest')).
    { rewrite length_app. cbn [length]. lia. }
    assert (Hrest : Forall rowptr_ok (rest' ++ [fk])).
    { apply Forall_app. split; [exact Hrest'|]. constructor; [exact Hfk|constructor]. }
    destruct (merge_passes_run k (length rest') 1 f1 (rest' ++ [fk]) [] s0
                HIs0 Hlenr Hacc1 Hrest ltac:(constructor) Hz0 ltac:(lia) Hkmax
                ltac:(rewrite HI0; exact Hsize)
                ltac:(rewrite nnz_of_cons in Hsum; exact Hsum))
      as (s1 & Hpasses & HI1 & Hz1).
    rewrite Hpasses. cbn [and_then].
    rewrite take_app_length, drop_app_length in HI1. cbn [concat app] in HI1.
    rewrite app_nil_r in HI1.
    assert (Hg : List.last (all_I s0) 0 = List.last fk 0).
    { rewrite HI0. cbn [concat]. rewrite concat_app. cbn [concat].
      rewrite app_nil_r, !app_assoc.
      apply last_app_nonempty.
      destruct (rowptr_ok_inv fk Hfk) as (r & -> & _). discriminate. }
    rewrite Hg in HI1.
    destruct (join_rowptrs_facts rest' f1 Hacc1 Hs1 Hrest') as (Hacc' & _ & Hlast' & Hlen').
    assert (Hnnz_split : nnz_of (f1 :: rest' ++ [fk])
                         = List.last f1 0 + nnz_of rest' + List.last fk 0).
    { rewrite nnz_of_cons. clear. induction rest' as [|f r IH]; [cbn; lia|].
      cbn [app]. rewrite !nnz_of_cons. lia. }
    assert (Hrows_split : rows_of (f1 :: rest' ++ [fk])
                          = Z.of_nat (length f1) - 1 + rows_of rest'
                            + (Z.of_nat (length fk) - 1)).
    { rewrite rows_of_cons. clear. induction rest' as [|f r IH]; [cbn; lia|].
      cbn [app]. rewrite !rows_of_cons. lia. }
    assert (Hsize1 : Z.of_nat (length (all_I s1)) < 2147483648).
    { rewrite HI1. rewrite length_app, length_app, length_replicate.
      rewrite Hrows, Hrows_split in Hsize. lia. }
    destruct (merge_last_run k (length rest') (rows_of (f1 :: rest' ++ [fk]))
                (join_rowptrs f1 rest') fk s1 HI1 Hacc' Hfk Hk Hz1 Hkmax Hsize1
                ltac:(lia))
      as (s2 & Hlastrun & HI2 & Hnnz & Hrows').
    exists s2. split; [exact Hlastrun|]. apply Hprops.
    + apply Hfinish; [|exact Hrows'].
      rewrite join_rowptrs_app. cbn [join_rowptrs].
      rewrite HI2 at 1. f_equal. rewrite HI2.
      rewrite drop_app_length. reflexivity.
    + rewrite Hnnz, Hlast', Hnnz_split. reflexivity.
Qed.

Ltac solve_sorted :=
  repeat first [apply Sorted_nil | apply Sorted_cons | apply HdRel_nil
               | apply HdRel_cons | lia].

Ltac solve_rowptr_ok :=
  eexists; split; [reflexivity|]; split; [discriminate|];
  split; [solve_sorted | repeat constructor; lia].

Lemma merge_rowptr_fragments_witness :
  Forall rowptr_ok [[0; 2; 5]; [0; 3]; [0; 1; 4]] /\
  exists s' : leader_arrays unit,
    merge_rowptr 3 5 (gathered [[0; 2; 5]; [0; 3]; [0; 1; 4]] [] []) = Done s' /\
    uploaded_rowptr s' = [0; 2; 5; 8; 9; 12] /\
    local_nnz s' = 12.
Proof.
  assert (H1 : [[0; 2; 5]; [0; 3]; [0; 1; 4]] <> []) by discriminate.
  assert (H2 : Forall rowptr_ok [[0; 2; 5]; [0; 3]; [0; 1; 4]]).
  { repeat (constructor; [solve_rowptr_ok|]). constructor. }
  assert (H3 : Z.of_nat (length (concat [[0; 2; 5]; [0; 3]; [0; 1; 4]])) < 2147483648)
    by (cbn; lia).
  assert (H4 : nnz_of [[0; 2; 5]; [0; 3]; [0; 1; 4]] < 2147483648) by (cbn; lia).
  destruct (merge_rowptr_fragments [[0; 2; 5]; [0; 3]; [0; 1; 4]] [] ([] : list unit)
              H1 H2 H3 H4) as [(s' & Hrun & Hup & _ & _ & _ & Hnnz) _].
  split; [exact H2|]. exists s'. split; [exact Hrun|]. split; [exact Hup|exact Hnnz].
Defined.

(** C1 as stated fails.  The fragments [0,0,3] and [0,2] are non-decreasing
    and start at 0, but the first row of the first one is empty: the scan
    takes its second entry for a seam, and the row pointer handed to the
    upload is [0,3,0,2], which is not monotone and does not end in 3 + 2. *)
Lemma merge_rowptr_empty_first_row :
  Forall (fun f => head f = Some 0 /\ Sorted Z.le f) [[0; 0; 3]; [0; 2]] /\
  merge_rowptr (V:=unit) 2 3 (gathered [[0; 0; 3]; [0; 2]] [] [])
  = Done {| all_I := [0; 3; 0; 2; 2]; all_J := []; all_A := [];
            z_ind := [Some 0; Some 0; Some 4]; counter := 3;
            local_nnz := 2; local_rows := 3 |} /\
  uploaded_rowptr
    (state_of (merge_rowptr (V:=unit) 2 3 (gathered [[0; 0; 3]; [0; 2]] [] [])))
  = [0; 3; 0; 2] /\
  ~ Sorted Z.le [0; 3; 0; 2] /\
  List.last [0; 3; 0; 2] 0 <> nnz_of [[0; 0; 3]; [0; 2]].
Proof.
  split.
  { repeat (constructor; [split; [reflexivity|solve_sorted]|]). constructor. }
  split; [vm_compute; reflexivity|]. split; [vm_compute; reflexivity|]. split.
  - intros H. inversion H as [|x l Hl Hh]; subst.
    inversion Hl as [|x l' Hl' Hh']; subst.
    inversion Hh' as [|y l'' Hle]; subst. lia.
  - cbn. lia.
Qed.

(** ** The merge leaves the column and value arrays alone *)

Section Frame.
Context {V : Type}.
Implicit Types s : leader_arrays V.
Implicit Types f g : leader_arrays V -> outcome (leader_arrays V).

Lemma keeps_done : keeps_JA (V:=V) Done.
Proof. intros s. split; reflexivity. Qed.

Lemma keeps_and_then f g :
  keeps_JA f -> keeps_JA g -> keeps_JA (fun s => f s >>> g).
Proof.
  intros Hf Hg s. specialize (Hf s). destruct (f s) as [s1|s1]; cbn in *.
  - destruct (Hg s1) as [HJ HA]. rewrite HJ, HA. exact Hf.
  - exact Hf.
Qed.

Lemma keeps_iterate (body : Z -> leader_arrays V -> outcome (leader_arrays V))
  (n : nat) :
  (forall idx, keeps_JA (body idx)) -> forall idx, keeps_JA (iterate body idx n).
Proof.
  intros Hb. induction n as [|n IH]; intros idx.
  - apply keeps_done.
  - cbn [iterate]. apply (keeps_and_then (body idx) (iterate body (idx + 1) n)).
    + apply Hb.
    + apply IH.
Qed.

Lemma keeps_for_range (body : Z -> leader_arrays V -> outcome (leader_arrays V))
  (lo : Z) (hi : leader_arrays V -> Z) :
  (forall idx, keeps_JA (body idx)) ->
  keeps_JA (fun s => for_range body lo (hi s) s).
Proof. intros Hb s. unfold for_range. apply keeps_iterate, Hb. Qed.

Lemma keeps_write_I (idx : leader_arrays V -> Z) (v : leader_arrays V -> Z) :
  keeps_JA (fun s => write_I (idx s) (v s) s).
Proof.
  intros s. unfold write_I. destruct (Arr.set (all_I s) (idx s) (v s));
    split; reflexivity.
Qed.

Lemma keeps_write_z (i : leader_arrays V -> Z) (v : leader_arrays V -> Z) :
  keeps_JA (fun s => write_z (i s) (v s) s).
Proof.
  intros s. unfold write_z. destruct (Arr.set (z_ind s) (i s) (Some (v s)));
    split; reflexivity.
Qed.

Lemma keeps_note_zero (idx : Z) : keeps_JA (V:=V) (note_zero idx).
Proof.
  intros s. unfold note_zero. destruct (read_I s idx) as [v|]; [|split; reflexivity].
  destruct (v =? 0); [|split; reflexivity].
  apply (keeps_and_then (fun s => write_z (counter s) (Int.sub idx 1) s)
           (fun s1 => Done (with_counter (Int.add (counter s1) 1) s1))).
  - apply keeps_write_z.
  - intros s1. split; reflexivity.
Qed.

Lemma keeps_find_zeros (k : Z) : keeps_JA (V:=V) (find_zeros k).
Proof.
  unfold find_zeros.
  apply (keeps_and_then
           (fun s => write_z 0 0 (with_counter 0 s) >>> _)
           (fun s2 => write_z k (Int.sub (Arr.size (all_I s2)) 1) s2)).
  - apply (keeps_and_then (fun s => write_z 0 0 (with_counter 0 s))).
    + intros s. destruct (keeps_write_z (fun _ => 0) (fun _ => 0) (with_counter 0 s))
        as [HJ HA]. split; [exact HJ|exact HA].
    + intros s1.
      destruct (keeps_for_range note_zero 1
                  (fun s => Int.sub (Arr.size (all_I s)) 1) keeps_note_zero
                  (with_counter (Int.add (counter s1) 1) s1)) as [HJ HA].
      split; [exact HJ|exact HA].
  - apply keeps_write_z.
Qed.

Lemma keeps_bump_at (idx : Z) : keeps_JA (V:=V) (bump_at idx).
Proof.
  intros s. unfold bump_at.
  destruct (read_I s (Int.sub idx 1)) as [a|]; [|split; reflexivity].
  destruct (read_I s (Int.add idx 1)) as [b|]; [|split; reflexivity].
  destruct (read_I s idx) as [c|]; [|split; reflexivity].
  apply (keeps_write_I (fun _ => idx) (fun _ => Int.add a (Int.sub b c))).
Qed.

Lemma keeps_shift_at (idx : Z) : keeps_JA (V:=V) (shift_at idx).
Proof.
  intros s. unfold shift_at.
  destruct (read_I s (Int.add idx 1)) as [b|]; [|split; reflexivity].
  apply (keeps_write_I (fun _ => idx) (fun _ => b)).
Qed.

Lemma keeps_merge_pass (k iter : Z) : keeps_JA (V:=V) (merge_pass k iter).
Proof.
  unfold merge_pass. apply keeps_and_then; [apply keeps_find_zeros|].
  intros s1. destruct (read_z s1 1) as [z1|]; [|split; reflexivity].
  destruct (read_z s1 2) as [z2|]; [|split; reflexivity].
  apply (keeps_and_then (fun s => for_range bump_at (Int.add z1 1) z2 s)
           (fun s2 => for_range shift_at z2 (Int.sub (Arr.size (all_I s2)) 1) s2)).
  - apply (keeps_for_range bump_at (Int.add z1 1) (fun _ => z2)), keeps_bump_at.
  - apply (keeps_for_range shift_at z2), keeps_shift_at.
Qed.

Lemma keeps_merge_last (k n : Z) : keeps_JA (V:=V) (merge_last k n).
Proof.
  unfold merge_last. apply keeps_and_then; [apply keeps_find_zeros|].
  intros s1. destruct (read_z s1 1) as [z1|]; [|split; reflexivity].
  apply (keeps_and_then
           (fun s => for_range bump_at (Int.add z1 1)
                       (Int.sub (Arr.size (all_I s)) 1) s)).
  - apply (keeps_for_range bump_at (Int.add z1 1)), keeps_bump_at.
  - intros s2.
    destruct (read_I s2 (Int.sub (Arr.size (all_I s2)) k)); split; reflexivity.
Qed.

Lemma keeps_merge_rowptr (k n : Z) : keeps_JA (V:=V) (merge_rowptr k n).
Proof.
  intros s. unfold merge_rowptr.
  set (s0 := with_z_ind _ s).
  change (all_J s) with (all_J s0). change (all_A s) with (all_A s0).
  apply (keeps_and_then (iterate (merge_pass k) 1 (Z.to_nat (Int.sub k 1 - 1)))
           (merge_last k n)).
  - apply keeps_iterate. intros idx. apply keeps_merge_pass.
  - apply keeps_merge_last.
Qed.

End Frame.

(** C8. Whatever the leader holds after the gathers, and whether the merge
    block completes or stops at a faulting access, [all_J] and [all_A] are
    what they were: the block stores to [all_I] and [z_ind] only. *)
Theorem setA_merge_frame {V : Type} (myDevWorldRank devWorldSize nDevRows : Z)
  (s : leader_arrays V) :
  all_J (state_of (setA_merge myDevWorldRank devWorldSize nDevRows s)) = all_J s /\
  all_A (state_of (setA_merge myDevWorldRank devWorldSize nDevRows s)) = all_A s.
Proof.
  unfold setA_merge. destruct (myDevWorldRank =? 0).
  - apply keeps_merge_rowptr.
  - split; reflexivity.
Qed.

(** ** Row partition *)

Example rowPart_scenario : build_rowPart 3 [7; 5; 9] = Done [0; 7; 12; 21].
Proof. vm_compute. reflexivity. Qed.

(** ** Exchange *)

Example gather_scatter_run :
  (g1 ← GatherArray 2 [ {| inArr := [1; 2]; outArr := [0; 0; 0]; Apart := [0; 0];
                            Adisp := [0; 0] |};
                         {| inArr := [3]; outArr := []; Apart := [0; 0];
                            Adisp := [0; 0] |} ];
   g2 ← ScatterArray 2 (map turn_around g1);
   Some (map outArr g1, map outArr g2))
  = Some ([[1; 2; 3]; []], [[1; 2]; [3]]).
Proof. vm_compute. reflexivity. Qed.

Lemma store_ok {A : Type} (a : list A) (off : nat) (data : list A) :
  (off + length data <= length a)%nat ->
  Arr.store a (Z.of_nat off) data
  = Some (take off a ++ data ++ drop (off + length data) a).
Proof.
  intros H. unfold Arr.store.
  destruct (Z.leb_spec 0 (Z.of_nat off)); [|lia].
  destruct (Z.leb_spec (Z.of_nat off + Z.of_nat (length data)) (Z.of_nat (length a)));
    [|lia].
  cbn [andb]. rewrite Nat2Z.id. reflexivity.
Qed.

Lemma slice_ok {A : Type} (a : list A) (off n : nat) :
  (off + n <= length a)%nat ->
  Arr.slice a (Z.of_nat off) (Z.of_nat n) = Some (take n (drop off a)).
Proof.
  intros H. unfold Arr.slice.
  destruct (Z.leb_spec 0 (Z.of_nat off)); [|lia].
  destruct (Z.leb_spec 0 (Z.of_nat n)); [|lia].
  destruct (Z.leb_spec (Z.of_nat off + Z.of_nat n) (Z.of_nat (length a))); [|lia].
  cbn [andb]. rewrite !Nat2Z.id. reflexivity.
Qed.

Lemma int_add64_small (a b : Z) :
  -9223372036854775808 <= a + b < 9223372036854775808 -> Int.add64 a b = a + b.
Proof.
  intros H. apply wrap64_small. unfold Int.in_range.
  change (2 ^ (64 - 1)) with 9223372036854775808. lia.
Qed.

Lemma sum_list_nonneg (l : list Z) : Forall (fun c => 0 <= c) l -> 0 <= sum_list l.
Proof.
  induction 1 as [|c l Hc _ IH]; [cbn; lia|].
  unfold sum_list in *. cbn [foldr]. lia.
Qed.

Lemma add_previous_run (cs : list Z) :
  forall (pre : list Z) (p : Z) (arr : list Z),
    arr = pre ++ p :: cs ->
    Z.of_nat (length arr) < 2147483648 ->
    0 <= p -> Forall (fun c => 0 <= c) cs ->
    p + sum_list cs < 9223372036854775808 ->
    iterate add_previous (Z.of_nat (length pre) + 1) (length cs) arr
    = Done (pre ++ offsets_from p cs).
Proof.
  induction cs as [|c cs IH]; intros pre p arr -> Hsize Hp Hcs Hsum.
  - reflexivity.
  - apply Forall_cons in Hcs as [Hc Hcs]. cbn [sum_list foldr] in Hsum.
    fold (sum_list cs) in Hsum. pose proof (sum_list_nonneg cs Hcs) as Hnn.
    rewrite length_app in Hsize. cbn [length] in Hsize.
    cbn [length iterate]. unfold add_previous at 1.
    rewrite int_sub_small by lia.
    rewrite (get_middle (pre ++ p :: c :: cs) (pre ++ [p]) c cs)
      by (rewrite ?length_app; cbn; first [rewrite <- app_assoc; reflexivity | lia]).
    rewrite (get_middle (pre ++ p :: c :: cs) pre p (c :: cs)) by first [reflexivity | lia].
    rewrite int_add64_small by lia.
    rewrite (set_middle (pre ++ p :: c :: cs) (pre ++ [p]) c (c + p) cs)
      by (rewrite ?length_app; cbn; first [rewrite <- app_assoc; reflexivity | lia]).
    cbn [and_then].
    replace (Z.of_nat (length pre) + 1 + 1)
      with (Z.of_nat (length (pre ++ [p])) + 1)
      by (rewrite length_app; cbn; lia).
    rewrite (IH (pre ++ [p]) (c + p) ((pre ++ [p]) ++ c + p :: cs) eq_refl);
      try first [assumption | lia].
    + cbn [offsets_from]. rewrite <- app_assoc. cbn [app].
      rewrite (Z.add_comm p c). reflexivity.
    + rewrite !length_app. cbn [length]. lia.
Qed.

Lemma offsets_from_facts (cs : list Z) :
  forall p : Z,
    Forall (fun c => 0 <= c) cs ->
    Sorted Z.le (offsets_from p cs) /\
    List.last (offsets_from p cs) 0 = p + sum_list cs /\
    length (offsets_from p cs) = S (length cs).
Proof.
  induction cs as [|c cs IH]; intros p Hcs.
  - cbn. split; [repeat constructor|]. split; [lia|reflexivity].
  - apply Forall_cons in Hcs as [Hc Hcs].
    destruct (IH (p + c) Hcs) as (Hs & Hl & Hn).
    cbn [offsets_from]. split; [|split].
    + constructor; [exact Hs|]. destruct cs; cbn [offsets_from]; constructor; lia.
    + destruct (offsets_from (p + c) cs) as [|y l] eqn:E; [discriminate|].
      change (List.last (p :: y :: l) 0) with (List.last (y :: l) 0).
      rewrite Hl. unfold sum_list. cbn [foldr]. lia.
    + cbn [length]. rewrite Hn. reflexivity.
Qed.

(** C4. For the row counts of the processes of [gpuWorld] (none negative,
    their sum within [int64_t]), the table built in [setA] is the running
    sum after a leading zero: it starts at 0, is non-decreasing, has one
    entry more than there are processes and ends in the sum of the counts.
    The counts [7,5,9] give [0,7,12,21]. *)
Theorem rowPart_prefix_sums (rows : list Z) :
  Forall (fun c => 0 <= c) rows ->
  sum_list rows < 9223372036854775808 ->
  Z.of_nat (length rows) + 1 < 2147483648 ->
  (exists rowPart,
     build_rowPart (Z.of_nat (length rows)) rows = Done rowPart /\
     rowPart = offsets_from 0 rows /\
     head rowPart = Some 0 /\
     Sorted Z.le rowPart /\
     length rowPart = S (length rows) /\
     List.last rowPart 0 = sum_list rows) /\
  build_rowPart 3 [7; 5; 9] = Done [0; 7; 12; 21].
Proof.
  intros Hrows Hsum Hn. split; [|reflexivity].
  destruct (offsets_from_facts rows 0 Hrows) as (Hs & Hl & Hlen).
  exists (offsets_from 0 rows). split; [|split; [reflexivity|]].
  - unfold build_rowPart. rewrite int_add_small by lia.
    replace (Z.to_nat (Z.of_nat (length rows) + 1)) with (S (length rows)) by lia.
    change 1 with (Z.of_nat 1) at 1.
    rewrite store_ok by (rewrite length_replicate; lia).
    cbn [replicate take Nat.add drop].
    rewrite drop_ge by (rewrite length_replicate; lia).
    rewrite take_0, app_nil_r. cbn [app].
    unfold for_range, Arr.size. cbn [length].
    replace (Z.to_nat (Z.of_nat (S (length rows)) - 1)) with (length rows) by lia.
    apply (add_previous_run rows [] 0); try first [reflexivity | assumption | lia].
    cbn [app length]. lia.
  - split; [destruct rows; reflexivity|]. split; [exact Hs|].
    split; [exact Hlen|]. rewrite Hl. lia.
Qed.

Lemma rowPart_prefix_sums_witness :
  Forall (fun c => 0 <= c) [4; 0; 6] /\
  exists rowPart,
    build_rowPart 3 [4; 0; 6] = Done rowPart /\
    rowPart = [0; 4; 4; 10] /\ List.last rowPart 0 = 10.
Proof.
  assert (H1 : Forall (fun c => 0 <= c) [4; 0; 6]) by (repeat constructor; lia).
  assert (H2 : sum_list [4; 0; 6] < 9223372036854775808) by (cbn; lia).
  assert (H3 : Z.of_nat (length [4; 0; 6]) + 1 < 2147483648) by (cbn; lia).
  destruct (rowPart_prefix_sums [4; 0; 6] H1 H2 H3)
    as [(rowPart & Hrun & Heq & _ & _ & _ & Hlast) _].
  split; [exact H1|]. exists rowPart.
  split; [exact Hrun|]. split; [exact Heq|exact Hlast].
Defined.

(** *** Descriptors *)

Lemma mapM_pointwise {A B : Type} (f : A -> option B) (h : A -> B) (l : list A) :
  Forall (fun x => f x = Some (h x)) l -> mapM f l = Some (map h l).
Proof.
  induction 1 as [|x l Hx _ IH]; [reflexivity|].
  cbn [mapM map]. rewrite Hx, IH. reflexivity.
Qed.

Lemma offsets_from_lookup (cs : list Z) :
  forall (p : Z) (i : nat),
    (i <= length cs)%nat ->
    offsets_from p cs !! i = Some (p + sum_list (take i cs)).
Proof.
  induction cs as [|c cs IH]; intros p i Hi.
  - cbn [length] in Hi. replace i with 0%nat by lia. cbn. f_equal. lia.
  - destruct i as [|i].
    + cbn. f_equal. lia.
    + cbn [offsets_from lookup list_lookup take]. cbn [length] in Hi.
      change ((p :: offsets_from (p + c) cs) !! S i) with (offsets_from (p + c) cs !! i).
      rewrite IH by lia. unfold sum_list. cbn [foldr]. f_equal. lia.
Qed.

Lemma sum_list_app (l1 l2 : list Z) :
  sum_list (l1 ++ l2) = sum_list l1 + sum_list l2.
Proof.
  induction l1 as [|x l1 IH]; [reflexivity|].
  unfold sum_list in *. cbn [app foldr]. lia.
Qed.

Lemma sum_sizes_concat {A : Type} (xs : list (list A)) :
  sum_list (map (fun x => Z.of_nat (length x)) xs) = Z.of_nat (length (concat xs)).
Proof.
  induction xs as [|x xs IH]; [reflexivity|].
  cbn [map concat]. rewrite length_app. unfold sum_list in *. cbn [foldr]. lia.
Qed.

Section Strides.
Context {V : Type}.
Implicit Types r : xfer V.

Lemma next_disp_run (junk : list Z) :
  forall (pre : list Z) (d : Z) (sdone srest : list Z) r,
    Adisp r = pre ++ d :: junk ->
    Apart r = sdone ++ srest ->
    length pre = length sdone ->
    length srest = S (length junk) ->
    Z.of_nat (length (Adisp r)) < 2147483648 ->
    0 <= d -> Forall (fun c => 0 <= c) srest ->
    d + sum_list srest < 2147483648 ->
    iterate next_disp (Z.of_nat (length pre) + 1) (length junk) r
    = Done (with_Adisp (pre ++ take (S (length junk)) (offsets_from d srest)) r).
Proof.
  induction junk as [|j junk IH]; intros pre d sdone srest r HA HP Hpre Hrest Hsize
    Hd Hnn Hsum.
  - cbn [length iterate take]. destruct srest as [|s1 srest]; [discriminate|].
    change (take 1 (offsets_from d (s1 :: srest))) with [d].
    rewrite <- HA. destruct r; reflexivity.
  - destruct srest as [|s1 srest]; [discriminate|].
    apply Forall_cons in Hnn as [Hs1 Hnn].
    pose proof (sum_list_nonneg srest Hnn) as Hnn'.
    unfold sum_list in Hsum. cbn [foldr] in Hsum. fold (sum_list srest) in Hsum.
    assert (Hlen : Z.of_nat (length (Adisp r))
                   = Z.of_nat (length pre) + 2 + Z.of_nat (length junk)).
    { rewrite HA, length_app. cbn [length]. lia. }
    cbn [length iterate]. unfold next_disp at 1.
    rewrite int_sub_small by lia.
    rewrite (get_middle (Adisp r) pre d (j :: junk)) by first [exact HA | lia].
    rewrite (get_middle (Apart r) sdone s1 srest) by first [exact HP | lia].
    rewrite int_add_small by lia.
    rewrite (set_middle (Adisp r) (pre ++ [d]) j (d + s1) junk)
      by (rewrite ?length_app; cbn; first [rewrite HA, <- app_assoc; reflexivity | lia]).
    cbn [and_then].
    replace (Z.of_nat (length pre) + 1 + 1)
      with (Z.of_nat (length (pre ++ [d])) + 1)
      by (rewrite length_app; cbn; lia).
    rewrite (IH (pre ++ [d]) (d + s1) (sdone ++ [s1]) srest);
      try first [assumption | reflexivity | lia].
    + cbn [with_Adisp Adisp].
      change (take (S (S (length junk))) (offsets_from d (s1 :: srest)))
        with (d :: take (S (length junk)) (offsets_from (d + s1) srest)).
      rewrite <- app_assoc. cbn [app]. destruct r; reflexivity.
    + cbn [with_Adisp Apart]. rewrite HP, <- app_assoc. reflexivity.
    + rewrite !length_app. cbn [length]. lia.
    + cbn [length] in Hrest. lia.
    + cbn [with_Adisp Adisp]. rewrite !length_app. cbn [length]. lia.
Qed.

Lemma strides_run (n : nat) (sizes : list Z) r :
  Apart r = sizes -> length sizes = n -> length (Adisp r) = n -> (1 <= n)%nat ->
  Forall (fun c => 0 <= c) sizes -> sum_list sizes < 2147483648 ->
  Z.of_nat n < 2147483648 ->
  strides (Z.of_nat n) r = Done (with_Adisp (take n (offsets_from 0 sizes)) r).
Proof.
  intros HP Hsz HA Hn Hnn Hsum Hmax. unfold strides.
  destruct (Adisp r) as [|d0 junk] eqn:E; [cbn in HA; lia|].
  cbn [length] in HA.
  rewrite (set_middle (d0 :: junk) [] d0 0 junk) by reflexivity.
  unfold for_range.
  replace (Z.to_nat (Z.of_nat n - 1)) with (length junk) by lia.
  rewrite (next_disp_run junk [] 0 [] sizes);
    try first [assumption | reflexivity | lia].
  - cbn [with_Adisp Adisp Apart app inArr outArr]. rewrite HA. reflexivity.
  - cbn [with_Adisp Adisp length app]. lia.
Qed.

End Strides.

(** *** Gather and scatter *)

Section GatherScatter.
Context {V : Type}.
Implicit Types r : xfer V.
Implicit Types xs done todo : list (list V).

Lemma describes_offsets xs :
  describes (map (fun x => Z.of_nat (length x)) xs)
            (take (length xs)
                  (offsets_from 0 (map (fun x => Z.of_nat (length x)) xs)))
            xs.
Proof.
  split; [reflexivity|]. intros i Hi.
  rewrite lookup_take_lt by exact Hi.
  rewrite offsets_from_lookup by (rewrite length_map; lia).
  rewrite <- fmap_take. f_equal. rewrite Z.add_0_l.
  exact (sum_sizes_concat (take i xs)).
Qed.

Lemma describes_at sizes displs done (x : list V) todo :
  describes sizes displs (done ++ x :: todo) ->
  sizes !! length done = Some (Z.of_nat (length x)) /\
  displs !! length done = Some (Z.of_nat (length (concat done))).
Proof.
  intros [-> Hd]. split.
  - rewrite list_lookup_fmap, list_lookup_middle by reflexivity. reflexivity.
  - rewrite Hd by (rewrite length_app; cbn; lia).
    rewrite take_app_length. reflexivity.
Qed.

Lemma gatherv_recv_run todo :
  forall done (rest_buf : list V) (sizes displs : list Z),
    describes sizes displs (done ++ todo) ->
    (length (concat todo) <= length rest_buf)%nat ->
    gatherv_recv (concat done ++ rest_buf) sizes displs (length done) todo
    = Some (concat (done ++ todo) ++ drop (length (concat todo)) rest_buf).
Proof.
  induction todo as [|x todo IH]; intros done rest_buf sizes displs Hdesc Hfit.
  - cbn. rewrite app_nil_r. reflexivity.
  - destruct (describes_at _ _ _ _ _ Hdesc) as [Hs Hd].
    cbn [concat] in Hfit. rewrite length_app in Hfit.
    cbn [gatherv_recv]. rewrite Hs, Hd. cbn [mbind option_bind].
    unfold Arr.size. rewrite Z.eqb_refl.
    rewrite store_ok by (rewrite length_app; lia).
    rewrite take_app_length.
    rewrite drop_app_ge by lia.
    replace (length (concat done) + length x - length (concat done))%nat
      with (length x) by lia.
    cbn [mbind option_bind].
    replace (concat done ++ x ++ drop (length x) rest_buf)
      with (concat (done ++ [x]) ++ drop (length x) rest_buf)
      by (rewrite concat_app; cbn [concat]; rewrite app_nil_r, <- app_assoc;
          reflexivity).
    replace (S (length done)) with (length (done ++ [x]))
      by (rewrite length_app; cbn; lia).
    rewrite IH.
    + rewrite <- app_assoc. cbn [app]. rewrite drop_drop. cbn [concat].
      rewrite length_app. reflexivity.
    + rewrite <- app_assoc. exact Hdesc.
    + rewrite length_drop. lia.
Qed.

Lemma scatterv_all_run (todo_g : list (xfer V)) :
  forall done todo (junk : list V) (sizes displs : list Z),
    describes sizes displs (done ++ todo) ->
    Forall2 (fun r x => length (outArr r) = length x) todo_g todo ->
    exists got,
      scatterv_all (concat (done ++ todo) ++ junk) sizes displs (length done) todo_g
      = Some got /\
      map outArr got = todo /\
      map inArr got = map inArr todo_g.
Proof.
  induction todo_g as [|r todo_g IH]; intros done todo junk sizes displs Hdesc Hall.
  - inversion Hall; subst. exists []. auto.
  - inversion Hall as [|r' x todo_g' todo' Hlen Hall']; subst.
    destruct (describes_at _ _ _ _ _ Hdesc) as [Hs Hd].
    destruct (IH (done ++ [x]) todo' junk sizes displs) as (got & Hrun & Hout & Hin).
    { rewrite <- app_assoc. exact Hdesc. }
    { exact Hall'. }
    cbn [scatterv_all]. unfold scatterv_recv. rewrite Hs, Hd.
    cbn [mbind option_bind]. unfold Arr.size. rewrite Hlen.
    destruct (Z.leb_spec (Z.of_nat (length x)) (Z.of_nat (length x))); [|lia].
    rewrite slice_ok
      by (rewrite concat_app; cbn [concat];
          repeat first [rewrite length_app | progress cbn [length]]; lia).
    rewrite concat_app. cbn [concat]. rewrite <- !app_assoc.
    rewrite drop_app_length, take_app_length.
    cbn [mbind option_bind].
    change 0 with (Z.of_nat 0). rewrite store_ok by (cbn; lia).
    cbn [take Nat.add app]. rewrite drop_ge by lia. rewrite app_nil_r.
    cbn [mbind option_bind].
    replace (S (length done)) with (length (done ++ [x]))
      by (rewrite length_app; cbn; lia).
    replace (concat done ++ x ++ concat todo' ++ junk)
      with (concat ((done ++ [x]) ++ todo') ++ junk)
      by (rewrite !concat_app; cbn [concat]; rewrite app_nil_r, <- !app_assoc;
          reflexivity).
    rewrite Hrun. cbn [mbind option_bind].
    eexists. split; [reflexivity|]. cbn [map with_outArr outArr inArr].
    rewrite Hout, Hin. split; reflexivity.
Qed.

End GatherScatter.

Section RoundTrip.
Context {V : Type}.
Implicit Types r : xfer V.

(** What [GatherArray] leaves on the group [root :: others]: the
    descriptor on every process, the flat buffer on the root. *)
Lemma GatherArray_run (root : xfer V) (others : list (xfer V)) :
  let g := root :: others in
  let xs := map inArr g in
  let sizes := map (fun x : list V => Z.of_nat (length x)) xs in
  let displs := take (length g) (offsets_from 0 sizes) in
  Forall (fun r => length (Apart r) = length g /\ length (Adisp r) = length g) g ->
  (length (concat xs) <= length (outArr root))%nat ->
  Z.of_nat (length (concat xs)) < 2147483648 ->
  Z.of_nat (length g) < 2147483648 ->
  GatherArray (Z.of_nat (length g)) g
  = Some ({| inArr := inArr root;
             outArr := concat xs ++ drop (length (concat xs)) (outArr root);
             Apart := sizes; Adisp := displs |}
          :: map (fun r => {| inArr := inArr r; outArr := outArr r;
                              Apart := sizes; Adisp := displs |}) others).
Proof.
  intros g xs sizes displs Hlens Hfit Hsum Hn.
  assert (Hsizes : map (fun r => Arr.size (inArr r)) g = sizes).
  { subst sizes xs. rewrite map_map. reflexivity. }
  assert (Hsl : length sizes = length g).
  { subst sizes xs. rewrite !length_map. reflexivity. }
  assert (Hnn : Forall (fun c => 0 <= c) sizes).
  { subst sizes. apply Forall_forall. intros c Hc.
    apply list_elem_of_fmap in Hc as (x & -> & _). lia. }
  assert (Hss : sum_list sizes < 2147483648).
  { subst sizes. rewrite sum_sizes_concat. exact Hsum. }
  unfold GatherArray, MPI_Allgather_sizes. rewrite Hsizes.
  rewrite (mapM_pointwise _ (with_Apart sizes)).
  2:{ eapply Forall_impl; [exact Hlens|]. intros r [HA _]. cbn beta.
      change 0 with (Z.of_nat 0). rewrite store_ok by (cbn [Nat.add]; lia).
      cbn [take Nat.add app]. rewrite drop_ge by lia. rewrite app_nil_r.
      reflexivity. }
  cbn [mbind option_bind].
  rewrite (mapM_pointwise _ (fun r => with_Adisp displs r)).
  2:{ apply Forall_fmap. eapply Forall_impl; [exact Hlens|]. intros r [_ HD].
      unfold compose.
      rewrite (strides_run (length g) sizes);
        try first [assumption | reflexivity | (subst g; cbn [length]; lia)]. }
  cbn [mbind option_bind]. subst g.
  unfold MPI_Gatherv. cbn [map with_Apart with_Adisp outArr Apart Adisp inArr].
  rewrite !map_map. cbn [with_Adisp with_Apart inArr].
  change (inArr root :: map (fun x => inArr x) others) with xs.
  assert (Hdesc : describes sizes displs ([] ++ xs)).
  { pose proof (describes_offsets xs) as H. subst displs sizes.
    replace (length xs) with (length (root :: others)) in H
      by (subst xs; rewrite length_map; reflexivity).
    exact H. }
  pose proof (gatherv_recv_run xs [] (outArr root) sizes displs Hdesc) as Hrecv.
  cbn [app concat length] in Hrecv.
  rewrite (Hrecv Hfit). reflexivity.
Qed.

Lemma scatter_into_sizes (h : xfer V -> xfer V) (g : list (xfer V)) :
  forall dests : list (list V),
    Forall2 (fun r d => length d = length (inArr r)) g dests ->
    Forall2 (fun r x => length (outArr r) = length x)
            (zip_with scatter_into dests (map h g)) (map inArr g).
Proof.
  induction g as [|r g IH]; intros dests H; inversion H as [|r0 d l ds Hd Hrest]; subst.
  - constructor.
  - cbn [map zip_with]. constructor; [exact Hd|apply IH, Hrest].
Qed.

(** C6. On a group whose processes hold descriptor arrays of the group's
    size, and whose root has room for all the elements, [GatherArray]
    followed by [ScatterArray] with the same descriptor completes and gives
    every process the sub-array it contributed, whatever the arrays the
    scatter receives into held before (they are of the sizes of the
    sub-arrays); the descriptor holds the length of each sub-array and the
    running sum of the lengths before it, and the root's buffer starts with
    the sub-arrays in rank order. *)
Theorem gather_scatter_round_trip (root : xfer V) (others : list (xfer V))
  (dests : list (list V)) :
  Forall (fun r => length (Apart r) = S (length others) /\
                   length (Adisp r) = S (length others)) (root :: others) ->
  (length (concat (map inArr (root :: others))) <= length (outArr root))%nat ->
  Z.of_nat (length (concat (map inArr (root :: others)))) < 2147483648 ->
  Z.of_nat (S (length others)) < 2147483648 ->
  Forall2 (fun r d => length d = length (inArr r)) (root :: others) dests ->
  exists g1 g2,
    GatherArray (Z.of_nat (S (length others))) (root :: others) = Some g1 /\
    ScatterArray (Z.of_nat (S (length others))) (zip_with scatter_into dests g1)
    = Some g2 /\
    map outArr g2 = map inArr (root :: others) /\
    Forall (fun r => describes (Apart r) (Adisp r) (map inArr (root :: others))) g1 /\
    (exists tail_buf,
       head (map outArr g1)
       = Some (concat (map inArr (root :: others)) ++ tail_buf)).
Proof.
  intros Hlens Hfit Hsum Hn Hdests.
  pose proof (GatherArray_run root others Hlens Hfit Hsum Hn) as Hg.
  cbn zeta in Hg. cbn [length] in Hg.
  set (xs := map inArr (root :: others)) in *.
  set (sizes := map (fun x : list V => Z.of_nat (length x)) xs) in *.
  set (displs := take (S (length others)) (offsets_from 0 sizes)) in *.
  assert (Hdesc : describes sizes displs xs).
  { pose proof (describes_offsets xs) as H. subst displs sizes.
    replace (length xs) with (S (length others)) in H
      by (subst xs; cbn [map length]; rewrite length_map; reflexivity).
    exact H. }
  inversion Hdests as [|r0 d0 l ds Hd0 Hds]; subst r0 l dests.
  set (h := fun r : xfer V => {| inArr := inArr r; outArr := outArr r;
                                 Apart := sizes; Adisp := displs |}) in *.
  set (root1 := {| inArr := inArr root;
                   outArr := concat xs ++ drop (length (concat xs)) (outArr root);
                   Apart := sizes; Adisp := displs |}) in *.
  destruct (scatterv_all_run
              (scatter_into d0 root1 :: zip_with scatter_into ds (map h others))
              [] xs (drop (length (concat xs)) (outArr root)) sizes displs Hdesc)
    as (got & Hrun & Hout & Hin).
  { subst xs. cbn [map]. constructor; [exact Hd0|].
    apply scatter_into_sizes, Hds. }
  cbn [app length] in Hrun.
  eexists. exists got. split; [exact Hg|]. split; [|split; [|split]].
  - unfold ScatterArray, MPI_Scatterv. cbn [zip_with].
    cbn [scatter_into inArr Apart Adisp]. exact Hrun.
  - exact Hout.
  - constructor; [exact Hdesc|]. apply Forall_fmap, Forall_forall.
    intros r _. exact Hdesc.
  - eexists. reflexivity.
Qed.

End RoundTrip.

(** ** finalize *)

Example finalize_leader_run :
  Lifecycle.finalize (-32766)
    ({| Lifecycle.isInitialized := true; Lifecycle.gpuProc := 0;
        Lifecycle.globalCpuWorld := Lifecycle.Comm 1;
        Lifecycle.localCpuWorld := Lifecycle.Comm 2;
        Lifecycle.devWorld := Lifecycle.Comm 3;
        Lifecycle.gpuWorld := Lifecycle.Comm 4;
        Lifecycle.solver := 10; Lifecycle.AmgXA := 11; Lifecycle.AmgXP := 12;
        Lifecycle.AmgXRHS := 13; Lifecycle.cfg := 14 |},
     {| Lifecycle.count := 1; Lifecycle.rsrc := 20; Lifecycle.stdout := [];
        Lifecycle.calls := [] |})
  = ({| Lifecycle.isInitialized := false; Lifecycle.gpuProc := -32766;
        Lifecycle.globalCpuWorld := Lifecycle.MPI_COMM_NULL;
        Lifecycle.localCpuWorld := Lifecycle.MPI_COMM_NULL;
        Lifecycle.devWorld := Lifecycle.MPI_COMM_NULL;
        Lifecycle.gpuWorld := Lifecycle.Comm 4;
        Lifecycle.solver := 10; Lifecycle.AmgXA := 11; Lifecycle.AmgXP := 12;
        Lifecycle.AmgXRHS := 13; Lifecycle.cfg := 14 |},
     {| Lifecycle.count := 0; Lifecycle.rsrc := 20; Lifecycle.stdout := [];
        Lifecycle.calls :=
          [Lifecycle.AMGX_solver_destroy 10; Lifecycle.AMGX_matrix_destroy 11;
           Lifecycle.AMGX_vector_destroy 12; Lifecycle.AMGX_vector_destroy 13;
           Lifecycle.AMGX_resources_destroy 20; Lifecycle.AMGX_config_destroy 14;
           Lifecycle.AMGX_finalize_plugins; Lifecycle.AMGX_finalize;
           Lifecycle.MPI_Comm_free (Lifecycle.Comm 1);
           Lifecycle.MPI_Comm_free (Lifecycle.Comm 2);
           Lifecycle.MPI_Comm_free (Lifecycle.Comm 3)] |}).
Proof. vm_compute. reflexivity. Qed.

(** C7 (amended).  [finalize] frees the global, the node-local and the
    device-group communicator, in this order, and leaves the three handles
    null; it resets [gpuProc] to [MPI_UNDEFINED] and [isInitialized] to
    false, so that [initialize] accepts the instance again.  The
    solve-participant communicator [gpuWorld] is neither freed nor reset. *)
Theorem finalize_teardown (MPI_UNDEFINED : Z) (i : Lifecycle.instance)
  (p : Lifecycle.process) :
  let i' := fst (Lifecycle.finalize MPI_UNDEFINED (i, p)) in
  let p' := snd (Lifecycle.finalize MPI_UNDEFINED (i, p)) in
  Lifecycle.freed (Lifecycle.calls p')
  = Lifecycle.freed (Lifecycle.calls p)
    ++ [Lifecycle.globalCpuWorld i; Lifecycle.localCpuWorld i; Lifecycle.devWorld i] /\
  Lifecycle.globalCpuWorld i' = Lifecycle.MPI_COMM_NULL /\
  Lifecycle.localCpuWorld i' = Lifecycle.MPI_COMM_NULL /\
  Lifecycle.devWorld i' = Lifecycle.MPI_COMM_NULL /\
  Lifecycle.gpuWorld i' = Lifecycle.gpuWorld i /\
  Lifecycle.gpuProc i' = MPI_UNDEFINED /\
  Lifecycle.isInitialized i' = false.
Proof.
  cbn zeta. unfold Lifecycle.finalize. cbn [fst snd].
  split; [|repeat split].
  cbn [Lifecycle.set_count Lifecycle.calls Lifecycle.do_calls].
  unfold Lifecycle.freed. rewrite omap_app. f_equal.
  destruct (negb (Lifecycle.isInitialized i)), (Lifecycle.gpuProc i =? 0);
    cbn [Lifecycle.print Lifecycle.do_calls Lifecycle.calls Lifecycle.count];
    try reflexivity;
    destruct (Lifecycle.count p =? 1);
    cbn [Lifecycle.do_calls Lifecycle.calls];
    rewrite !omap_app; cbn [omap]; rewrite !app_nil_r; reflexivity.
Qed.

(** C7 as stated fails: on an initialized leader that is the last live
    instance, [finalize] frees three communicators; [gpuWorld] keeps its
    handle and is not among them. *)
Lemma finalize_keeps_gpuWorld :
  let i := {| Lifecycle.isInitialized := true; Lifecycle.gpuProc := 0;
              Lifecycle.globalCpuWorld := Lifecycle.Comm 1;
              Lifecycle.localCpuWorld := Lifecycle.Comm 2;
              Lifecycle.devWorld := Lifecycle.Comm 3;
              Lifecycle.gpuWorld := Lifecycle.Comm 4;
              Lifecycle.solver := 10; Lifecycle.AmgXA := 11;
              Lifecycle.AmgXP := 12; Lifecycle.AmgXRHS := 13;
              Lifecycle.cfg := 14 |} in
  let p := {| Lifecycle.count := 1; Lifecycle.rsrc := 20;
              Lifecycle.stdout := []; Lifecycle.calls := [] |} in
  Lifecycle.gpuWorld (fst (Lifecycle.finalize (-32766) (i, p))) = Lifecycle.Comm 4 /\
  Lifecycle.freed (Lifecycle.calls (snd (Lifecycle.finalize (-32766) (i, p))))
  = [Lifecycle.Comm 1; Lifecycle.Comm 2; Lifecycle.Comm 3] /\
  ~ In (Lifecycle.Comm 4)
       (Lifecycle.freed (Lifecycle.calls (snd (Lifecycle.finalize (-32766) (i, p))))).
Proof.
  cbn zeta. split; [reflexivity|]. split; [reflexivity|].
  vm_compute. intros [H|[H|[H|[]]]]; discriminate.
Qed.

(** C3 fails on the code.  The instance below has been finalized once
    ([isInitialized] false, [gpuProc] at [MPI_UNDEFINED], null
    communicators) while another instance is alive ([count] is 1).
    [finalize] prints the diagnostic and goes on: it calls [MPI_Comm_free]
    three times and takes [count] down to 0. *)
Lemma finalize_uninitialized_goes_on :
  let i := {| Lifecycle.isInitialized := false; Lifecycle.gpuProc := -32766;
              Lifecycle.globalCpuWorld := Lifecycle.MPI_COMM_NULL;
              Lifecycle.localCpuWorld := Lifecycle.MPI_COMM_NULL;
              Lifecycle.devWorld := Lifecycle.MPI_COMM_NULL;
              Lifecycle.gpuWorld := Lifecycle.Comm 4;
              Lifecycle.solver := 10; Lifecycle.AmgXA := 11;
              Lifecycle.AmgXP := 12; Lifecycle.AmgXRHS := 13;
              Lifecycle.cfg := 14 |} in
  let p := {| Lifecycle.count := 1; Lifecycle.rsrc := 20;
              Lifecycle.stdout := []; Lifecycle.calls := [] |} in
  Lifecycle.finalize (-32766) (i, p)
  = (i,
     {| Lifecycle.count := 0; Lifecycle.rsrc := 20;
        Lifecycle.stdout := [MsgNotInitialized];
        Lifecycle.calls :=
          [Lifecycle.MPI_Comm_free Lifecycle.MPI_COMM_NULL;
           Lifecycle.MPI_Comm_free Lifecycle.MPI_COMM_NULL;
           Lifecycle.MPI_Comm_free Lifecycle.MPI_COMM_NULL] |}).
Proof. cbn zeta. vm_compute. reflexivity. Qed.

(** ** solve *)

Lemma iterate_invariant {S : Type} (P : S -> Prop) (body : Z -> S -> outcome S) :
  (forall idx s s', P s -> body idx s = Done s' -> P s') ->
  forall (n : nat) (idx : Z) (s s' : S),
    P s -> iterate body idx n s = Done s' -> P s'.
Proof.
  intros Hb. induction n as [|n IH]; intros idx s s' HP Hrun.
  - cbn in Hrun. injection Hrun as <-. exact HP.
  - cbn [iterate] in Hrun. destruct (body idx s) as [s1|s1] eqn:E; [|discriminate].
    cbn [and_then] in Hrun. eapply IH; [|exact Hrun]. eapply Hb; [exact HP|exact E].
Qed.

Section ExchangeKeeps.
Context {V : Type}.
Implicit Types r : xfer V.

Lemma strides_inArr (n : Z) r r' :
  completed (strides n r) = Some r' -> same_inArr r r'.
Proof.
  unfold strides. destruct (Arr.set (Adisp r) 0 0) as [a|]; [|discriminate].
  unfold for_range.
  destruct (iterate next_disp 1 (Z.to_nat (n - 1)) (with_Adisp a r)) as [s|s] eqn:E;
    [|discriminate].
  cbn [completed]. intros H. injection H as <-.
  refine (iterate_invariant (fun s => inArr s = inArr r) next_disp _ _ _ _ _ _ E);
    [|reflexivity].
  intros idx s0 s' HP. unfold next_disp.
  destruct (Arr.get (Adisp s0) (Int.sub idx 1)); [|discriminate].
  destruct (Arr.get (Apart s0) (Int.sub idx 1)); [|discriminate].
  destruct (Arr.set (Adisp s0) idx _); [|discriminate].
  intros H. injection H as <-. exact HP.
Qed.

Lemma GatherArray_keeps (n : Z) (g g' : list (xfer V)) :
  GatherArray n g = Some g' -> Forall2 same_inArr g g'.
Proof.
  unfold GatherArray. intros H.
  apply bind_Some in H as (g1 & H1 & H).
  apply bind_Some in H as (g2 & H2 & H3).
  apply mapM_Some_1 in H1. apply mapM_Some_1 in H2.
  assert (F1 : Forall2 same_inArr g g1).
  { eapply Forall2_impl; [exact H1|]. intros r r1 Hr. cbn beta in Hr.
    apply bind_Some in Hr as (a & _ & Hr). injection Hr as <-. reflexivity. }
  assert (F2 : Forall2 same_inArr g1 g2).
  { eapply Forall2_impl; [exact H2|]. intros r r2 Hr. eapply strides_inArr, Hr. }
  assert (F3 : Forall2 same_inArr g2 g').
  { unfold MPI_Gatherv in H3. destruct g2 as [|root others].
    - injection H3 as <-. constructor.
    - apply bind_Some in H3 as (buf & _ & H3). injection H3 as <-.
      constructor; [reflexivity|]. apply Forall2_same_length_lookup.
      split; [reflexivity|]. intros i x y Hx Hy. congruence. }
  eapply Forall2_trans; [|exact F1|].
  2:{ eapply Forall2_trans; [|exact F2|exact F3].
      intros x y z Hxy Hyz. exact (eq_trans Hyz Hxy). }
  intros x y z Hxy Hyz. exact (eq_trans Hyz Hxy).
Qed.

Lemma scatterv_all_keeps (sendbuf : list V) (sendcounts displs : list Z)
  (g : list (xfer V)) :
  forall (i : nat) (g' : list (xfer V)),
    scatterv_all sendbuf sendcounts displs i g = Some g' -> Forall2 same_inArr g g'.
Proof.
  induction g as [|r g IH]; intros i g' H.
  - injection H as <-. constructor.
  - cbn [scatterv_all] in H.
    apply bind_Some in H as (r' & Hr & H).
    apply bind_Some in H as (rest & Hrest & H). injection H as <-.
    constructor; [|eapply IH, Hrest].
    unfold scatterv_recv in Hr.
    apply bind_Some in Hr as (n & _ & Hr). apply bind_Some in Hr as (d & _ & Hr).
    destruct (n <=? Arr.size (outArr r)); [|discriminate].
    apply bind_Some in Hr as (data & _ & Hr). apply bind_Some in Hr as (o & _ & Hr).
    injection Hr as <-. reflexivity.
Qed.

Lemma ScatterArray_keeps (n : Z) (g g' : list (xfer V)) :
  ScatterArray n g = Some g' -> Forall2 same_inArr g g'.
Proof.
  unfold ScatterArray, MPI_Scatterv. destruct g as [|root others].
  - intros H. injection H as <-. constructor.
  - apply scatterv_all_keeps.
Qed.

End ExchangeKeeps.

Lemma same_inArr_map {V : Type} (g g' : list (xfer V)) :
  Forall2 same_inArr g g' -> map inArr g' = map inArr g /\ length g' = length g.
Proof.
  induction 1 as [|r r' g g' Hr _ [IH1 IH2]]; [split; reflexivity|].
  cbn [map length]. rewrite Hr, IH1, IH2. split; reflexivity.
Qed.

Lemma zip_with_keeps {A B C : Type} (back : A -> B -> B) (phi : B -> C)
  (res : list A) (g : list B) :
  length res = length g -> (forall x s, phi (back x s) = phi s) ->
  map phi (zip_with back res g) = map phi g.
Proof.
  intros Hlen Hphi. revert g Hlen.
  induction res as [|x res IH]; intros [|s g] Hlen; try discriminate; [reflexivity|].
  cbn [zip_with map]. rewrite Hphi, IH by (cbn in Hlen; lia). reflexivity.
Qed.

Lemma zip_with_reads {A B C : Type} (back : A -> B -> B) (phi : B -> C)
  (psi : A -> C) (res : list A) (g : list B) :
  length res = length g -> (forall x s, phi (back x s) = psi x) ->
  map phi (zip_with back res g) = map psi res.
Proof.
  intros Hlen Hphi. revert g Hlen.
  induction res as [|x res IH]; intros [|s g] Hlen; try discriminate; [reflexivity|].
  cbn [zip_with map]. rewrite Hphi, IH by (cbn in Hlen; lia). reflexivity.
Qed.

Section SolveSteps.
Context {V : Type}.
Variable indeterminate : V.
Variable indeterminate_int : Z.
Variable AMGX_SOLVE_SUCCESS : Z.
Implicit Types s : Solve.state V.
Implicit Types g : list (Solve.state V).

(** A collective that keeps what is sent keeps every member its
    write-back leaves alone. *)
Lemma on_group_keeps {C : Type} (phi : Solve.state V -> C)
  (args : Solve.state V -> xfer V) (back : xfer V -> Solve.state V -> Solve.state V)
  (op : list (xfer V) -> option (list (xfer V))) g g' :
  (forall l res, op l = Some res -> Forall2 same_inArr l res) ->
  (forall x s, phi (back x s) = phi s) ->
  Solve.on_group args back op g = Some g' ->
  map phi g' = map phi g.
Proof.
  intros Hop Hphi H. unfold Solve.on_group in H.
  apply bind_Some in H as (res & Hres & H). injection H as <-.
  apply Hop, same_inArr_map in Hres as [_ Hlen]. rewrite length_map in Hlen.
  apply zip_with_keeps; assumption.
Qed.

(** The vector a gather sends comes back as it was. *)
Lemma on_group_sent (phi : Solve.state V -> list V)
  (args : Solve.state V -> xfer V) (back : xfer V -> Solve.state V -> Solve.state V)
  (op : list (xfer V) -> option (list (xfer V))) g g' :
  (forall l res, op l = Some res -> Forall2 same_inArr l res) ->
  (forall x s, phi (back x s) = inArr x) ->
  (forall s, inArr (args s) = phi s) ->
  Solve.on_group args back op g = Some g' ->
  map phi g' = map phi g.
Proof.
  intros Hop Hphi Hargs H. unfold Solve.on_group in H.
  apply bind_Some in H as (res & Hres & H). injection H as <-.
  apply Hop, same_inArr_map in Hres as [Hin Hlen]. rewrite length_map in Hlen.
  rewrite (zip_with_reads back phi inArr) by assumption.
  rewrite Hin, map_map. apply map_ext. exact Hargs.
Qed.

Lemma engine_block_keeps {C : Type} (phi : Solve.state V -> C)
  (engine : list V -> list V -> list V * Z) g g' :
  (forall s s', Solve.engine_block AMGX_SOLVE_SUCCESS engine s = Some s' ->
                phi s' = phi s) ->
  mapM (Solve.engine_block AMGX_SOLVE_SUCCESS engine) g = Some g' ->
  map phi g' = map phi g.
Proof.
  intros Hphi H. apply mapM_Some_1 in H.
  induction H as [|s s' g g' Hs _ IH]; [reflexivity|].
  cbn [map]. rewrite (Hphi s s' Hs), IH. reflexivity.
Qed.

Lemma engine_block_B (engine : list V -> list V -> list V * Z) s s' :
  Solve.engine_block AMGX_SOLVE_SUCCESS engine s = Some s' ->
  Solve.B s' = Solve.B s.
Proof.
  unfold Solve.engine_block. destruct (Solve.in_gpuWorld s).
  - intros H. apply bind_Some in H as (d & _ & H). injection H as <-. reflexivity.
  - intros H. injection H as <-. reflexivity.
Qed.

End SolveSteps.

(** C10. Whenever a call [solve(X, B)] completes on the processes of a
    device group, every process holds in [B] what it held before the call,
    whatever the engine does. *)
Theorem solve_keeps_B {V : Type} (indeterminate : V)
  (indeterminate_int AMGX_SOLVE_SUCCESS : Z)
  (engine : list V -> list V -> list V * Z) (devWorldSize : Z)
  (g g' : list (Solve.state V)) :
  Solve.solve indeterminate indeterminate_int AMGX_SOLVE_SUCCESS engine
              devWorldSize g = Some g' ->
  map Solve.B g' = map Solve.B g.
Proof.
  unfold Solve.solve. intros H.
  apply bind_Some in H as (g1 & H1 & H).
  apply bind_Some in H as (g2 & H2 & H).
  apply bind_Some in H as (g3 & H3 & H4).
  apply (on_group_keeps Solve.B) in H4;
    [|intros l res; apply ScatterArray_keeps|reflexivity].
  apply (engine_block_keeps _ Solve.B) in H3; [|apply engine_block_B].
  apply (on_group_sent Solve.B) in H2;
    [|intros l res; apply GatherArray_keeps|reflexivity|reflexivity].
  apply (on_group_keeps Solve.B) in H1;
    [|intros l res; apply GatherArray_keeps|reflexivity].
  rewrite H4, H3, H2, H1, map_map. reflexivity.
Qed.


Section SolveStatus.
Context {V : Type}.
Variable indeterminate : V.
Variable indeterminate_int : Z.
Variable AMGX_SOLVE_SUCCESS : Z.
Variable engine : list V -> list V -> list V * Z.
Implicit Types s : Solve.state V.
Implicit Types g : list (Solve.state V).






End SolveStatus.


Lemma gather_scatter_round_trip_witness :
  let root := {| inArr := [1; 2]; outArr := [0; 0; 0]; Apart := [0; 0];
                 Adisp := [0; 0] |} in
  let other := {| inArr := [3]; outArr := []; Apart := [0; 0]; Adisp := [0; 0] |} in
  exists g1 g2,
    GatherArray 2 [root; other] = Some g1 /\
    ScatterArray 2 (zip_with scatter_into [[8; 9]; [7]] g1) = Some g2 /\
    map outArr g2 = [[1; 2]; [3]].
Proof.
  cbn zeta.
  set (root := {| inArr := [1; 2]; outArr := [0; 0; 0]; Apart := [0; 0];
                  Adisp := [0; 0] |}).
  set (other := {| inArr := [3]; outArr := []; Apart := [0; 0]; Adisp := [0; 0] |}).
  assert (H1 : Forall (fun r : xfer Z => length (Apart r) = S (length [other]) /\
                                         length (Adisp r) = S (length [other]))
                      [root; other]).
  { repeat constructor. }
  assert (H2 : (length (concat (map inArr [root; other])) <= length (outArr root))%nat).
  { cbn. lia. }
  assert (H3 : Z.of_nat (length (concat (map inArr [root; other]))) < 2147483648).
  { cbn. lia. }
  assert (H4 : Z.of_nat (S (length [other])) < 2147483648) by (cbn; lia).
  assert (H5 : Forall2 (fun (r : xfer Z) d => length d = length (inArr r))
                       [root; other] [[8; 9]; [7]]).
  { repeat constructor. }
  destruct (gather_scatter_round_trip root [other] [[8; 9]; [7]] H1 H2 H3 H4 H5)
    as (g1 & g2 & Hg & Hs & Hout & _).
  exists g1, g2. split; [exact Hg|]. split; [exact Hs|exact Hout].
Defined.

Lemma solve_keeps_B_witness :
  let leader := {| Solve.X := [1; 2]; Solve.B := [10; 20];
                   Solve.m_local_rows := 3; Solve.in_gpuWorld := true;
                   Solve.AmgXP := []; Solve.AmgXRHS := []; Solve.stdout := [];
                   Solve.all_X := []; Solve.all_B := [];
                   Solve.Apart_X := []; Solve.Adisp_X := [];
                   Solve.Apart_B := []; Solve.Adisp_B := [] |} in
  let member := {| Solve.X := [3]; Solve.B := [30];
                   Solve.m_local_rows := 0; Solve.in_gpuWorld := false;
                   Solve.AmgXP := []; Solve.AmgXRHS := []; Solve.stdout := [];
                   Solve.all_X := []; Solve.all_B := [];
                   Solve.Apart_X := []; Solve.Adisp_X := [];
                   Solve.Apart_B := []; Solve.Adisp_B := [] |} in
  let engine := fun (rhs x : list Z) => (map (Z.add 1) rhs, 3) in
  exists g',
    Solve.solve 0 0 0 engine 2 [leader; member] = Some g' /\
    map Solve.X g' = [[11; 21]; [31]] /\
    map Solve.B g' = [[10; 20]; [30]].
Proof.
  cbn zeta.
  match goal with
  | |- exists g', ?run = Some g' /\ _ => destruct run as [g'|] eqn:Hrun
  end.
  - exists g'. split; [reflexivity|].
    pose proof (solve_keeps_B _ _ _ _ _ _ _ Hrun) as HB.
    split; [|exact HB].
    vm_compute in Hrun. injection Hrun as <-. reflexivity.
  - vm_compute in Hrun. discriminate.
Defined.


(** ** GetLocalA *)

Example GetLocalA_run :
  let A := {| LocalA.Diag := LocalA.csr [[(0, 10); (1, 11)]; [(1, 12)]];
              LocalA.Offd := LocalA.csr [[(0, 20); (1, 21)]; [(1, 22)]];
              LocalA.cmap := [1; 7]; LocalA.RowPart := [4; 6];
              LocalA.ColPart := [4; 6] |} in
  LocalA.GetLocalA 0 0 A (LocalA.entry [] [] [])
  = Done {| LocalA.I := [0; 4; 6];
            LocalA.J := [1; 4; 5; 7; 5; 7];
            LocalA.Data := [20; 10; 11; 21; 12; 22];
            LocalA.k := 6; LocalA.jo := 0;
            LocalA.DiagJ := 3; LocalA.DiagA := 3;
            LocalA.OffJ := 3; LocalA.OffA := 3 |}.
Proof. vm_compute. reflexivity. Qed.

Lemma splice_length {A : Type} (a : list A) (off : nat) (data : list A) :
  (off + length data <= length a)%nat -> length (splice a off data) = length a.
Proof.
  intros H. unfold splice. rewrite !length_app, length_take, length_drop. lia.
Qed.

Lemma splice_nil {A : Type} (a : list A) (off : nat) : splice a off [] = a.
Proof. unfold splice. cbn. rewrite Nat.add_0_r. apply take_drop. Qed.

Lemma splice_one {A : Type} (a : list A) (off : nat) (v : A) :
  (off < length a)%nat -> <[off := v]> a = splice a off [v].
Proof.
  intros H. unfold splice. cbn [length app].
  rewrite <- (take_drop off a) at 1.
  rewrite insert_app_r_alt by (rewrite length_take; lia).
  rewrite length_take, Nat.min_l, Nat.sub_diag by lia.
  f_equal. destruct (drop off a) as [|x l] eqn:E.
  - apply (f_equal (@length A)) in E. rewrite length_drop in E. cbn in E. lia.
  - cbn. f_equal.
    replace (S off) with (off + 1)%nat by lia.
    rewrite <- drop_drop, E. reflexivity.
Qed.

Lemma splice_app {A : Type} (a : list A) (off : nat) (d1 d2 : list A) :
  (off + length d1 + length d2 <= length a)%nat ->
  splice (splice a off d1) (off + length d1) d2 = splice a off (d1 ++ d2).
Proof.
  intros H. unfold splice.
  rewrite take_app_ge by (rewrite length_take; lia).
  rewrite length_take, Nat.min_l by lia.
  replace (off + length d1 - off)%nat with (length d1) by lia.
  rewrite take_app_length.
  rewrite !drop_app_ge by (rewrite ?length_take; lia).
  rewrite length_take, Nat.min_l by lia.
  rewrite drop_drop, length_app.
  rewrite <- !app_assoc.
  replace (off + length d1 + (off + length d1 + length d2 - off - length d1))%nat
    with (off + (length d1 + length d2))%nat by lia.
  reflexivity.
Qed.

Lemma splice_all {A : Type} (a data : list A) :
  length data = length a -> splice a 0 data = data.
Proof.
  intros H. unfold splice. cbn [take Nat.add app].
  rewrite drop_ge by lia. apply app_nil_r.
Qed.

Lemma set_splice {A : Type} (a : list A) (i : Z) (v : A) :
  0 <= i < Z.of_nat (length a) ->
  Arr.set a i v = Some (splice a (Z.to_nat i) [v]).
Proof.
  intros H. unfold Arr.set.
  destruct (Z.leb_spec 0 i); [|lia].
  destruct (Z.ltb_spec i (Z.of_nat (length a))); [|lia].
  cbn [andb]. rewrite splice_one by lia. reflexivity.
Qed.

Section LocalLoops.
Context {V : Type}.
Variable A : LocalA.HypreParMatrix V.
Variable cstart : Z.
Implicit Types s : LocalA.local V.
Implicit Types es : list (Z * V).

Lemma emitted_nothing s : LocalA.emitted s [] 0 0 (LocalA.jo s) = s.
Proof.
  unfold LocalA.emitted. cbn [map length]. rewrite !splice_nil, !Z.add_0_r.
  destruct s; reflexivity.
Qed.

Lemma emitted_more s es1 es2 (dj1 dj2 oj1 oj2 j1 j2 : Z) :
  0 <= LocalA.k s ->
  LocalA.k s + Z.of_nat (length es1) + Z.of_nat (length es2)
    <= Z.of_nat (length (LocalA.J s)) ->
  length (LocalA.Data s) = length (LocalA.J s) ->
  LocalA.emitted (LocalA.emitted s es1 dj1 oj1 j1) es2 dj2 oj2 j2
  = LocalA.emitted s (es1 ++ es2) (dj1 + dj2) (oj1 + oj2) j2.
Proof.
  intros Hk Hfit Hlen. unfold LocalA.emitted.
  cbn [LocalA.I LocalA.J LocalA.Data LocalA.k LocalA.jo LocalA.DiagJ LocalA.DiagA
       LocalA.OffJ LocalA.OffA].
  replace (Z.to_nat (LocalA.k s + Z.of_nat (length es1)))
    with (Z.to_nat (LocalA.k s) + length (map fst es1))%nat
    by (rewrite length_map; lia).
  rewrite splice_app by (rewrite !length_map; lia).
  replace (Z.to_nat (LocalA.k s) + length (map fst es1))%nat
    with (Z.to_nat (LocalA.k s) + length (map snd es1))%nat
    by (rewrite !length_map; lia).
  rewrite splice_app by (rewrite !length_map; lia).
  rewrite !map_app, length_app. f_equal; lia.
Qed.

(** One entry goes out: [J[k] = col; ... Data[k++] = v;] *)
Lemma put_entry s (col : Z) (v : V) :
  0 <= LocalA.k s < Z.of_nat (length (LocalA.J s)) ->
  length (LocalA.Data s) = length (LocalA.J s) ->
  Z.of_nat (length (LocalA.J s)) < 2147483648 ->
  LocalA.put_J col s = Done
    {| LocalA.I := LocalA.I s;
       LocalA.J := splice (LocalA.J s) (Z.to_nat (LocalA.k s)) [col];
       LocalA.Data := LocalA.Data s; LocalA.k := LocalA.k s;
       LocalA.jo := LocalA.jo s;
       LocalA.DiagJ := LocalA.DiagJ s; LocalA.DiagA := LocalA.DiagA s;
       LocalA.OffJ := LocalA.OffJ s; LocalA.OffA := LocalA.OffA s |} /\
  LocalA.put_Data v s = Done
    {| LocalA.I := LocalA.I s; LocalA.J := LocalA.J s;
       LocalA.Data := splice (LocalA.Data s) (Z.to_nat (LocalA.k s)) [v];
       LocalA.k := LocalA.k s + 1; LocalA.jo := LocalA.jo s;
       LocalA.DiagJ := LocalA.DiagJ s; LocalA.DiagA := LocalA.DiagA s;
       LocalA.OffJ := LocalA.OffJ s; LocalA.OffA := LocalA.OffA s |}.
Proof.
  intros Hk Hlen Hmax. unfold LocalA.put_J, LocalA.put_Data.
  rewrite !set_splice by lia. rewrite int_add_small by lia. split; reflexivity.
Qed.

Lemma get_global (c : Z) :
  0 <= c < Z.of_nat (length (LocalA.cmap A)) ->
  Arr.get (LocalA.cmap A) c = Some (LocalA.global (LocalA.cmap A) c).
Proof.
  intros H. unfold Arr.get, LocalA.global.
  destruct (Z.ltb_spec c 0); [lia|].
  destruct (lookup_lt_is_Some_2 (LocalA.cmap A) (Z.to_nat c) ltac:(lia)) as [x Hx].
  rewrite Hx. f_equal. symmetry. apply nth_lookup_Some with (d := 0) in Hx. exact Hx.
Qed.

Lemma room_emitted s es (dj oj j : Z) (n : nat) :
  room s (length es + n) -> room (LocalA.emitted s es dj oj j) n.
Proof.
  intros (Hk & Hfit & Hlen & Hmax). unfold room, LocalA.emitted.
  cbn [LocalA.J LocalA.Data LocalA.k].
  rewrite !splice_length by (rewrite length_map; lia). lia.
Qed.

Lemma upper_entry_step s (j c : Z) (v : V) (cpre cpost : list Z)
  (vpre vpost : list V) :
  LocalA.GetJ (LocalA.Offd A) = cpre ++ c :: cpost ->
  LocalA.GetData (LocalA.Offd A) = vpre ++ v :: vpost ->
  LocalA.OffJ s = Z.of_nat (length cpre) ->
  LocalA.OffA s = Z.of_nat (length vpre) ->
  0 <= c < Z.of_nat (length (LocalA.cmap A)) ->
  room s 1 ->
  LocalA.upper_entry A j s
  = Done (LocalA.emitted s [(LocalA.global (LocalA.cmap A) c, v)] 0 1 (LocalA.jo s)).
Proof.
  intros HJ HD HoJ HoA Hc (Hk & Hfit & Hlen & Hmax). unfold LocalA.upper_entry.
  rewrite (get_middle _ cpre c cpost _ HJ HoJ), (get_global c Hc).
  destruct (put_entry (LocalA.next_OffJ s) (LocalA.global (LocalA.cmap A) c) v)
    as [HpJ _]; try (cbn; first [assumption | lia]).
  rewrite HpJ. cbn [and_then]. unfold LocalA.copy_OffA.
  cbn [LocalA.next_OffJ LocalA.OffA LocalA.J LocalA.Data LocalA.k LocalA.I
       LocalA.jo LocalA.DiagJ LocalA.DiagA LocalA.OffJ].
  rewrite (get_middle _ vpre v vpost _ HD HoA).
  match goal with
  | |- LocalA.put_Data v ?s1 = _ =>
      destruct (put_entry s1 0 v) as [_ HpD];
        try (cbn; rewrite ?splice_length by (cbn; lia); first [assumption | lia])
  end.
  rewrite HpD. unfold LocalA.emitted.
  cbn [LocalA.next_OffA LocalA.OffA LocalA.J LocalA.Data LocalA.k LocalA.I
       LocalA.jo LocalA.DiagJ LocalA.DiagA LocalA.OffJ map fst snd length].
  rewrite !Z.add_0_r. reflexivity.
Qed.

Lemma diag_entry_step s (j c : Z) (v : V) (cpre cpost : list Z)
  (vpre vpost : list V) :
  LocalA.GetJ (LocalA.Diag A) = cpre ++ c :: cpost ->
  LocalA.GetData (LocalA.Diag A) = vpre ++ v :: vpost ->
  LocalA.DiagJ s = Z.of_nat (length cpre) ->
  LocalA.DiagA s = Z.of_nat (length vpre) ->
  -2147483648 <= cstart + c < 2147483648 ->
  room s 1 ->
  LocalA.diag_entry A cstart j s
  = Done (LocalA.emitted s [(cstart + c, v)] 1 0 (LocalA.jo s)).
Proof.
  intros HJ HD HdJ HdA Hc (Hk & Hfit & Hlen & Hmax). unfold LocalA.diag_entry.
  rewrite (get_middle _ cpre c cpost _ HJ HdJ).
  rewrite int_add_small by exact Hc.
  destruct (put_entry (LocalA.next_DiagJ s) (cstart + c) v)
    as [HpJ _]; try (cbn; first [assumption | lia]).
  rewrite HpJ. cbn [and_then].
  cbn [LocalA.next_DiagJ LocalA.OffA LocalA.J LocalA.Data LocalA.k LocalA.I
       LocalA.jo LocalA.DiagJ LocalA.DiagA LocalA.OffJ].
  rewrite (get_middle _ vpre v vpost _ HD HdA).
  match goal with
  | |- LocalA.put_Data v ?s1 = _ =>
      destruct (put_entry s1 0 v) as [_ HpD];
        try (cbn; rewrite ?splice_length by (cbn; lia); first [assumption | lia])
  end.
  rewrite HpD. unfold LocalA.emitted.
  cbn [LocalA.next_DiagA LocalA.OffA LocalA.J LocalA.Data LocalA.k LocalA.I
       LocalA.jo LocalA.DiagJ LocalA.DiagA LocalA.OffJ map fst snd length].
  rewrite !Z.add_0_r. reflexivity.
Qed.

Lemma room_less s (n m : nat) : (m <= n)%nat -> room s n -> room s m.
Proof. intros Hm (Hk & Hfit & Hlen & Hmax). unfold room. repeat split; lia. Qed.

Lemma upper_run es :
  forall s (j0 : Z) (cpre cpost : list Z) (vpre vpost : list V),
    LocalA.GetJ (LocalA.Offd A) = cpre ++ map fst es ++ cpost ->
    LocalA.GetData (LocalA.Offd A) = vpre ++ map snd es ++ vpost ->
    LocalA.OffJ s = Z.of_nat (length cpre) ->
    LocalA.OffA s = Z.of_nat (length vpre) ->
    Forall (fun e => 0 <= fst e < Z.of_nat (length (LocalA.cmap A))) es ->
    room s (length es) ->
    iterate (LocalA.upper_entry A) j0 (length es) s
    = Done (LocalA.emitted s
              (map (fun e => (LocalA.global (LocalA.cmap A) (fst e), snd e)) es)
              0 (Z.of_nat (length es)) (LocalA.jo s)).
Proof.
  induction es as [|[c v] es IH]; intros s j0 cpre cpost vpre vpost HJ HD HoJ HoA
    Hval Hroom.
  - cbn [length iterate map]. rewrite emitted_nothing. reflexivity.
  - apply Forall_cons in Hval as [Hc Hval]. cbn [fst snd map app length] in *.
    cbn [iterate].
    rewrite (upper_entry_step s j0 c v cpre (map fst es ++ cpost)
               vpre (map snd es ++ vpost) HJ HD HoJ HoA Hc)
      by (eapply room_less; [|exact Hroom]; lia).
    cbn [and_then].
    rewrite (IH _ (j0 + 1) (cpre ++ [c]) cpost (vpre ++ [v]) vpost).
    + destruct Hroom as (Hk & Hfit & Hlen & Hmax).
      rewrite emitted_more
        by (rewrite ?length_map; cbn [length]; first [assumption | lia]).
      cbn [LocalA.emitted LocalA.jo app]. f_equal. f_equal; lia.
    + rewrite HJ, <- app_assoc. reflexivity.
    + rewrite HD, <- app_assoc. reflexivity.
    + cbn [LocalA.emitted LocalA.OffJ]. rewrite HoJ, length_app. cbn. lia.
    + cbn [LocalA.emitted LocalA.OffA]. rewrite HoA, length_app. cbn. lia.
    + exact Hval.
    + apply room_emitted. exact Hroom.
Qed.

Lemma diag_run es :
  forall s (j0 : Z) (cpre cpost : list Z) (vpre vpost : list V),
    LocalA.GetJ (LocalA.Diag A) = cpre ++ map fst es ++ cpost ->
    LocalA.GetData (LocalA.Diag A) = vpre ++ map snd es ++ vpost ->
    LocalA.DiagJ s = Z.of_nat (length cpre) ->
    LocalA.DiagA s = Z.of_nat (length vpre) ->
    Forall (fun e => -2147483648 <= cstart + fst e < 2147483648) es ->
    room s (length es) ->
    iterate (LocalA.diag_entry A cstart) j0 (length es) s
    = Done (LocalA.emitted s (map (fun e => (cstart + fst e, snd e)) es)
              (Z.of_nat (length es)) 0 (LocalA.jo s)).
Proof.
  induction es as [|[c v] es IH]; intros s j0 cpre cpost vpre vpost HJ HD HdJ HdA
    Hval Hroom.
  - cbn [length iterate map]. rewrite emitted_nothing. reflexivity.
  - apply Forall_cons in Hval as [Hc Hval]. cbn [fst snd map app length] in *.
    cbn [iterate].
    rewrite (diag_entry_step s j0 c v cpre (map fst es ++ cpost)
               vpre (map snd es ++ vpost) HJ HD HdJ HdA Hc)
      by (eapply room_less; [|exact Hroom]; lia).
    cbn [and_then].
    rewrite (IH _ (j0 + 1) (cpre ++ [c]) cpost (vpre ++ [v]) vpost).
    + destruct Hroom as (Hk & Hfit & Hlen & Hmax).
      rewrite emitted_more
        by (rewrite ?length_map; cbn [length]; first [assumption | lia]).
      cbn [LocalA.emitted LocalA.jo app]. f_equal. f_equal; lia.
    + rewrite HJ, <- app_assoc. reflexivity.
    + rewrite HD, <- app_assoc. reflexivity.
    + cbn [LocalA.emitted LocalA.DiagJ]. rewrite HdJ, length_app. cbn. lia.
    + cbn [LocalA.emitted LocalA.DiagA]. rewrite HdA, length_app. cbn. lia.
    + exact Hval.
    + apply room_emitted. exact Hroom.
Qed.

Lemma lower_step s (c : Z) (v : V) (vpre vpost : list V) :
  LocalA.GetData (LocalA.Offd A) = vpre ++ v :: vpost ->
  LocalA.OffA s = Z.of_nat (length vpre) ->
  room s 1 ->
  LocalA.put_J c s >>> (fun s1 => LocalA.copy_OffA A (LocalA.next_OffJ s1))
  = Done (LocalA.emitted s [(c, v)] 0 1 (LocalA.jo s)).
Proof.
  intros HD HoA (Hk & Hfit & Hlen & Hmax).
  destruct (put_entry s c v) as [HpJ _]; try first [assumption | lia].
  rewrite HpJ. cbn [and_then]. unfold LocalA.copy_OffA.
  cbn [LocalA.next_OffJ LocalA.OffA LocalA.J LocalA.Data LocalA.k LocalA.I
       LocalA.jo LocalA.DiagJ LocalA.DiagA LocalA.OffJ].
  rewrite (get_middle _ vpre v vpost _ HD HoA).
  match goal with
  | |- LocalA.put_Data v ?s1 = _ =>
      destruct (put_entry s1 0 v) as [_ HpD];
        try (cbn; rewrite ?splice_length by (cbn; lia); first [assumption | lia])
  end.
  rewrite HpD. unfold LocalA.emitted.
  cbn [LocalA.next_OffA LocalA.OffA LocalA.J LocalA.Data LocalA.k LocalA.I
       LocalA.jo LocalA.DiagJ LocalA.DiagA LocalA.OffJ map fst snd length].
  rewrite !Z.add_0_r. reflexivity.
Qed.

Lemma lower_run lo :
  forall s hi (cpre cpost : list Z) (vpre vpost : list V),
    LocalA.GetJ (LocalA.Offd A) = cpre ++ map fst (lo ++ hi) ++ cpost ->
    LocalA.GetData (LocalA.Offd A) = vpre ++ map snd (lo ++ hi) ++ vpost ->
    LocalA.OffJ s = Z.of_nat (length cpre) ->
    LocalA.OffA s = Z.of_nat (length vpre) ->
    Forall (fun e => 0 <= fst e < Z.of_nat (length (LocalA.cmap A))) (lo ++ hi) ->
    Forall (fun e => LocalA.below (LocalA.cmap A) cstart e = true) lo ->
    Forall (fun e => LocalA.below (LocalA.cmap A) cstart e = false) hi ->
    room s (length lo) ->
    0 <= LocalA.jo s -> LocalA.jo s + Z.of_nat (length lo) < 2147483648 ->
    LocalA.lower_loop A cstart (length lo + length hi) s
    = Done (LocalA.emitted s
              (map (fun e => (LocalA.global (LocalA.cmap A) (fst e), snd e)) lo)
              0 (Z.of_nat (length lo)) (LocalA.jo s + Z.of_nat (length lo))).
Proof.
  induction lo as [|[c v] lo IH]; intros s hi cpre cpost vpre vpost HJ HD HoJ HoA
    Hval Hlo Hhi Hroom Hjo Hjomax.
  - cbn [length map Nat.add app] in *. rewrite Z.add_0_r, emitted_nothing.
    destruct hi as [|[c v] hi]; [reflexivity|].
    apply Forall_cons in Hval as [Hc _]. apply Forall_cons in Hhi as [Hb _].
    cbn [fst snd map app length] in *. cbn [LocalA.lower_loop].
    rewrite (get_middle _ cpre c (map fst hi ++ cpost) _ HJ HoJ), (get_global c Hc).
    unfold LocalA.below in Hb. cbn [fst] in Hb.
    destruct (Z.geb_spec (LocalA.global (LocalA.cmap A) c) cstart) as [_|Hlt];
      [reflexivity|].
    apply Z.ltb_ge in Hb. lia.
  - apply Forall_cons in Hval as [Hc Hval]. apply Forall_cons in Hlo as [Hb Hlo].
    cbn [fst snd map app length Nat.add] in *. cbn [LocalA.lower_loop].
    rewrite (get_middle _ cpre c (map fst (lo ++ hi) ++ cpost) _ HJ HoJ),
            (get_global c Hc).
    unfold LocalA.below in Hb. cbn [fst] in Hb. apply Z.ltb_lt in Hb.
    destruct (Z.geb_spec (LocalA.global (LocalA.cmap A) c) cstart) as [Hge|_];
      [lia|].
    rewrite (lower_step s _ v vpre (map snd (lo ++ hi) ++ vpost) HD HoA)
      by (eapply room_less; [|exact Hroom]; lia).
    cbn [and_then].
    change (LocalA.jo (LocalA.emitted s [(LocalA.global (LocalA.cmap A) c, v)] 0 1
                         (LocalA.jo s))) with (LocalA.jo s).
    rewrite int_add_small by lia.
    change (LocalA.with_jo (LocalA.jo s + 1)
              (LocalA.emitted s [(LocalA.global (LocalA.cmap A) c, v)] 0 1
                 (LocalA.jo s)))
      with (LocalA.emitted s [(LocalA.global (LocalA.cmap A) c, v)] 0 1
              (LocalA.jo s + 1)).
    rewrite (IH _ hi (cpre ++ [c]) cpost (vpre ++ [v]) vpost).
    + destruct Hroom as (Hk & Hfit & Hlen & Hmax).
      rewrite emitted_more
        by (rewrite ?length_map; cbn [length]; first [assumption | lia]).
      cbn [LocalA.emitted LocalA.jo app]. f_equal. f_equal; lia.
    + rewrite HJ, <- app_assoc. reflexivity.
    + rewrite HD, <- app_assoc. reflexivity.
    + cbn [LocalA.emitted LocalA.OffJ]. rewrite HoJ, length_app. cbn. lia.
    + cbn [LocalA.emitted LocalA.OffA]. rewrite HoA, length_app. cbn. lia.
    + exact Hval.
    + exact Hlo.
    + exact Hhi.
    + apply room_emitted. exact Hroom.
    + cbn [LocalA.emitted LocalA.jo]. lia.
    + cbn [LocalA.emitted LocalA.jo]. lia.
Qed.

Lemma emitted_with_jo s es (dj oj j j0 : Z) :
  LocalA.emitted (LocalA.with_jo j0 s) es dj oj j = LocalA.emitted s es dj oj j.
Proof. reflexivity. Qed.

Lemma jo_emitted s es (dj oj j : Z) : LocalA.jo (LocalA.emitted s es dj oj j) = j.
Proof. reflexivity. Qed.

(** One row: the off-diagonal entries left of the column range, the
    diagonal entries, the other off-diagonal entries. *)
Lemma fill_row_run s (i o0 d0 : Z) (d lo hi : list (Z * V))
  (dcpre dcpost ocpre ocpost : list Z) (dvpre dvpost ovpre ovpost : list V) :
  Arr.get (LocalA.GetI (LocalA.Offd A)) i = Some o0 ->
  Arr.get (LocalA.GetI (LocalA.Offd A)) (i + 1)
  = Some (o0 + Z.of_nat (length (lo ++ hi))) ->
  Arr.get (LocalA.GetI (LocalA.Diag A)) i = Some d0 ->
  Arr.get (LocalA.GetI (LocalA.Diag A)) (i + 1) = Some (d0 + Z.of_nat (length d)) ->
  0 <= i -> i + 1 < 2147483648 ->
  0 <= o0 -> o0 + Z.of_nat (length (lo ++ hi)) < 2147483648 ->
  0 <= d0 -> d0 + Z.of_nat (length d) < 2147483648 ->
  LocalA.GetJ (LocalA.Diag A) = dcpre ++ map fst d ++ dcpost ->
  LocalA.GetData (LocalA.Diag A) = dvpre ++ map snd d ++ dvpost ->
  LocalA.DiagJ s = Z.of_nat (length dcpre) ->
  LocalA.DiagA s = Z.of_nat (length dvpre) ->
  LocalA.GetJ (LocalA.Offd A) = ocpre ++ map fst (lo ++ hi) ++ ocpost ->
  LocalA.GetData (LocalA.Offd A) = ovpre ++ map snd (lo ++ hi) ++ ovpost ->
  LocalA.OffJ s = Z.of_nat (length ocpre) ->
  LocalA.OffA s = Z.of_nat (length ovpre) ->
  Forall (fun e => 0 <= fst e < Z.of_nat (length (LocalA.cmap A))) (lo ++ hi) ->
  Forall (fun e => LocalA.below (LocalA.cmap A) cstart e = true) lo ->
  Forall (fun e => LocalA.below (LocalA.cmap A) cstart e = false) hi ->
  Forall (fun e => -2147483648 <= cstart + fst e < 2147483648) d ->
  room s (length lo + length d + length hi) ->
  LocalA.fill_row A cstart i s
  = Done (LocalA.emitted s
            (map (fun e => (LocalA.global (LocalA.cmap A) (fst e), snd e)) lo
             ++ map (fun e => (cstart + fst e, snd e)) d
             ++ map (fun e => (LocalA.global (LocalA.cmap A) (fst e), snd e)) hi)
            (Z.of_nat (length d)) (Z.of_nat (length (lo ++ hi)))
            (Z.of_nat (length lo))).
Proof.
  intros Ho0 Ho1 Hd0 Hd1 Hi Himax Ho0n Homax Hd0n Hdmax HdJ HdD HsdJ HsdA
    HoJ HoD HsoJ HsoA Hval Hlo Hhi Hdr Hroom.
  pose proof Hroom as (Hk & Hfit & Hlen & Hmax).
  unfold LocalA.fill_row. rewrite int_add_small by lia.
  rewrite Ho1, Ho0, Hd1, Hd0.
  rewrite !int_sub_small by lia.
  replace (o0 + Z.of_nat (length (lo ++ hi)) - o0)
    with (Z.of_nat (length (lo ++ hi))) by lia.
  replace (d0 + Z.of_nat (length d) - d0) with (Z.of_nat (length d)) by lia.
  rewrite Nat2Z.id, length_app.
  rewrite (lower_run lo (LocalA.with_jo 0 s) hi ocpre ocpost ovpre ovpost);
    try first [assumption | (cbn [LocalA.with_jo LocalA.jo]; lia)].
  2:{ eapply room_less; [|exact Hroom]. lia. }
  cbn [and_then]. rewrite emitted_with_jo.
  cbn [LocalA.with_jo LocalA.jo]. rewrite Z.add_0_l.
  unfold for_range. rewrite Z.sub_0_r, Nat2Z.id.
  rewrite (diag_run d _ 0 dcpre dcpost dvpre dvpost);
    try first [assumption
              | (cbn [LocalA.emitted LocalA.DiagJ LocalA.DiagA]; lia)].
  2:{ apply room_emitted. rewrite length_map.
      eapply room_less; [|exact Hroom]. lia. }
  cbn [and_then].
  rewrite emitted_more
    by (rewrite ?length_map; first [assumption | lia]).
  rewrite !jo_emitted.
  replace (Z.to_nat (Z.of_nat (length lo + length hi) - Z.of_nat (length lo)))
    with (length hi) by lia.
  match goal with
  | |- iterate _ _ _ ?s1 = _ =>
      rewrite (upper_run hi s1 (Z.of_nat (length lo)) (ocpre ++ map fst lo) ocpost
                 (ovpre ++ map snd lo) ovpost)
  end.
  - rewrite emitted_more
      by (rewrite ?length_app, ?length_map; first [assumption | lia]).
    rewrite <- app_assoc. f_equal.
    rewrite ?jo_emitted.
    f_equal; lia.
  - rewrite HoJ, map_app, <- !app_assoc. reflexivity.
  - rewrite HoD, map_app, <- !app_assoc. reflexivity.
  - cbn [LocalA.emitted LocalA.OffJ]. rewrite HsoJ, length_app, length_map. lia.
  - cbn [LocalA.emitted LocalA.OffA]. rewrite HsoA, length_app, length_map. lia.
  - apply Forall_app in Hval as [_ Hval]. exact Hval.
  - apply room_emitted. rewrite length_app, !length_map.
    eapply room_less; [|exact Hroom]. lia.
Qed.

End LocalLoops.

Lemma length_concat_map {B C : Type} (f : B -> C) (l : list (list B)) :
  length (concat (map (map f) l)) = length (concat l).
Proof. rewrite <- concat_map, length_map. reflexivity. Qed.

Lemma csr_I_prefix {V : Type} (pre post : list (list (Z * V))) :
  Arr.get (LocalA.GetI (LocalA.csr (pre ++ post))) (Z.of_nat (length pre))
  = Some (Z.of_nat (length (concat pre))).
Proof.
  rewrite get_nat. unfold LocalA.csr. cbn [LocalA.GetI].
  rewrite offsets_from_lookup by (rewrite length_map, length_app; lia).
  rewrite map_app, take_app_length' by (rewrite length_map; reflexivity).
  rewrite sum_sizes_concat. f_equal.
Qed.

Lemma csr_I_row {V : Type} (pre : list (list (Z * V))) r post :
  Arr.get (LocalA.GetI (LocalA.csr (pre ++ r :: post))) (Z.of_nat (length pre))
  = Some (Z.of_nat (length (concat pre))) /\
  Arr.get (LocalA.GetI (LocalA.csr (pre ++ r :: post))) (Z.of_nat (length pre) + 1)
  = Some (Z.of_nat (length (concat pre)) + Z.of_nat (length r)).
Proof.
  split; [apply csr_I_prefix|].
  replace (pre ++ r :: post) with ((pre ++ [r]) ++ post)
    by (rewrite <- app_assoc; reflexivity).
  replace (Z.of_nat (length pre) + 1) with (Z.of_nat (length (pre ++ [r])))
    by (rewrite length_app; cbn [length]; lia).
  rewrite csr_I_prefix, concat_app, length_app. cbn [concat].
  rewrite app_nil_r. f_equal. lia.
Qed.

Lemma csr_J_row {V : Type} (pre : list (list (Z * V))) r post :
  LocalA.GetJ (LocalA.csr (pre ++ r :: post))
  = concat (map (map fst) pre) ++ map fst r ++ concat (map (map fst) post).
Proof. unfold LocalA.csr. cbn [LocalA.GetJ]. rewrite map_app, concat_app. reflexivity. Qed.

Lemma csr_Data_row {V : Type} (pre : list (list (Z * V))) r post :
  LocalA.GetData (LocalA.csr (pre ++ r :: post))
  = concat (map (map snd) pre) ++ map snd r ++ concat (map (map snd) post).
Proof. unfold LocalA.csr. cbn [LocalA.GetData]. rewrite map_app, concat_app. reflexivity. Qed.

Lemma filter_all {B : Type} (p : B -> bool) (l : list B) :
  Forall (fun e => p e = true) l -> List.filter p l = l.
Proof.
  induction 1 as [|e l He _ IH]; [reflexivity|].
  cbn [List.filter]. rewrite He, IH. reflexivity.
Qed.

Lemma filter_none {B : Type} (p : B -> bool) (l : list B) :
  Forall (fun e => p e = false) l -> List.filter p l = [].
Proof.
  induction 1 as [|e l He _ IH]; [reflexivity|].
  cbn [List.filter]. rewrite He, IH. reflexivity.
Qed.

Lemma fragment_row_split {V : Type} (cm : list Z) (cstart : Z)
  (d lo hi : list (Z * V)) :
  Forall (fun e => LocalA.below cm cstart e = true) lo ->
  Forall (fun e => LocalA.below cm cstart e = false) hi ->
  LocalA.fragment_row cm cstart d (lo ++ hi)
  = map (fun e => (LocalA.global cm (fst e), snd e)) lo
    ++ map (fun e => (cstart + fst e, snd e)) d
    ++ map (fun e => (LocalA.global cm (fst e), snd e)) hi.
Proof.
  intros Hlo Hhi. unfold LocalA.fragment_row.
  rewrite !List.filter_app.
  rewrite (filter_all _ lo Hlo), (filter_none _ hi Hhi), app_nil_r.
  rewrite (filter_none (fun e => negb (LocalA.below cm cstart e)) lo)
    by (eapply Forall_impl; [exact Hlo|]; cbn; intros e ->; reflexivity).
  rewrite (filter_all (fun e => negb (LocalA.below cm cstart e)) hi)
    by (eapply Forall_impl; [exact Hhi|]; cbn; intros e ->; reflexivity).
  reflexivity.
Qed.

Lemma fragment_row_length {V : Type} (cm : list Z) (cstart : Z)
  (d o : list (Z * V)) :
  length (LocalA.fragment_row cm cstart d o) = (length d + length o)%nat.
Proof.
  unfold LocalA.fragment_row. rewrite !length_app, !length_map.
  enough (length (List.filter (LocalA.below cm cstart) o)
          + length (List.filter (fun e => negb (LocalA.below cm cstart e)) o)
          = length o)%nat by lia.
  induction o as [|e o IH]; [reflexivity|].
  cbn [List.filter]. destruct (LocalA.below cm cstart e); cbn [negb length]; lia.
Qed.

(** A non-decreasing column map keeps the order of the local columns. *)
Lemma nth_sorted (l : list Z) :
  StronglySorted Z.le l ->
  forall i j : nat, (i <= j < length l)%nat -> nth i l 0 <= nth j l 0.
Proof.
  induction 1 as [|x l Hs IH Hx]; intros i j Hij; [cbn in Hij; lia|].
  destruct i as [|i], j as [|j]; cbn [nth length] in *; try lia.
  - apply (proj1 (List.Forall_nth _ _) Hx). lia.
  - apply IH. lia.
Qed.

Lemma global_mono (cm : list Z) (c c' : Z) :
  Sorted Z.le cm -> 0 <= c <= c' -> c' < Z.of_nat (length cm) ->
  LocalA.global cm c <= LocalA.global cm c'.
Proof.
  intros Hs Hc Hc'. unfold LocalA.global. apply nth_sorted; [|lia].
  apply Sorted_StronglySorted; [|exact Hs]. intros x y z. apply Z.le_trans.
Qed.

Lemma sorted_splits {V : Type} (cm : list Z) (cstart : Z) (o : list (Z * V)) :
  Sorted Z.le cm -> columns_sorted o ->
  Forall (fun e => 0 <= fst e < Z.of_nat (length cm)) o ->
  splits cm cstart o.
Proof.
  intros Hcm Ho Hval. unfold columns_sorted in Ho.
  apply Sorted_StronglySorted in Ho; [|intros x y z; apply Z.le_trans].
  induction o as [|e o IH].
  - exists [], []. repeat split; constructor.
  - cbn [map] in Ho. apply StronglySorted_inv in Ho as [Ho He].
    apply Forall_cons in Hval as [Hv Hval].
    destruct (LocalA.below cm cstart e) eqn:Eb.
    + destruct (IH Ho Hval) as (lo & hi & -> & Hlo & Hhi).
      exists (e :: lo), hi. repeat split; [constructor; assumption|assumption].
    + exists [], (e :: o). repeat split; [constructor|].
      constructor; [exact Eb|].
      apply (proj1 (List.Forall_map fst (Z.le (fst e)) o)) in He.
      pose proof (proj2 (Forall_and _ _) (conj He Hval)) as Hboth.
      eapply Forall_impl; [exact Hboth|].
      cbn beta. intros e' [Hle Hv'].
      pose proof (global_mono cm (fst e) (fst e') Hcm ltac:(lia) ltac:(lia)) as Hg.
      unfold LocalA.below in *. apply Z.ltb_ge in Eb. apply Z.ltb_ge. lia.
Qed.

Section LocalContract.
Context {V : Type}.
Variables (A : LocalA.HypreParMatrix V) (cstart : Z).
Variables ds os : list (list (Z * V)).
Hypothesis HDiag : LocalA.Diag A = LocalA.csr ds.
Hypothesis HOffd : LocalA.Offd A = LocalA.csr os.
Hypothesis Hrows : Z.of_nat (length ds) + 1 < 2147483648.
Hypothesis Hdnnz : Z.of_nat (length (concat ds)) + Z.of_nat (length (concat os))
                   < 2147483648.

Lemma concat_prefix_le {B : Type} (pre post : list (list B)) :
  (length (concat pre) <= length (concat (pre ++ post)))%nat.
Proof. rewrite concat_app, length_app. lia. Qed.

Lemma concat_row_le {B : Type} (pre : list (list B)) r post :
  (length (concat pre) + length r <= length (concat (pre ++ r :: post)))%nat.
Proof. rewrite concat_app, length_app. cbn [concat]. rewrite length_app. lia. Qed.

(** The first loop: [I[i+1] = I[i] + ...] for the rows still to come. *)
Lemma count_rows_run td :
  forall to dd do_ s (Ipre : list Z) (x : Z) (Ipost : list Z),
    ds = dd ++ td -> os = do_ ++ to ->
    length dd = length do_ -> length td = length to ->
    LocalA.I s = Ipre ++ x :: Ipost ->
    length Ipre = length dd -> (length td <= length Ipost)%nat ->
    x = Z.of_nat (length (concat dd)) + Z.of_nat (length (concat do_)) ->
    iterate (LocalA.count_row A) (Z.of_nat (length dd)) (length td) s
    = Done (LocalA.with_I (Ipre ++ offsets_from x (row_counts td to)
                           ++ drop (length td) Ipost) s).
Proof.
  induction td as [|d td IH]; intros to dd do_ s Ipre x Ipost Hds Hos Hdd Htd HI
    HIpre HIpost Hx.
  - destruct to; [|discriminate].
    cbn [length iterate row_counts zip_with offsets_from app].
    rewrite drop_0, <- HI. destruct s; reflexivity.
  - destruct to as [|o to]; [discriminate|].
    destruct Ipost as [|y Ipost]; [cbn in HIpost; lia|].
    cbn [length] in Htd, HIpost.
    cbn [length iterate].
    pose proof (csr_I_row dd d td) as [Hd0 Hd1].
    pose proof (csr_I_row do_ o to) as [Ho0 Ho1].
    rewrite <- Hds, <- HDiag in Hd0, Hd1.
    rewrite <- Hos, <- HOffd, <- Hdd in Ho0, Ho1.
    pose proof (concat_row_le dd d td) as Bd. rewrite <- Hds in Bd.
    pose proof (concat_row_le do_ o to) as Bo. rewrite <- Hos in Bo.
    assert (Z.of_nat (length dd) < Z.of_nat (length ds)) as Bi
      by (rewrite Hds, length_app; cbn [length]; lia).
    unfold LocalA.count_row at 1.
    rewrite int_add_small by lia.
    rewrite (get_middle (LocalA.I s) Ipre x (y :: Ipost) _ HI) by lia.
    rewrite Hd1, Hd0, Ho1, Ho0.
    rewrite !int_sub_small by lia.
    rewrite (int_add_small x) by lia.
    rewrite int_add_small by lia.
    rewrite (set_middle (LocalA.I s) (Ipre ++ [x]) y _ Ipost)
      by (first [ rewrite HI, <- app_assoc; reflexivity
                | rewrite length_app; cbn [length]; lia ]).
    cbn [and_then].
    replace (Z.of_nat (length dd) + 1) with (Z.of_nat (length (dd ++ [d])))
      by (rewrite length_app; cbn [length]; lia).
    rewrite (IH to (dd ++ [d]) (do_ ++ [o]) _ (Ipre ++ [x])
               (x + (Z.of_nat (length (concat dd)) + Z.of_nat (length d)
                     - Z.of_nat (length (concat dd)))
                + (Z.of_nat (length (concat do_)) + Z.of_nat (length o)
                   - Z.of_nat (length (concat do_)))) Ipost).
    + unfold LocalA.with_I. cbn [LocalA.I LocalA.J LocalA.Data LocalA.k LocalA.jo
        LocalA.DiagJ LocalA.DiagA LocalA.OffJ LocalA.OffA].
      f_equal. f_equal. rewrite <- !app_assoc.
      cbn [app row_counts zip_with offsets_from drop]. do 3 f_equal.
      unfold row_counts. f_equal. lia.
    + rewrite <- app_assoc. exact Hds.
    + rewrite <- app_assoc. exact Hos.
    + rewrite !length_app. cbn [length]. lia.
    + lia.
    + reflexivity.
    + rewrite !length_app. cbn [length]. lia.
    + lia.
    + rewrite !concat_app, !length_app. cbn [concat]. rewrite !app_nil_r. lia.
Qed.

(** The second loop, row after row. *)
Lemma fill_rows_run td :
  forall to dd do_ s,
    ds = dd ++ td -> os = do_ ++ to ->
    length dd = length do_ -> length td = length to ->
    LocalA.DiagJ s = Z.of_nat (length (concat dd)) ->
    LocalA.DiagA s = Z.of_nat (length (concat dd)) ->
    LocalA.OffJ s = Z.of_nat (length (concat do_)) ->
    LocalA.OffA s = Z.of_nat (length (concat do_)) ->
    Forall (splits (LocalA.cmap A) cstart) to ->
    Forall (Forall (fun e => 0 <= fst e < Z.of_nat (length (LocalA.cmap A)))) to ->
    Forall (Forall (fun e => -2147483648 <= cstart + fst e < 2147483648)) td ->
    room s (length (concat td) + length (concat to)) ->
    exists j,
      iterate (LocalA.fill_row A cstart) (Z.of_nat (length dd)) (length td) s
      = Done (LocalA.emitted s
                (concat (LocalA.fragment_rows (LocalA.cmap A) cstart td to))
                (Z.of_nat (length (concat td))) (Z.of_nat (length (concat to))) j).
Proof.
  induction td as [|d td IH]; intros to dd do_ s Hds Hos Hdd Htd HsdJ HsdA HsoJ HsoA
    Hsp Hval Hdr Hroom.
  - destruct to; [|discriminate]. exists (LocalA.jo s).
    cbn [length iterate LocalA.fragment_rows zip_with concat].
    rewrite emitted_nothing. reflexivity.
  - destruct to as [|o to]; [discriminate|].
    cbn [length] in Htd. cbn [length iterate].
    apply Forall_cons in Hsp as [(lo & hi & Eo & Hlo & Hhi) Hsp].
    apply Forall_cons in Hval as [Hv Hval].
    apply Forall_cons in Hdr as [Hd Hdr].
    pose proof (csr_I_row dd d td) as [Hd0 Hd1].
    pose proof (csr_I_row do_ o to) as [Ho0 Ho1].
    rewrite <- Hds, <- HDiag in Hd0, Hd1.
    rewrite <- Hos, <- HOffd, <- Hdd in Ho0, Ho1.
    pose proof (concat_row_le dd d td) as Bd. rewrite <- Hds in Bd.
    pose proof (concat_row_le do_ o to) as Bo. rewrite <- Hos in Bo.
    assert (Z.of_nat (length dd) < Z.of_nat (length ds)) as Bi
      by (rewrite Hds, length_app; cbn [length]; lia).
    pose proof Hroom as (Hk & Hfit & Hlen & Hmax).
    cbn [concat] in Hroom, Hfit. rewrite !length_app in Hroom, Hfit.
    subst o.
    rewrite (fill_row_run A cstart s (Z.of_nat (length dd))
               (Z.of_nat (length (concat do_))) (Z.of_nat (length (concat dd)))
               d lo hi
               (concat (map (map fst) dd)) (concat (map (map fst) td))
               (concat (map (map fst) do_)) (concat (map (map fst) to))
               (concat (map (map snd) dd)) (concat (map (map snd) td))
               (concat (map (map snd) do_)) (concat (map (map snd) to)));
      try first [ assumption | lia
                | (rewrite ?length_concat_map; assumption)
                | (rewrite HDiag, Hds; first [apply csr_J_row | apply csr_Data_row])
                | (rewrite HOffd, Hos; first [apply csr_J_row | apply csr_Data_row]) ].
    2:{ eapply room_less; [|exact Hroom]. rewrite length_app. lia. }
    cbn [and_then].
    replace (Z.of_nat (length dd) + 1) with (Z.of_nat (length (dd ++ [d])))
      by (rewrite length_app; cbn [length]; lia).
    match goal with
    | |- context [iterate _ _ _ ?s1] =>
        destruct (IH to (dd ++ [d]) (do_ ++ [lo ++ hi]) s1) as [j Hj]
    end.
    + rewrite <- app_assoc. exact Hds.
    + rewrite <- app_assoc. exact Hos.
    + rewrite !length_app. cbn [length]. lia.
    + lia.
    + cbn [LocalA.emitted LocalA.DiagJ]. rewrite HsdJ, concat_app, length_app.
      cbn [concat]. rewrite app_nil_r. lia.
    + cbn [LocalA.emitted LocalA.DiagA]. rewrite HsdA, concat_app, length_app.
      cbn [concat]. rewrite app_nil_r. lia.
    + cbn [LocalA.emitted LocalA.OffJ]. rewrite HsoJ, concat_app, !length_app.
      cbn [concat]. rewrite app_nil_r, length_app. lia.
    + cbn [LocalA.emitted LocalA.OffA]. rewrite HsoA, concat_app, !length_app.
      cbn [concat]. rewrite app_nil_r, length_app. lia.
    + exact Hsp.
    + exact Hval.
    + exact Hdr.
    + apply room_emitted. rewrite !length_app, !length_map.
      eapply room_less; [|exact Hroom]. rewrite length_app. lia.
    + exists j. rewrite Hj.
      rewrite emitted_more.
      * cbn [LocalA.fragment_rows zip_with concat].
        rewrite (fragment_row_split _ _ d lo hi Hlo Hhi).
        cbn [concat]. rewrite !length_app. unfold LocalA.fragment_rows.
        rewrite !Nat2Z.inj_add. reflexivity.
      * exact Hk.
      * rewrite !length_app, !length_map.
        change (zip_with (LocalA.fragment_row (LocalA.cmap A) cstart) td to)
          with (LocalA.fragment_rows (LocalA.cmap A) cstart td to).
        assert (length (concat (LocalA.fragment_rows (LocalA.cmap A) cstart td to))
                = (length (concat td) + length (concat to))%nat) as ->.
        { clear -Htd. revert to Htd. induction td as [|d' td IHt]; intros [|o' to] Htd;
            try discriminate; [reflexivity|].
          cbn [LocalA.fragment_rows zip_with concat]. rewrite !length_app.
          rewrite fragment_row_length.
          change (zip_with (LocalA.fragment_row (LocalA.cmap A) cstart) td to)
            with (LocalA.fragment_rows (LocalA.cmap A) cstart td to).
          rewrite IHt by (cbn [length] in Htd; lia). lia. }
        rewrite !length_app in Hfit. lia.
      * exact Hlen.
Qed.

End LocalContract.

Lemma int_abs_small (a : Z) :
  -2147483648 < a < 2147483648 -> Int.abs a = Z.abs a.
Proof. intros H. apply wrap32_small, in_range32. lia. Qed.

Lemma sum_row_counts {V : Type} (ds : list (list (Z * V))) :
  forall os, length ds = length os ->
    sum_list (row_counts ds os)
    = Z.of_nat (length (concat ds)) + Z.of_nat (length (concat os)).
Proof.
  induction ds as [|d ds IH]; intros [|o os] Hlen; try discriminate; [reflexivity|].
  cbn [row_counts zip_with concat]. rewrite !length_app.
  unfold sum_list in *. cbn [foldr]. unfold row_counts in IH.
  rewrite IH by (cbn [length] in Hlen; lia). lia.
Qed.

Lemma row_counts_length {V : Type} (ds : list (list (Z * V))) :
  forall os, length ds = length os -> length (row_counts ds os) = length ds.
Proof.
  induction ds as [|d ds IH]; intros [|o os] Hlen; try discriminate; [reflexivity|].
  cbn [row_counts zip_with length]. unfold row_counts in IH.
  rewrite IH by (cbn [length] in Hlen; lia). reflexivity.
Qed.

Lemma fragment_rows_counts {V : Type} (cm : list Z) (cstart : Z)
  (ds : list (list (Z * V))) :
  forall os,
    map (fun r => Z.of_nat (length r)) (LocalA.fragment_rows cm cstart ds os)
    = row_counts ds os.
Proof.
  induction ds as [|d ds IH]; intros [|o os]; try reflexivity.
  cbn [LocalA.fragment_rows row_counts zip_with map].
  rewrite fragment_row_length. unfold LocalA.fragment_rows, row_counts in IH.
  rewrite IH. f_equal. lia.
Qed.

(** C5 (amended): for diagonal and off-diagonal CSR blocks of the same
    number of rows, that number being the distance of the two row
    partition offsets, with the off-diagonal column indices sorted within
    each row and inside the column map, a column map that is itself
    non-decreasing, and all counts and global columns within [int],
    [GetLocalA] completes; its row pointer starts at 0 and advances row by
    row by diagonal row length plus off-diagonal row length, and its
    columns and values are, row by row, the off-diagonal entries whose
    global column is below the column range start, then the diagonal
    entries at range start plus local column, then the other off-diagonal
    entries. *)
Theorem GetLocalA_fragment {V : Type} (indeterminate : V) (indeterminate_int : Z)
  (A : LocalA.HypreParMatrix V) (ds os : list (list (Z * V)))
  (r0 r1 cstart : Z) (s : LocalA.local V) :
  LocalA.Diag A = LocalA.csr ds ->
  LocalA.Offd A = LocalA.csr os ->
  length ds = length os ->
  Arr.get (LocalA.RowPart A) 0 = Some r0 ->
  Arr.get (LocalA.RowPart A) 1 = Some r1 ->
  Arr.get (LocalA.ColPart A) 0 = Some cstart ->
  Z.abs (r1 - r0) = Z.of_nat (length ds) ->
  Z.of_nat (length ds) + 1 < 2147483648 ->
  Z.of_nat (length (concat ds)) + Z.of_nat (length (concat os)) < 2147483648 ->
  Forall columns_sorted os ->
  Sorted Z.le (LocalA.cmap A) ->
  Forall (Forall (fun e => 0 <= fst e < Z.of_nat (length (LocalA.cmap A)))) os ->
  Forall (Forall (fun e => -2147483648 <= cstart + fst e < 2147483648)) ds ->
  exists s',
    LocalA.GetLocalA indeterminate indeterminate_int A s = Done s' /\
    LocalA.I s' = offsets_from 0 (row_counts ds os) /\
    LocalA.J s'
    = concat (map (map fst) (LocalA.fragment_rows (LocalA.cmap A) cstart ds os)) /\
    LocalA.Data s'
    = concat (map (map snd) (LocalA.fragment_rows (LocalA.cmap A) cstart ds os)) /\
    map (fun r => Z.of_nat (length r))
      (LocalA.fragment_rows (LocalA.cmap A) cstart ds os)
    = row_counts ds os.
Proof.
  intros HD HO Hlen Hr0 Hr1 Hc Hn Hrows Hnnz Hsorted Hcm Hval Hdr.
  assert (Forall (splits (LocalA.cmap A) cstart) os) as Hsp.
  { clear -Hsorted Hcm Hval. induction os as [|o os' IH]; [constructor|].
    apply Forall_cons in Hsorted as [Ho Hsorted].
    apply Forall_cons in Hval as [Hv Hval].
    constructor; [apply sorted_splits; assumption|apply IH; assumption]. }
  pose proof (sum_row_counts ds os Hlen) as Hsum.
  pose proof (row_counts_length ds os Hlen) as Hrc.
  unfold LocalA.GetLocalA. rewrite Hr1, Hr0.
  rewrite int_sub_small by lia. rewrite int_abs_small by lia. rewrite Hn.
  rewrite int_add_small by lia.
  replace (Z.to_nat (Z.of_nat (length ds) + 1)) with (S (length ds)) by lia.
  cbn [replicate].
  change (Arr.set (indeterminate_int :: replicate (length ds) indeterminate_int) 0 0)
    with (Arr.set (indeterminate_int :: replicate (length ds) indeterminate_int)
            (Z.of_nat 0) 0).
  rewrite set_in_range by (cbn [length]; lia).
  cbn [insert list_insert].
  unfold for_range. rewrite !Z.sub_0_r, !Nat2Z.id.
  change 0 with (Z.of_nat (@length (list (Z * V)) [])) at 2.
  rewrite (count_rows_run A ds os HD HO Hrows Hnnz ds os [] [] _ [] 0
             (replicate (length ds) indeterminate_int))
    by first [ reflexivity | assumption
             | (rewrite length_replicate; lia) ].
  cbn [and_then app LocalA.with_I LocalA.I LocalA.jo].
  rewrite drop_ge by (rewrite length_replicate; lia).
  rewrite app_nil_r.
  rewrite get_nat, offsets_from_lookup by lia.
  rewrite take_ge by lia. rewrite Hsum, Z.add_0_l. rewrite Hc.
  match goal with
  | |- context [iterate _ _ _ ?s0] =>
      destruct (fill_rows_run A cstart ds os HD HO Hrows Hnnz ds os [] [] s0)
        as [j Hj]
  end; try first [ reflexivity | assumption ].
  { unfold room. cbn [LocalA.k LocalA.J LocalA.Data].
    rewrite !length_replicate. lia. }
  cbn [length] in Hj. change (Z.of_nat 0) with 0 in Hj.
  eexists. split; [exact Hj|].
  unfold LocalA.emitted. cbn [LocalA.I LocalA.J LocalA.Data LocalA.k].
  change (Z.to_nat 0) with 0%nat.
  assert (length (concat (LocalA.fragment_rows (LocalA.cmap A) cstart ds os))
          = Z.to_nat (Z.of_nat (length (concat ds)) + Z.of_nat (length (concat os))))
    as Hfl.
  { rewrite <- Hsum, <- (fragment_rows_counts (LocalA.cmap A) cstart ds os).
    rewrite sum_sizes_concat. lia. }
  rewrite !splice_all by (rewrite length_map, length_replicate; exact Hfl).
  rewrite !concat_map.
  split; [reflexivity|]. split; [reflexivity|]. split; [reflexivity|].
  apply fragment_rows_counts.
Qed.

Lemma GetLocalA_fragment_witness :
  let ds := [[(0, 10); (1, 11)]; [(1, 12)]] in
  let os := [[(0, 20); (1, 21)]; [(1, 22)]] in
  let A := {| LocalA.Diag := LocalA.csr ds; LocalA.Offd := LocalA.csr os;
              LocalA.cmap := [1; 7]; LocalA.RowPart := [4; 6];
              LocalA.ColPart := [4; 6] |} in
  exists s',
    LocalA.GetLocalA 0 0 A (LocalA.entry [] [] []) = Done s' /\
    LocalA.I s' = [0; 4; 6] /\
    LocalA.J s' = [1; 4; 5; 7; 5; 7] /\
    LocalA.Data s' = [20; 10; 11; 21; 12; 22].
Proof.
  cbn zeta.
  assert (Forall columns_sorted [[(0, 20); (1, 21)]; [(1, 22)]]) as Hsorted.
  { unfold columns_sorted. repeat constructor. cbn. lia. }
  assert (Sorted Z.le [1; 7]) as Hcm.
  { repeat constructor. lia. }
  assert (Forall (Forall (fun e : Z * Z => 0 <= fst e < 2))
            [[(0, 20); (1, 21)]; [(1, 22)]]) as Hval.
  { repeat constructor; cbn; lia. }
  assert (Forall (Forall (fun e : Z * Z => -2147483648 <= 4 + fst e < 2147483648))
            [[(0, 10); (1, 11)]; [(1, 12)]]) as Hdr.
  { repeat constructor; cbn; lia. }
  destruct (GetLocalA_fragment 0 0
              {| LocalA.Diag := LocalA.csr [[(0, 10); (1, 11)]; [(1, 12)]];
                 LocalA.Offd := LocalA.csr [[(0, 20); (1, 21)]; [(1, 22)]];
                 LocalA.cmap := [1; 7]; LocalA.RowPart := [4; 6];
                 LocalA.ColPart := [4; 6] |}
              [[(0, 10); (1, 11)]; [(1, 12)]] [[(0, 20); (1, 21)]; [(1, 22)]]
              4 6 4 (LocalA.entry [] [] [])
              eq_refl eq_refl eq_refl eq_refl eq_refl eq_refl eq_refl
              ltac:(cbn; lia) ltac:(cbn; lia) Hsorted Hcm Hval Hdr)
    as (s' & Hrun & HI & HJ & HData & _).
  exists s'. split; [exact Hrun|].
  split; [exact HI|]. split; [exact HJ|exact HData].
Defined.

(** With a column map that is not in order the first loop stops at the
    first entry and the off-diagonal entry left of the column range comes
    out last. *)
Lemma GetLocalA_unordered_cmap :
  let ds := [[(0, 10)]] in
  let os := [[(0, 20); (1, 21)]] in
  let A := {| LocalA.Diag := LocalA.csr ds; LocalA.Offd := LocalA.csr os;
              LocalA.cmap := [10; 2]; LocalA.RowPart := [0; 1];
              LocalA.ColPart := [5; 6] |} in
  Forall columns_sorted ds /\ Forall columns_sorted os /\
  exists s',
    LocalA.GetLocalA 0 0 A (LocalA.entry [] [] []) = Done s' /\
    LocalA.J s' = [5; 10; 2] /\
    concat (map (map fst) (LocalA.fragment_rows (LocalA.cmap A) 5 ds os))
    = [2; 5; 10].
Proof.
  cbn zeta. split; [|split].
  - unfold columns_sorted. repeat constructor.
  - unfold columns_sorted. repeat constructor. cbn. lia.
  - eexists. split; [vm_compute; reflexivity|]. split; reflexivity.
Qed.


(** * Further properties *)

(** ** solve: what every process receives *)

Lemma zip_with_map_args {A B : Type} (back : A -> B -> B) (h : B -> A) (l : list B) :
  zip_with back (map h l) l = map (fun s => back (h s) s) l.
Proof.
  induction l as [|s l IH]; [reflexivity|].
  cbn [map zip_with]. rewrite IH. reflexivity.
Qed.

(** Sub-arrays of the same lengths have the same descriptor. *)
Lemma describes_lengths {V : Type} (sizes displs : list Z) (xs ys : list (list V)) :
  Forall2 (fun x y => length x = length y) xs ys ->
  describes sizes displs xs -> describes sizes displs ys.
Proof.
  intros Hlen [Hs Hd].
  assert (Hmap : forall l l' : list (list V),
             Forall2 (fun x y => length x = length y) l l' ->
             map (fun x => Z.of_nat (length x)) l = map (fun x => Z.of_nat (length x)) l'
             /\ length (concat l) = length (concat l') /\ length l = length l').
  { induction 1 as [|x y l l' Hxy _ (IH1 & IH2 & IH3)]; [repeat split|].
    cbn [map concat length]. rewrite !length_app, Hxy, IH1, IH2, IH3. repeat split. }
  split.
  - rewrite Hs. apply Hmap, Hlen.
  - intros i Hi. destruct (Hmap _ _ Hlen) as (_ & _ & Hl).
    rewrite Hd by lia. do 2 f_equal.
    apply Hmap. apply Forall2_take. exact Hlen.
Qed.

(** Cutting a flat array into pieces of given lengths. *)
Lemma cut_like {V : Type} (xs : list (list V)) :
  forall sol : list V,
    length sol = length (concat xs) ->
    exists ys, concat ys = sol /\ Forall2 (fun x y => length x = length y) xs ys.
Proof.
  induction xs as [|x xs IH]; intros sol Hlen.
  - exists []. cbn in Hlen. destruct sol; [|discriminate]. split; constructor.
  - cbn [concat] in Hlen. rewrite length_app in Hlen.
    destruct (IH (drop (length x) sol)) as (ys & Hys & Hall).
    { rewrite length_drop. lia. }
    exists (take (length x) sol :: ys). split.
    + cbn [concat]. rewrite Hys. apply take_drop.
    + constructor; [rewrite length_take; lia|exact Hall].
Qed.

Section SolveSegments.
Context {V : Type}.
Variable indeterminate : V.
Variable indeterminate_int : Z.
Variable AMGX_SOLVE_SUCCESS : Z.
Implicit Types s : Solve.state V.

(** A gather called on the whole group, by its result on every process. *)
Lemma on_group_gather (args : Solve.state V -> xfer V)
  (back : xfer V -> Solve.state V -> Solve.state V) (root : Solve.state V)
  (others : list (Solve.state V)) :
  let g := root :: others in
  let xs := map (fun s => inArr (args s)) g in
  let sizes := map (fun x : list V => Z.of_nat (length x)) xs in
  let displs := take (length g) (offsets_from 0 sizes) in
  Forall (fun s => length (Apart (args s)) = length g /\
                   length (Adisp (args s)) = length g) g ->
  (length (concat xs) <= length (outArr (args root)))%nat ->
  Z.of_nat (length (concat xs)) < 2147483648 ->
  Z.of_nat (length g) < 2147483648 ->
  Solve.on_group args back (GatherArray (Z.of_nat (length g))) g
  = Some (back {| inArr := inArr (args root);
                  outArr := concat xs ++ drop (length (concat xs)) (outArr (args root));
                  Apart := sizes; Adisp := displs |} root
          :: map (fun s => back {| inArr := inArr (args s); outArr := outArr (args s);
                                   Apart := sizes; Adisp := displs |} s) others).
Proof.
  intros g xs sizes displs Hlens Hfit Hsum Hn. unfold Solve.on_group.
  subst g. cbn [map].
  pose proof (GatherArray_run (args root) (map args others)) as Hrun.
  cbn zeta in Hrun. cbn [length map] in Hrun, Hlens, Hn, displs.
  rewrite length_map, map_map in Hrun. cbn [length].
  rewrite Hrun; try assumption.
  - cbn [mbind option_bind zip_with]. f_equal. f_equal.
    rewrite map_map. apply zip_with_map_args.
  - apply Forall_cons in Hlens as [Hr Ho]. constructor; [exact Hr|].
    apply Forall_fmap. exact Ho.
Qed.

(** X1. On a device group whose leader alone is in [gpuWorld] and has
    [m_local_rows] equal to the number of unknowns of the group, with as
    many right-hand-side values, [solve] completes when the engine returns
    that many values: the engine is given the right-hand sides and the
    initial guesses of the processes joined in rank order, and its solution
    comes back cut along the same boundaries, every process receiving in
    [X] as many values as it sent. *)
Theorem solve_gives_segments (engine : list V -> list V -> list V * Z)
  (root : Solve.state V) (others : list (Solve.state V)) :
  let g := root :: others in
  let Xs := concat (map Solve.X g) in
  let Bs := concat (map Solve.B g) in
  Solve.in_gpuWorld root = true ->
  Forall (fun s => Solve.in_gpuWorld s = false) others ->
  Solve.m_local_rows root = Z.of_nat (length Xs) ->
  length Bs = length Xs ->
  Z.of_nat (length Xs) < 2147483648 ->
  Z.of_nat (length g) < 2147483648 ->
  length (fst (engine Bs Xs)) = length Xs ->
  exists g',
    Solve.solve indeterminate indeterminate_int AMGX_SOLVE_SUCCESS engine
                (Z.of_nat (length g)) g = Some g' /\
    concat (map Solve.X g') = fst (engine Bs Xs) /\
    Forall2 (fun s s' => length (Solve.X s') = length (Solve.X s)) g g'.
Proof.
  intros g Xs Bs Hroot Hothers Hm HB Hmax Hn Hsol.
  unfold Solve.solve.
  subst g. cbn [map length] in *.
  set (n := Z.of_nat (S (length others))) in *.
  pose proof (on_group_gather Solve.gather_X_args Solve.gather_X_back
             (Solve.enter indeterminate indeterminate_int n root)
             (map (Solve.enter indeterminate indeterminate_int n) others)) as H1.
  cbn zeta in H1. cbn [length map] in H1. rewrite length_map, !map_map in H1.
  cbn [Solve.enter Solve.gather_X_args Solve.gather_X_back inArr outArr Apart Adisp
       Solve.X Solve.B Solve.m_local_rows Solve.in_gpuWorld Solve.AmgXP
       Solve.AmgXRHS Solve.stdout Solve.all_X Solve.all_B Solve.Apart_X
       Solve.Adisp_X Solve.Apart_B Solve.Adisp_B] in H1.
  fold n in H1.
  assert (Hrep : forall m, Forall (fun s : Solve.state V =>
                    length (Solve.Apart_X s) = S (length others) /\
                    length (Solve.Adisp_X s) = S (length others) /\
                    length (Solve.Apart_B s) = S (length others) /\
                    length (Solve.Adisp_B s) = S (length others))
                 (map (Solve.enter indeterminate indeterminate_int n) m)).
  { intros m. apply Forall_fmap, Forall_forall. intros s _. unfold compose.
    cbn [Solve.enter Solve.Apart_X Solve.Adisp_X Solve.Apart_B Solve.Adisp_B].
    rewrite !length_replicate. subst n. lia. }
  change (concat (Solve.X root :: map (fun x : Solve.state V => Solve.X x) others))
    with Xs in H1.
  set (sizesX := Z.of_nat (length (Solve.X root))
                 :: map (fun x : Solve.state V => Z.of_nat (length (Solve.X x))) others)
    in *.
  set (displsX := take (S (length others)) (offsets_from 0 sizesX)) in *.
  rewrite H1; clear H1.
  2:{ eapply Forall_impl; [exact (Hrep (root :: others))|]. cbn beta. tauto. }
  2:{ rewrite length_replicate, Hm. lia. }
  2:{ exact Hmax. }
  2:{ exact Hn. }
  cbn [mbind option_bind].
  rewrite drop_ge by (rewrite length_replicate, Hm; lia). rewrite app_nil_r.
  match goal with
  | |- context [Solve.on_group _ _ _ (?r1 :: map ?f others)] =>
      pose proof (on_group_gather Solve.gather_B_args Solve.gather_B_back
                    r1 (map f others)) as H2
  end.
  cbn zeta in H2. cbn [length map] in H2. rewrite length_map, !map_map in H2.
  cbn [Solve.enter Solve.gather_X_args Solve.gather_X_back
       Solve.gather_B_args Solve.gather_B_back inArr outArr Apart Adisp
       Solve.X Solve.B Solve.m_local_rows Solve.in_gpuWorld Solve.AmgXP
       Solve.AmgXRHS Solve.stdout Solve.all_X Solve.all_B Solve.Apart_X
       Solve.Adisp_X Solve.Apart_B Solve.Adisp_B] in H2.
  fold n in H2.
  change (concat (Solve.B root :: map (fun x : Solve.state V => Solve.B x) others))
    with Bs in H2.
  set (sizesB := Z.of_nat (length (Solve.B root))
                 :: map (fun x : Solve.state V => Z.of_nat (length (Solve.B x))) others)
    in *.
  set (displsB := take (S (length others)) (offsets_from 0 sizesB)) in *.
  rewrite H2; clear H2.
  2:{ constructor.
      - cbn [Solve.enter Solve.gather_X_back Solve.Apart_B Solve.Adisp_B].
        rewrite !length_replicate. subst n. lia.
      - apply Forall_fmap, Forall_forall. intros s _. unfold compose.
        cbn [Solve.enter Solve.gather_X_back Solve.Apart_B Solve.Adisp_B].
        rewrite !length_replicate. subst n. lia. }
  2:{ rewrite length_replicate, Hm. lia. }
  2:{ lia. }
  2:{ exact Hn. }
  cbn [mbind option_bind].
  rewrite drop_ge by (rewrite length_replicate, Hm; lia). rewrite app_nil_r.
  cbn [mapM]. 
  rewrite (mapM_pointwise _ (fun s => s)).
  2:{ apply Forall_fmap. eapply Forall_impl; [exact Hothers|].
      intros s Hs. unfold compose, Solve.engine_block.
      cbn [Solve.enter Solve.gather_X_back Solve.gather_B_back Solve.in_gpuWorld].
      rewrite Hs. reflexivity. }
  rewrite map_id.
  unfold Solve.engine_block.
  cbn [Solve.enter Solve.gather_X_back Solve.gather_B_back inArr outArr Apart Adisp
       Solve.X Solve.B Solve.m_local_rows Solve.in_gpuWorld Solve.AmgXP
       Solve.AmgXRHS Solve.stdout Solve.all_X Solve.all_B Solve.Apart_X
       Solve.Adisp_X Solve.Apart_B Solve.Adisp_B].
  rewrite Hroot.
  change (Arr.store Xs 0 (fst (engine Bs Xs)))
    with (Arr.store Xs (Z.of_nat 0) (fst (engine Bs Xs))).
  rewrite store_ok by (cbn [Nat.add]; lia).
  cbn [take Nat.add app mbind option_bind mret option_ret].
  rewrite drop_ge by lia. rewrite app_nil_r.
  destruct (cut_like (Solve.X root :: map Solve.X others) (fst (engine Bs Xs)) Hsol)
    as (ys & Hys & Hall).
  pose proof (describes_offsets (Solve.X root :: map Solve.X others)) as Hdesc.
  cbn [map length] in Hdesc. rewrite length_map, map_map in Hdesc.
  fold sizesX in Hdesc. fold displsX in Hdesc.
  apply (describes_lengths _ _ _ _ Hall) in Hdesc.
  unfold Solve.on_group, ScatterArray, MPI_Scatterv.
  cbn [map Solve.scatter_X_args Solve.all_X Solve.X Solve.Apart_X Solve.Adisp_X
       inArr Apart Adisp].
  rewrite map_map.
  rewrite take_0. cbn [app].
  match goal with
  | |- context [scatterv_all _ _ _ 0 ?l] =>
      destruct (scatterv_all_run l [] ys [] sizesX displsX Hdesc)
        as (got & Hrun & Hout & Hin)
  end.
  { inversion Hall as [|x y l l' Hxy Hrest]; subst.
    constructor; [cbn [Solve.scatter_X_args outArr Solve.X]; exact Hxy|].
    apply Forall2_fmap_l. apply Forall2_fmap_l in Hrest.
    eapply Forall2_impl; [exact Hrest|]. intros s y' Hs. exact Hs. }
  cbn [app length] in Hrun. rewrite app_nil_r, Hys in Hrun.
  cbn [Solve.scatter_X_args Solve.all_X Solve.X Solve.Apart_X Solve.Adisp_X] in Hrun.
  rewrite Hrun. cbn [mbind option_bind].
  eexists. split; [reflexivity|].
  assert (Hlen : length got = S (length others)).
  { rewrite <- (length_map outArr), Hout.
    apply Forall2_length in Hall. cbn [length] in Hall.
    rewrite length_map in Hall. lia. }
  assert (HX : forall l, length got = length l ->
                 map Solve.X (zip_with Solve.scatter_X_back got l) = ys).
  { intros l Hl. rewrite <- Hout.
    apply (zip_with_reads Solve.scatter_X_back Solve.X outArr); [exact Hl|].
    reflexivity. }
  split.
  - rewrite HX by (cbn [length]; rewrite length_map; exact Hlen). exact Hys.
  - apply Forall2_fmap_r with (f := Solve.X) (P := fun s x => length x = length (Solve.X s)).
    rewrite HX by (cbn [length]; rewrite length_map; exact Hlen).
    change (Solve.X root :: map Solve.X others) with (map Solve.X (root :: others)) in Hall.
    apply Forall2_fmap_l in Hall.
    eapply Forall2_impl; [exact Hall|]. intros s y Hs. unfold compose in Hs.
    symmetry. exact Hs.
Qed.

End SolveSegments.

Lemma solve_gives_segments_witness :
  let leader := {| Solve.X := [1; 2]; Solve.B := [10; 20];
                   Solve.m_local_rows := 3; Solve.in_gpuWorld := true;
                   Solve.AmgXP := []; Solve.AmgXRHS := []; Solve.stdout := [];
                   Solve.all_X := []; Solve.all_B := [];
                   Solve.Apart_X := []; Solve.Adisp_X := [];
                   Solve.Apart_B := []; Solve.Adisp_B := [] |} in
  let member := {| Solve.X := [3]; Solve.B := [30];
                   Solve.m_local_rows := 0; Solve.in_gpuWorld := false;
                   Solve.AmgXP := []; Solve.AmgXRHS := []; Solve.stdout := [];
                   Solve.all_X := []; Solve.all_B := [];
                   Solve.Apart_X := []; Solve.Adisp_X := [];
                   Solve.Apart_B := []; Solve.Adisp_B := [] |} in
  let engine := fun (rhs x : list Z) => (map (Z.add 1) rhs, 0) in
  exists g',
    Solve.solve 0 0 0 engine 2 [leader; member] = Some g' /\
    concat (map Solve.X g') = [11; 21; 31] /\
    Forall2 (fun s s' => length (Solve.X s') = length (Solve.X s)) [leader; member] g'.
Proof.
  cbn zeta.
  match goal with
  | |- exists g', Solve.solve _ _ _ ?e _ [?l; ?m] = Some g' /\ _ =>
      exact (solve_gives_segments 0 0 0 e l [m] eq_refl
               ltac:(repeat constructor) eq_refl eq_refl
               ltac:(cbn; lia) ltac:(cbn; lia) eq_refl)
  end.
Defined.

(** ** The exchange calls: what they leave alone *)

Lemma store_length {A : Type} (a : list A) (off : Z) (data r : list A) :
  Arr.store a off data = Some r -> length r = length a.
Proof.
  unfold Arr.store.
  destruct (Z.leb_spec 0 off) as [H0|]; [|discriminate].
  destruct (Z.leb_spec (off + Z.of_nat (length data)) (Z.of_nat (length a))) as [H1|];
    [|discriminate].
  cbn [andb]. intros E. injection E as <-.
  rewrite !length_app, length_take, length_drop. lia.
Qed.

Section ExchangeFrame.
Context {V : Type}.
Implicit Types r : xfer V.

Lemma gatherv_recv_length (sent : list (list V)) :
  forall (buf : list V) (counts displs : list Z) (i : nat) (buf' : list V),
    gatherv_recv buf counts displs i sent = Some buf' -> length buf' = length buf.
Proof.
  induction sent as [|x sent IH]; intros buf counts displs i buf' H.
  - injection H as <-. reflexivity.
  - cbn [gatherv_recv] in H.
    apply bind_Some in H as (n & _ & H). apply bind_Some in H as (d & _ & H).
    destruct (n =? Arr.size x); [|discriminate].
    apply bind_Some in H as (b & Hb & H).
    rewrite (IH _ _ _ _ _ H). eapply store_length, Hb.
Qed.

Lemma strides_outArr (n : Z) r r' :
  completed (strides n r) = Some r' -> outArr r' = outArr r.
Proof.
  unfold strides. destruct (Arr.set (Adisp r) 0 0) as [a|]; [|discriminate].
  unfold for_range.
  destruct (iterate next_disp 1 (Z.to_nat (n - 1)) (with_Adisp a r)) as [s|s] eqn:E;
    [|discriminate].
  cbn [completed]. intros H. injection H as <-.
  refine (iterate_invariant (fun s => outArr s = outArr r) next_disp _ _ _ _ _ _ E);
    [|reflexivity].
  intros idx s0 s' HP. unfold next_disp.
  destruct (Arr.get (Adisp s0) (Int.sub idx 1)); [|discriminate].
  destruct (Arr.get (Apart s0) (Int.sub idx 1)); [|discriminate].
  destruct (Arr.set (Adisp s0) idx _); [|discriminate].
  intros H. injection H as <-. exact HP.
Qed.

(** X2. Whenever [GatherArray] completes on a group, no process has
    lost what it sent, no process but the root has had its receive array
    touched, and the root's receive array has the size it had: the gather
    writes into the root's array in place. *)
Theorem GatherArray_frame (n : Z) (g g' : list (xfer V)) :
  GatherArray n g = Some g' ->
  map inArr g' = map inArr g /\
  map outArr (tail g') = map outArr (tail g) /\
  map (fun r => length (outArr r)) g' = map (fun r => length (outArr r)) g.
Proof.
  intros H. split.
  { apply same_inArr_map. eapply GatherArray_keeps, H. }
  unfold GatherArray in H.
  apply bind_Some in H as (g1 & H1 & H).
  apply bind_Some in H as (g2 & H2 & H3).
  apply mapM_Some_1 in H1. apply mapM_Some_1 in H2.
  assert (F1 : Forall2 (fun r r' => outArr r' = outArr r) g g1).
  { eapply Forall2_impl; [exact H1|]. intros r r1 Hr. cbn beta in Hr.
    apply bind_Some in Hr as (a & _ & Hr). injection Hr as <-. reflexivity. }
  assert (F2 : Forall2 (fun r r' => outArr r' = outArr r) g1 g2).
  { eapply Forall2_impl; [exact H2|]. intros r r2 Hr. eapply strides_outArr, Hr. }
  assert (F : Forall2 (fun r r' => outArr r' = outArr r) g g2).
  { eapply Forall2_trans; [|exact F1|exact F2].
    intros r r1 r2 E1 E2. cbn beta in *. rewrite E2. exact E1. }
  assert (Fm : forall l l' : list (xfer V),
             Forall2 (fun r r' => outArr r' = outArr r) l l' ->
             map outArr l' = map outArr l).
  { induction 1 as [|r r' l l' Hr _ IH]; [reflexivity|].
    cbn [map]. rewrite Hr, IH. reflexivity. }
  unfold MPI_Gatherv in H3. destruct g2 as [|root others].
  - injection H3 as <-. inversion F; subst. split; reflexivity.
  - apply bind_Some in H3 as (buf & Hbuf & H3). injection H3 as <-.
    inversion F as [|r0 r0' l l' Hr0 Hrest]; subst.
    cbn [tail map with_outArr outArr]. split; [apply Fm, Hrest|].
    rewrite (gatherv_recv_length _ _ _ _ _ _ Hbuf), Hr0. f_equal.
    rewrite <- !(map_map outArr (@length V)). f_equal. apply Fm, Hrest.
Qed.

(** X3. Whenever [ScatterArray] completes on a group, every process
    has the send array and the two descriptor arrays it had, and a receive
    array of the size it had: the elements arrive in place. *)
Theorem ScatterArray_frame (n : Z) (g g' : list (xfer V)) :
  ScatterArray n g = Some g' ->
  Forall2 (fun r r' =>
             inArr r' = inArr r /\ Apart r' = Apart r /\ Adisp r' = Adisp r /\
             length (outArr r') = length (outArr r)) g g'.
Proof.
  unfold ScatterArray, MPI_Scatterv. destruct g as [|root others].
  { intros H. injection H as <-. constructor. }
  generalize (inArr root) (Apart root) (Adisp root) 0%nat (root :: others).
  clear. intros sendbuf counts displs i g. revert i g'.
  induction g as [|r g IH]; intros i g' H.
  - injection H as <-. constructor.
  - cbn [scatterv_all] in H.
    apply bind_Some in H as (r' & Hr & H).
    apply bind_Some in H as (rest & Hrest & H). injection H as <-.
    constructor; [|eapply IH, Hrest].
    unfold scatterv_recv in Hr.
    apply bind_Some in Hr as (c & _ & Hr). apply bind_Some in Hr as (d & _ & Hr).
    destruct (Z.leb_spec c (Arr.size (outArr r))) as [Hc|]; [|discriminate].
    apply bind_Some in Hr as (data & Hdata & Hr).
    apply bind_Some in Hr as (o & Ho & Hr). injection Hr as <-.
    cbn [with_outArr inArr outArr Apart Adisp].
    repeat split; try reflexivity. eapply store_length, Ho.
Qed.

End ExchangeFrame.

Lemma GatherArray_frame_witness :
  let root := {| inArr := [1; 2]; outArr := [0; 0; 0; 0]; Apart := [0; 0];
                 Adisp := [0; 0] |} in
  let member := {| inArr := [3]; outArr := [7]; Apart := [0; 0];
                   Adisp := [0; 0] |} in
  exists g',
    GatherArray 2 [root; member] = Some g' /\
    map inArr g' = [[1; 2]; [3]] /\
    map outArr (tail g') = [[7]] /\
    map (fun r => length (outArr r)) g' = [4%nat; 1%nat].
Proof.
  cbn zeta.
  match goal with
  | |- exists g', ?run = Some g' /\ _ => destruct run as [g'|] eqn:Hrun
  end.
  - exists g'. split; [reflexivity|].
    exact (GatherArray_frame _ _ _ Hrun).
  - vm_compute in Hrun. discriminate.
Defined.

Lemma ScatterArray_frame_witness :
  let root := {| inArr := [1; 2; 3; 9]; outArr := [0; 0; 0]; Apart := [2; 1];
                 Adisp := [0; 2] |} in
  let member := {| inArr := [5]; outArr := [7]; Apart := [4]; Adisp := [] |} in
  exists g',
    ScatterArray 2 [root; member] = Some g' /\
    Forall2 (fun r r' =>
               inArr r' = inArr r /\ Apart r' = Apart r /\ Adisp r' = Adisp r /\
               length (outArr r') = length (outArr r)) [root; member] g'.
Proof.
  cbn zeta.
  match goal with
  | |- exists g', ?run = Some g' /\ _ => destruct run as [g'|] eqn:Hrun
  end.
  - exists g'. split; [reflexivity|].
    exact (ScatterArray_frame _ _ _ Hrun).
  - vm_compute in Hrun. discriminate.
Defined.

(** ** setDeviceIDs: as many devices as processes, or more *)

(** X4. When the node has at least as many devices as processes, every
    process takes the device of its own node-local rank and is a leader;
    the notice about unused devices is printed exactly when there are more
    devices than processes, and carries the device count. *)
Theorem setDeviceIDs_enough_devices (nDevs : Z) (t : topology) :
  localSize t <= nDevs ->
  devID (setDeviceIDs nDevs t) = myLocalRank t /\
  gpuProc (setDeviceIDs nDevs t) = 0 /\
  printed (setDeviceIDs nDevs t)
  = printed t ++ (if localSize t <? nDevs then [MsgMoreDevices nDevs] else []) /\
  localSize (setDeviceIDs nDevs t) = localSize t /\
  myLocalRank (setDeviceIDs nDevs t) = myLocalRank t.
Proof.
  intros H. unfold setDeviceIDs.
  destruct (Z.eqb_spec nDevs (localSize t)) as [E|E].
  - destruct (Z.ltb_spec (localSize t) nDevs); [lia|].
    cbn. rewrite app_nil_r. repeat split; reflexivity.
  - destruct (Z.gtb_spec nDevs (localSize t)) as [_|]; [|lia].
    destruct (Z.ltb_spec (localSize t) nDevs); [|lia].
    cbn. repeat split; reflexivity.
Qed.

Lemma setDeviceIDs_enough_devices_witness :
  let t := rank_topology 2 1 (-32766) in
  devID (setDeviceIDs 4 t) = 1 /\
  gpuProc (setDeviceIDs 4 t) = 0 /\
  printed (setDeviceIDs 4 t) = [MsgMoreDevices 4].
Proof.
  cbn zeta.
  destruct (setDeviceIDs_enough_devices 4 (rank_topology 2 1 (-32766))
              ltac:(cbn; lia)) as (Hd & Hg & Hp & _).
  split; [exact Hd|]. split; [exact Hg|exact Hp].
Defined.

(** X5. For a positive device count, [setDeviceIDs] sets [gpuProc] to 0
    or leaves it as it was, and prints nothing unless there are more devices
    than processes: a process that comes in as a leader comes out as one,
    whatever its rank. *)
Theorem setDeviceIDs_never_demotes (nDevs : Z) (t : topology) :
  1 <= nDevs ->
  (gpuProc (setDeviceIDs nDevs t) = 0 \/
   gpuProc (setDeviceIDs nDevs t) = gpuProc t) /\
  (gpuProc t = 0 -> gpuProc (setDeviceIDs nDevs t) = 0) /\
  (nDevs <= localSize t -> printed (setDeviceIDs nDevs t) = printed t).
Proof.
  intros _. unfold setDeviceIDs.
  destruct (Z.eqb_spec nDevs (localSize t)) as [E|E];
    [cbn; repeat split; auto|].
  destruct (Z.gtb_spec nDevs (localSize t)) as [G|G];
    [cbn; repeat split; auto; lia|].
  destruct (myLocalRank t <? _).
  - destruct (Int.rem (myLocalRank t) _ =? 0); cbn; repeat split; auto.
  - destruct (Int.rem _ _ =? 0); cbn; repeat split; auto.
Qed.

Lemma setDeviceIDs_never_demotes_witness :
  gpuProc (setDeviceIDs 2 (rank_topology 5 1 0)) = 0 /\
  printed (setDeviceIDs 2 (rank_topology 5 1 0)) = [].
Proof.
  destruct (setDeviceIDs_never_demotes 2 (rank_topology 5 1 0) ltac:(lia))
    as (_ & Hkeep & Hprint).
  split; [exact (Hkeep eq_refl)|exact (Hprint ltac:(cbn; lia))].
Defined.

(** ** finalize and the destructor *)


(** With live handles, or when errors return, [finalize] under a handler
    is [finalize]; and whenever it completes it has done what [finalize]
    does. *)
Lemma do_calls_twice (a b : list Lifecycle.call) (p : Lifecycle.process) :
  Lifecycle.do_calls b (Lifecycle.do_calls a p) = Lifecycle.do_calls (a ++ b) p.
Proof. unfold Lifecycle.do_calls. cbn. rewrite app_assoc. reflexivity. Qed.

Lemma finalize_under_done (MPI_UNDEFINED : Z) (h : errhandler)
  (ip once : Lifecycle.instance * Lifecycle.process) :
  finalize_under MPI_UNDEFINED h ip = Done once ->
  once = Lifecycle.finalize MPI_UNDEFINED ip.
Proof.
  destruct ip as [i p]. unfold finalize_under, Lifecycle.finalize.
  match goal with
  | |- context [Done (with_gpuProc _ _, ?q)] => generalize q
  end.
  intros p2. unfold free_handle.
  destruct i as [ini gp gc lc dc gw so aa ap ar cf].
  destruct gc, lc, dc, h;
    cbn [and_then fst snd with_gpuProc with_globalCpuWorld with_localCpuWorld
         with_devWorld with_isInitialized Lifecycle.globalCpuWorld
         Lifecycle.localCpuWorld Lifecycle.devWorld Lifecycle.isInitialized
         Lifecycle.gpuProc Lifecycle.gpuWorld Lifecycle.solver Lifecycle.AmgXA
         Lifecycle.AmgXP Lifecycle.AmgXRHS Lifecycle.cfg];
    try discriminate;
    intros H; injection H as <-; rewrite !do_calls_twice; reflexivity.
Qed.

Lemma finalize_under_live (MPI_UNDEFINED : Z) (h : errhandler)
  (i : Lifecycle.instance) (p : Lifecycle.process) :
  h = MPI_ERRORS_RETURN \/
  (Lifecycle.globalCpuWorld i <> Lifecycle.MPI_COMM_NULL /\
   Lifecycle.localCpuWorld i <> Lifecycle.MPI_COMM_NULL /\
   Lifecycle.devWorld i <> Lifecycle.MPI_COMM_NULL) ->
  finalize_under MPI_UNDEFINED h (i, p) = Done (Lifecycle.finalize MPI_UNDEFINED (i, p)).
Proof.
  intros H.
  destruct (finalize_under MPI_UNDEFINED h (i, p)) as [once|bad] eqn:E.
  - f_equal. eapply finalize_under_done, E.
  - exfalso. revert E. unfold finalize_under.
    match goal with
    | |- context [Done (with_gpuProc _ _, ?q)] => generalize q
    end.
    intros p2. unfold free_handle.
    destruct i as [ini gp gc lc dc gw so aa ap ar cf].
    cbn [Lifecycle.globalCpuWorld Lifecycle.localCpuWorld Lifecycle.devWorld] in H.
    destruct H as [->|(H1 & H2 & H3)].
    + destruct gc, lc, dc; cbn; discriminate.
    + destruct gc, lc, dc; try contradiction; destruct h; cbn; discriminate.
Qed.

(** X7. A second [finalize] on an instance on which a first one has
    completed, with [MPI_UNDEFINED] other than 0, is not skipped: it prints
    the diagnostic, makes no call into the solve engine and calls
    [MPI_Comm_free] on the null handle of [globalCpuWorld].  Under the
    default handler, where errors are fatal, the run ends at that call,
    the instance counter not yet touched; where errors return, the three
    calls on null handles return and the counter goes down once more. *)
Theorem finalize_twice (MPI_UNDEFINED : Z) (h : errhandler)
  (i : Lifecycle.instance) (p : Lifecycle.process)
  (once : Lifecycle.instance * Lifecycle.process) :
  MPI_UNDEFINED <> 0 ->
  finalize_under MPI_UNDEFINED h (i, p) = Done once ->
  finalize_under MPI_UNDEFINED h once
  = match h with
    | MPI_ERRORS_ARE_FATAL =>
        Fault (fst once,
               Lifecycle.do_calls [Lifecycle.MPI_Comm_free Lifecycle.MPI_COMM_NULL]
                 (Lifecycle.print MsgNotInitialized (snd once)))
    | MPI_ERRORS_RETURN =>
        Done (fst once,
              Lifecycle.set_count (Int.sub (Lifecycle.count (snd once)) 1)
                (Lifecycle.do_calls
                   [Lifecycle.MPI_Comm_free Lifecycle.MPI_COMM_NULL;
                    Lifecycle.MPI_Comm_free Lifecycle.MPI_COMM_NULL;
                    Lifecycle.MPI_Comm_free Lifecycle.MPI_COMM_NULL]
                   (Lifecycle.print MsgNotInitialized (snd once))))
    end.
Proof.
  intros HU Hdone. apply finalize_under_done in Hdone.
  destruct once as [i1 p1].
  assert (Hi : Lifecycle.isInitialized i1 = false /\
               Lifecycle.gpuProc i1 = MPI_UNDEFINED /\
               Lifecycle.globalCpuWorld i1 = Lifecycle.MPI_COMM_NULL /\
               Lifecycle.localCpuWorld i1 = Lifecycle.MPI_COMM_NULL /\
               Lifecycle.devWorld i1 = Lifecycle.MPI_COMM_NULL).
  { unfold Lifecycle.finalize in Hdone. injection Hdone as -> _.
    repeat split; reflexivity. }
  clear Hdone. destruct i1 as [ini gp gc lc dc gw so aa ap ar cf].
  cbn [Lifecycle.isInitialized Lifecycle.gpuProc Lifecycle.globalCpuWorld
       Lifecycle.localCpuWorld Lifecycle.devWorld] in Hi.
  destruct Hi as (-> & -> & -> & -> & ->).
  unfold finalize_under, free_handle.
  cbn [negb fst snd Lifecycle.isInitialized Lifecycle.gpuProc].
  destruct (Z.eqb_spec MPI_UNDEFINED 0) as [|_]; [contradiction|].
  destruct h;
    cbn [and_then fst snd Lifecycle.globalCpuWorld Lifecycle.localCpuWorld
         Lifecycle.devWorld Lifecycle.isInitialized Lifecycle.gpuProc
         Lifecycle.gpuWorld Lifecycle.solver Lifecycle.AmgXA Lifecycle.AmgXP
         Lifecycle.AmgXRHS Lifecycle.cfg
         with_gpuProc with_globalCpuWorld with_localCpuWorld with_devWorld
         with_isInitialized];
    rewrite ?do_calls_twice; reflexivity.
Qed.

Lemma finalize_twice_witness :
  let i := {| Lifecycle.isInitialized := true; Lifecycle.gpuProc := 0;
              Lifecycle.globalCpuWorld := Lifecycle.Comm 1;
              Lifecycle.localCpuWorld := Lifecycle.Comm 2;
              Lifecycle.devWorld := Lifecycle.Comm 3;
              Lifecycle.gpuWorld := Lifecycle.Comm 4;
              Lifecycle.solver := 10; Lifecycle.AmgXA := 11;
              Lifecycle.AmgXP := 12; Lifecycle.AmgXRHS := 13;
              Lifecycle.cfg := 14 |} in
  let p := {| Lifecycle.count := 2; Lifecycle.rsrc := 20;
              Lifecycle.stdout := []; Lifecycle.calls := [] |} in
  let once := Lifecycle.finalize (-32766) (i, p) in
  finalize_under (-32766) MPI_ERRORS_ARE_FATAL (i, p) = Done once /\
  finalize_under (-32766) MPI_ERRORS_ARE_FATAL once
  = Fault (fst once,
           Lifecycle.do_calls [Lifecycle.MPI_Comm_free Lifecycle.MPI_COMM_NULL]
             (Lifecycle.print MsgNotInitialized (snd once))).
Proof.
  cbn zeta. split; [reflexivity|].
  match goal with
  | |- finalize_under _ _ (Lifecycle.finalize _ (?i, ?p)) = _ =>
      exact (finalize_twice (-32766) MPI_ERRORS_ARE_FATAL i p
               (Lifecycle.finalize (-32766) (i, p)) ltac:(lia) eq_refl)
  end.
Defined.

(** X8. The destructor after an explicit [finalize] does nothing, and
    on an initialized instance it is [finalize]: an instance that is
    finalized and then destroyed is counted out once. *)
Theorem destructor_finalizes_once (MPI_UNDEFINED : Z)
  (ip : Lifecycle.instance * Lifecycle.process) :
  destructor MPI_UNDEFINED (Lifecycle.finalize MPI_UNDEFINED ip)
  = Lifecycle.finalize MPI_UNDEFINED ip /\
  destructor MPI_UNDEFINED (destructor MPI_UNDEFINED ip)
  = destructor MPI_UNDEFINED ip /\
  Lifecycle.count (snd (destructor MPI_UNDEFINED (destructor MPI_UNDEFINED ip)))
  = if Lifecycle.isInitialized (fst ip) then Int.sub (Lifecycle.count (snd ip)) 1
    else Lifecycle.count (snd ip).
Proof.
  destruct ip as [i p]. unfold destructor.
  change (Lifecycle.isInitialized (fst (Lifecycle.finalize MPI_UNDEFINED (i, p))))
    with false.
  cbn [fst snd]. destruct (Lifecycle.isInitialized i) eqn:E.
  - change (Lifecycle.isInitialized (fst (Lifecycle.finalize MPI_UNDEFINED (i, p))))
      with false.
    cbn iota. split; [reflexivity|]. split; [reflexivity|].
    unfold Lifecycle.finalize. rewrite E.
    cbn [negb snd Lifecycle.set_count Lifecycle.do_calls Lifecycle.count].
    destruct (Lifecycle.gpuProc i =? 0);
      [destruct (Lifecycle.count p =? 1)|]; reflexivity.
  - cbn [fst snd]. rewrite E. repeat split; reflexivity.
Qed.

(** ** The merge works in place *)

Lemma set_length {A : Type} (a : list A) (i : Z) (v : A) (r : list A) :
  Arr.set a i v = Some r -> length r = length a.
Proof.
  unfold Arr.set. destruct ((0 <=? i) && (i <? Z.of_nat (length a))); [|discriminate].
  intros H. injection H as <-. apply length_insert.
Qed.

Section InPlace.
Context {V : Type}.
Implicit Types s : leader_arrays V.
Implicit Types f g : leader_arrays V -> outcome (leader_arrays V).

Lemma size_and_then f g :
  keeps_size f -> keeps_size g -> keeps_size (fun s => f s >>> g).
Proof.
  intros Hf Hg s. specialize (Hf s). destruct (f s) as [s1|s1]; cbn in *.
  - rewrite Hg. exact Hf.
  - exact Hf.
Qed.

Lemma size_iterate (body : Z -> leader_arrays V -> outcome (leader_arrays V))
  (n : nat) :
  (forall idx, keeps_size (body idx)) -> forall idx, keeps_size (iterate body idx n).
Proof.
  intros Hb. induction n as [|n IH]; intros idx.
  - intros s. reflexivity.
  - cbn [iterate]. apply (size_and_then (body idx) (iterate body (idx + 1) n)).
    + apply Hb.
    + apply IH.
Qed.

Lemma size_for_range (body : Z -> leader_arrays V -> outcome (leader_arrays V))
  (lo : Z) (hi : leader_arrays V -> Z) :
  (forall idx, keeps_size (body idx)) ->
  keeps_size (fun s => for_range body lo (hi s) s).
Proof. intros Hb s. unfold for_range. apply size_iterate, Hb. Qed.

Lemma size_write_I (idx : leader_arrays V -> Z) (v : leader_arrays V -> Z) :
  keeps_size (fun s => write_I (idx s) (v s) s).
Proof.
  intros s. unfold write_I.
  destruct (Arr.set (all_I s) (idx s) (v s)) as [a|] eqn:E; [|reflexivity].
  cbn. eapply set_length, E.
Qed.

Lemma size_write_z (i : leader_arrays V -> Z) (v : leader_arrays V -> Z) :
  keeps_size (fun s => write_z (i s) (v s) s).
Proof.
  intros s. unfold write_z. destruct (Arr.set (z_ind s) (i s) (Some (v s)));
    reflexivity.
Qed.

Lemma size_note_zero (idx : Z) : keeps_size (V:=V) (note_zero idx).
Proof.
  intros s. unfold note_zero. destruct (read_I s idx) as [v|]; [|reflexivity].
  destruct (v =? 0); [|reflexivity].
  apply (size_and_then (fun s => write_z (counter s) (Int.sub idx 1) s)
           (fun s1 => Done (with_counter (Int.add (counter s1) 1) s1))).
  - apply size_write_z.
  - intros s1. reflexivity.
Qed.

Lemma size_find_zeros (k : Z) : keeps_size (V:=V) (find_zeros k).
Proof.
  unfold find_zeros.
  apply (size_and_then
           (fun s => write_z 0 0 (with_counter 0 s) >>> _)
           (fun s2 => write_z k (Int.sub (Arr.size (all_I s2)) 1) s2)).
  - apply (size_and_then (fun s => write_z 0 0 (with_counter 0 s))).
    + intros s. exact (size_write_z (fun _ => 0) (fun _ => 0) (with_counter 0 s)).
    + intros s1.
      exact (size_for_range note_zero 1
               (fun s => Int.sub (Arr.size (all_I s)) 1) size_note_zero
               (with_counter (Int.add (counter s1) 1) s1)).
  - apply size_write_z.
Qed.

Lemma size_bump_at (idx : Z) : keeps_size (V:=V) (bump_at idx).
Proof.
  intros s. unfold bump_at.
  destruct (read_I s (Int.sub idx 1)) as [a|]; [|reflexivity].
  destruct (read_I s (Int.add idx 1)) as [b|]; [|reflexivity].
  destruct (read_I s idx) as [c|]; [|reflexivity].
  apply (size_write_I (fun _ => idx) (fun _ => Int.add a (Int.sub b c))).
Qed.

Lemma size_shift_at (idx : Z) : keeps_size (V:=V) (shift_at idx).
Proof.
  intros s. unfold shift_at.
  destruct (read_I s (Int.add idx 1)) as [b|]; [|reflexivity].
  apply (size_write_I (fun _ => idx) (fun _ => b)).
Qed.

Lemma size_merge_pass (k iter : Z) : keeps_size (V:=V) (merge_pass k iter).
Proof.
  unfold merge_pass. apply size_and_then; [apply size_find_zeros|].
  intros s1. destruct (read_z s1 1) as [z1|]; [|reflexivity].
  destruct (read_z s1 2) as [z2|]; [|reflexivity].
  apply (size_and_then (fun s => for_range bump_at (Int.add z1 1) z2 s)
           (fun s2 => for_range shift_at z2 (Int.sub (Arr.size (all_I s2)) 1) s2)).
  - apply (size_for_range bump_at (Int.add z1 1) (fun _ => z2)), size_bump_at.
  - apply (size_for_range shift_at z2), size_shift_at.
Qed.

Lemma size_merge_last (k n : Z) : keeps_size (V:=V) (merge_last k n).
Proof.
  unfold merge_last. apply size_and_then; [apply size_find_zeros|].
  intros s1. destruct (read_z s1 1) as [z1|]; [|reflexivity].
  apply (size_and_then
           (fun s => for_range bump_at (Int.add z1 1)
                       (Int.sub (Arr.size (all_I s)) 1) s)).
  - apply (size_for_range bump_at (Int.add z1 1)), size_bump_at.
  - intros s2.
    destruct (read_I s2 (Int.sub (Arr.size (all_I s2)) k)); reflexivity.
Qed.

(** X9. The merge block of [setA] works in place: whatever the leader
    holds, and whether the block completes or stops at a faulting access,
    [all_I] has the size it had, so that after a merge of [k] fragments its
    last [k - 1] slots are left over. *)
Theorem setA_merge_in_place (myDevWorldRank devWorldSize nDevRows : Z)
  (s : leader_arrays V) :
  length (all_I (state_of (setA_merge myDevWorldRank devWorldSize nDevRows s)))
  = length (all_I s).
Proof.
  unfold setA_merge. destruct (myDevWorldRank =? 0); [|reflexivity].
  unfold merge_rowptr. set (s0 := with_z_ind _ s).
  change (all_I s) with (all_I s0).
  apply (size_and_then
           (iterate (merge_pass devWorldSize) 1
              (Z.to_nat (Int.sub devWorldSize 1 - 1)))
           (merge_last devWorldSize nDevRows)).
  - apply size_iterate. intros idx. apply size_merge_pass.
  - apply size_merge_last.
Qed.

End InPlace.

(** ** setA: from the fragments to the arrays the merge starts from *)

Lemma allreduce_small (xs : list Z) :
  Forall (fun x => 0 <= x) xs -> sum_list xs < 2147483648 ->
  MPI_Allreduce_sum xs = sum_list xs.
Proof.
  induction 1 as [|x xs Hx Hxs IH]; intros Hsum; [reflexivity|].
  unfold MPI_Allreduce_sum, sum_list in *. cbn [foldr] in *.
  pose proof (sum_list_nonneg xs Hxs) as Hnn. unfold sum_list in Hnn.
  rewrite IH by lia. apply int_add_small. lia.
Qed.

Lemma zip_with_same {A B C D : Type} (F : B -> C -> D) (f : A -> B) (h : A -> C)
  (l : list A) :
  zip_with F (map f l) (map h l) = map (fun x => F (f x) (h x)) l.
Proof.
  induction l as [|x l IH]; [reflexivity|].
  cbn [map zip_with]. rewrite IH. reflexivity.
Qed.

Lemma zip_with_const {A B C : Type} (F : A -> B -> C) (c : B) (l : list A) :
  zip_with F l (map (fun _ => c) l) = map (fun x => F x c) l.
Proof.
  induction l as [|x l IH]; [reflexivity|].
  cbn [map zip_with]. rewrite IH. reflexivity.
Qed.

Section GatherOverloads.
Variable indeterminate_int : Z.

Lemma GatherArray_local_run {A : Type} (root_in root_out : list A)
  (others : list (list A * list A)) :
  let xs := root_in :: map fst others in
  length root_out = length (concat xs) ->
  Z.of_nat (length (concat xs)) < 2147483648 ->
  Z.of_nat (S (length others)) < 2147483648 ->
  GatherArray_local indeterminate_int (Z.of_nat (S (length others)))
    ((root_in, root_out) :: others)
  = Some ((root_in, concat xs) :: others).
Proof.
  intros xs Hout Hsum Hn. unfold GatherArray_local. cbn [map fst snd].
  match goal with
  | |- context [GatherArray _ (?r :: map ?f others)] =>
      pose proof (GatherArray_run r (map f others)) as Hrun
  end.
  cbn zeta in Hrun. cbn [length map inArr outArr] in Hrun.
  rewrite length_map, !map_map in Hrun. cbn [inArr] in Hrun.
  change (map (fun x : list A * list A => fst x) others) with (map fst others) in Hrun.
  fold xs in Hrun. rewrite Hrun; try first [assumption | lia].
  - cbn [mbind option_bind map inArr outArr].
    rewrite drop_ge by lia. rewrite app_nil_r. do 3 f_equal.
    rewrite map_map. cbn [inArr outArr].
    rewrite <- (map_id others) at 2. apply map_ext. intros [i o]. reflexivity.
  - constructor.
    + cbn [Apart Adisp]. rewrite !length_replicate. lia.
    + apply Forall_fmap, Forall_forall. intros io _. unfold compose.
      cbn [Apart Adisp]. rewrite !length_replicate. lia.
Qed.

Lemma GatherArray_rowInfo_run (root_in root_out : list Z)
  (others : list (list Z * (list Z * list Z))) :
  let xs := root_in :: map (fun aio => fst (snd aio)) others in
  let sizes := map (fun x : list Z => Z.of_nat (length x)) xs in
  length root_out = length (concat xs) ->
  Forall (fun aio => fst aio = []) others ->
  Z.of_nat (length (concat xs)) < 2147483648 ->
  Z.of_nat (S (length others)) < 2147483648 ->
  GatherArray_rowInfo indeterminate_int (Z.of_nat (S (length others)))
    (([], (root_in, root_out)) :: others)
  = Some ((sizes, (root_in, concat xs))
          :: map (fun aio => (sizes, snd aio)) others).
Proof.
  intros xs sizes Hout Hnil Hsum Hn. unfold GatherArray_rowInfo. cbn [map fst snd].
  match goal with
  | |- context [GatherArray _ (?r :: map ?f others)] =>
      pose proof (GatherArray_run r (map f others)) as Hrun
  end.
  cbn zeta in Hrun. cbn [length map inArr outArr] in Hrun.
  rewrite length_map, !map_map in Hrun. cbn [inArr] in Hrun.
  fold xs in Hrun. rewrite Hrun; try first [assumption | lia].
  - cbn [mbind option_bind map inArr outArr Apart].
    rewrite drop_ge by lia. rewrite app_nil_r.
    subst sizes xs. cbn [map]. rewrite !map_map. cbn [inArr outArr Apart].
    do 2 f_equal. apply map_ext. intros [a [i o]]. reflexivity.
  - assert (Hfresh : forall a : list Z,
               a = [] ->
               length (SetSize (Z.of_nat (S (length others))) indeterminate_int a)
               = S (length others)).
    { intros a ->. unfold SetSize. rewrite take_nil, length_app, length_replicate.
      cbn [length]. lia. }
    constructor.
    + cbn [Apart Adisp]. rewrite Hfresh, length_replicate by reflexivity. lia.
    + apply Forall_fmap. eapply Forall_impl; [exact Hnil|].
      intros aio Ha. unfold compose. cbn [Apart Adisp].
      rewrite (Hfresh _ Ha), length_replicate. lia.
Qed.

End GatherOverloads.

Lemma rows_of_sum (frags : list (list Z)) :
  rows_of frags = sum_list (map (fun f => Z.of_nat (length f) - 1) frags).
Proof.
  induction frags as [|f frags IH]; [reflexivity|].
  unfold rows_of, sum_list in *. cbn [map foldr]. rewrite IH. reflexivity.
Qed.

Lemma rows_of_group {V : Type} (g : list (local_csr V)) :
  Forall (fun l => Z.of_nat (length (loc_I l)) = loc_row_len l + 1 /\
                   0 <= loc_row_len l) g ->
  sum_list (map loc_row_len g) = rows_of (map loc_I g) /\
  rows_of (map loc_I g) + Z.of_nat (length g)
  = Z.of_nat (length (concat (map loc_I g))) /\
  Forall (fun x => 0 <= x) (map loc_row_len g).
Proof.
  induction 1 as [|l g [Hl Hnn] _ (IH1 & IH2 & IH3)].
  - repeat split. constructor.
  - cbn [map concat length]. rewrite length_app.
    unfold sum_list, rows_of in *. cbn [foldr]. rewrite IH1.
    split; [lia|]. split; [lia|]. constructor; assumption.
Qed.

(** X10. On a device group in which every process brings a row pointer
    of one entry more than its rows, with the three totals within [int],
    the gathers of [setA] complete; [nDevRows] is the number of rows of
    the group; the leader's [all_I] is exactly filled by the row pointers
    one after the other, its [all_J] and [all_A] by the columns and the
    values in rank order; the other processes hold empty arrays. *)
Theorem setA_gather_concatenates {V : Type} (indeterminate : V)
  (indeterminate_int : Z) (root : local_csr V) (others : list (local_csr V)) :
  Forall (fun l => Z.of_nat (length (loc_I l)) = loc_row_len l + 1 /\
                   0 <= loc_row_len l) (root :: others) ->
  Z.of_nat (length (concat (map loc_I (root :: others)))) < 2147483648 ->
  Z.of_nat (length (concat (map loc_J (root :: others)))) < 2147483648 ->
  Z.of_nat (length (concat (map loc_A (root :: others)))) < 2147483648 ->
  setA_gather indeterminate indeterminate_int (Z.of_nat (S (length others)))
              (root :: others)
  = Some (rows_of (map loc_I (root :: others)),
          gathered (map loc_I (root :: others))
                   (concat (map loc_J (root :: others)))
                   (concat (map loc_A (root :: others)))
          :: map (fun _ => gathered [] [] []) others).
Proof.
  intros Hrows HI HJ HA.
  destruct (rows_of_group _ Hrows) as (Hsum & Htot & Hnn).
  assert (Hlen : Z.of_nat (S (length others)) < 2147483648).
  { pose proof (sum_list_nonneg _ Hnn) as H0. cbn [length] in Htot. lia. }
  unfold setA_gather.
  rewrite (allreduce_small (map loc_row_len (root :: others))) by (first [exact Hnn | lia]).
  rewrite (allreduce_small (map (fun l => Arr.size (loc_J l)) (root :: others))).
  2:{ apply Forall_fmap, Forall_forall. intros l _. unfold compose, Arr.size. lia. }
  2:{ unfold Arr.size. rewrite <- (map_map loc_J (fun x => Z.of_nat (length x))).
      rewrite sum_sizes_concat. exact HJ. }
  rewrite (allreduce_small (map (fun l => Arr.size (loc_A l)) (root :: others))).
  2:{ apply Forall_fmap, Forall_forall. intros l _. unfold compose, Arr.size. lia. }
  2:{ unfold Arr.size. rewrite <- (map_map loc_A (fun x => Z.of_nat (length x))).
      rewrite sum_sizes_concat. exact HA. }
  unfold Arr.size.
  rewrite <- (map_map loc_J (fun x => Z.of_nat (length x))),
          <- (map_map loc_A (fun x => Z.of_nat (length x))), !sum_sizes_concat.
  rewrite Hsum. rewrite int_add_small by (cbn [length] in Htot; lia).
  replace (rows_of (map loc_I (root :: others)) + Z.of_nat (S (length others)))
    with (Z.of_nat (length (concat (map loc_I (root :: others)))))
    by (cbn [length] in Htot; lia).
  unfold on_leader. cbn [zip_with]. rewrite !zip_with_const, !Nat2Z.id.
  pose proof (GatherArray_rowInfo_run indeterminate_int (loc_I root)
                (replicate (length (concat (map loc_I (root :: others))))
                           indeterminate_int)
                (map (fun x : local_csr V => ([], (loc_I x, @nil Z))) others)) as HgI.
  cbn zeta in HgI. rewrite length_map, !map_map in HgI. cbn [fst snd] in HgI.
  change (loc_I root :: map (fun x : local_csr V => loc_I x) others)
    with (map loc_I (root :: others)) in HgI.
  rewrite HgI; clear HgI;
    try first [ assumption | (rewrite length_replicate; reflexivity)
              | (cbn [length] in Htot; lia) ].
  2:{ apply Forall_fmap, Forall_forall. intros l _. reflexivity. }
  cbn [mbind option_bind].
  pose proof (GatherArray_local_run indeterminate_int (loc_J root)
                (replicate (length (concat (map loc_J (root :: others)))) 0)
                (map (fun x : local_csr V => (loc_J x, @nil Z)) others)) as HgJ.
  cbn zeta in HgJ. rewrite length_map, !map_map in HgJ. cbn [fst snd] in HgJ.
  change (loc_J root :: map (fun x : local_csr V => loc_J x) others)
    with (map loc_J (root :: others)) in HgJ.
  rewrite HgJ; clear HgJ;
    try first [ assumption | (rewrite length_replicate; reflexivity)
              | (cbn [length] in Htot; lia) ].
  cbn [mbind option_bind].
  pose proof (GatherArray_local_run indeterminate_int (loc_A root)
                (replicate (length (concat (map loc_A (root :: others))))
                           indeterminate)
                (map (fun x : local_csr V => (loc_A x, @nil V)) others)) as HgA.
  cbn zeta in HgA. rewrite length_map, !map_map in HgA. cbn [fst snd] in HgA.
  change (loc_A root :: map (fun x : local_csr V => loc_A x) others)
    with (map loc_A (root :: others)) in HgA.
  rewrite HgA; clear HgA;
    try first [ assumption | (rewrite length_replicate; reflexivity)
              | (cbn [length] in Htot; lia) ].
  cbn [mbind option_bind zip zip_with fst snd].
  do 3 f_equal.
  rewrite (zip_with_same pair), zip_with_same. reflexivity.
Qed.

Lemma setA_gather_concatenates_witness :
  let leader := {| loc_I := [0; 2; 5]; loc_J := [1; 2; 0; 1; 2];
                   loc_A := [11; 12; 20; 21; 22]; loc_row_len := 2 |} in
  let member := {| loc_I := [0; 3]; loc_J := [0; 1; 2];
                   loc_A := [30; 31; 32]; loc_row_len := 1 |} in
  setA_gather 0 0 2 [leader; member]
  = Some (3, [gathered [[0; 2; 5]; [0; 3]] [1; 2; 0; 1; 2; 0; 1; 2]
                       [11; 12; 20; 21; 22; 30; 31; 32];
              gathered [] [] []]).
Proof.
  cbn zeta.
  match goal with
  | |- setA_gather _ _ _ [?l; ?m] = _ =>
      exact (setA_gather_concatenates 0 0 l [m]
               ltac:(repeat constructor; cbn; lia)
               ltac:(cbn; lia) ltac:(cbn; lia) ltac:(cbn; lia))
  end.
Defined.

(** ** GetLocalA with any column map *)

Lemma leading_split {V : Type} (cm : list Z) (cstart : Z) (o : list (Z * V)) :
  exists lo hi,
    o = lo ++ hi /\
    Forall (fun e => LocalA.below cm cstart e = true) lo /\
    stops_at cm cstart hi /\
    forall d,
      row_as_filled cm cstart d o
      = map (fun e => (LocalA.global cm (fst e), snd e)) lo
        ++ map (fun e => (cstart + fst e, snd e)) d
        ++ map (fun e => (LocalA.global cm (fst e), snd e)) hi.
Proof.
  exists (take (leading cm cstart o) o), (drop (leading cm cstart o) o).
  split; [symmetry; apply take_drop|]. split; [|split; [|reflexivity]].
  - induction o as [|e o IH]; [constructor|].
    cbn [leading]. destruct (LocalA.below cm cstart e) eqn:E; [|constructor].
    cbn [take]. constructor; assumption.
  - induction o as [|e o IH]; [exact I|].
    cbn [leading]. destruct (LocalA.below cm cstart e) eqn:E; [exact IH|exact E].
Qed.

Lemma row_as_filled_length {V : Type} (cm : list Z) (cstart : Z)
  (d o : list (Z * V)) :
  length (row_as_filled cm cstart d o) = (length d + length o)%nat.
Proof.
  unfold row_as_filled. rewrite !length_app, !length_map.
  pose proof (f_equal (@length _) (take_drop (leading cm cstart o) o)) as H.
  rewrite length_app in H. lia.
Qed.

Lemma rows_as_filled_counts {V : Type} (cm : list Z) (cstart : Z)
  (ds : list (list (Z * V))) :
  forall os,
    map (fun r => Z.of_nat (length r)) (rows_as_filled cm cstart ds os)
    = row_counts ds os.
Proof.
  induction ds as [|d ds IH]; intros [|o os]; try reflexivity.
  cbn [rows_as_filled row_counts zip_with map].
  rewrite row_as_filled_length. unfold rows_as_filled, row_counts in IH.
  rewrite IH. f_equal. lia.
Qed.

Section AnyColumnMap.
Context {V : Type}.
Variable A : LocalA.HypreParMatrix V.
Variable cstart : Z.
Variables ds os : list (list (Z * V)).
Hypothesis HDiag : LocalA.Diag A = LocalA.csr ds.
Hypothesis HOffd : LocalA.Offd A = LocalA.csr os.
Hypothesis Hrows : Z.of_nat (length ds) + 1 < 2147483648.
Hypothesis Hdnnz : Z.of_nat (length (concat ds)) + Z.of_nat (length (concat os))
                   < 2147483648.
Implicit Types s : LocalA.local V.

Lemma lower_run_any lo :
  forall s hi (cpre cpost : list Z) (vpre vpost : list V),
    LocalA.GetJ (LocalA.Offd A) = cpre ++ map fst (lo ++ hi) ++ cpost ->
    LocalA.GetData (LocalA.Offd A) = vpre ++ map snd (lo ++ hi) ++ vpost ->
    LocalA.OffJ s = Z.of_nat (length cpre) ->
    LocalA.OffA s = Z.of_nat (length vpre) ->
    Forall (fun e => 0 <= fst e < Z.of_nat (length (LocalA.cmap A))) (lo ++ hi) ->
    Forall (fun e => LocalA.below (LocalA.cmap A) cstart e = true) lo ->
    stops_at (LocalA.cmap A) cstart hi ->
    room s (length lo) ->
    0 <= LocalA.jo s -> LocalA.jo s + Z.of_nat (length lo) < 2147483648 ->
    LocalA.lower_loop A cstart (length lo + length hi) s
    = Done (LocalA.emitted s
              (map (fun e => (LocalA.global (LocalA.cmap A) (fst e), snd e)) lo)
              0 (Z.of_nat (length lo)) (LocalA.jo s + Z.of_nat (length lo))).
Proof.
  induction lo as [|[c v] lo IH]; intros s hi cpre cpost vpre vpost HJ HD HoJ HoA
    Hval Hlo Hhi Hroom Hjo Hjomax.
  - cbn [length map Nat.add app] in *. rewrite Z.add_0_r, emitted_nothing.
    destruct hi as [|[c v] hi]; [reflexivity|].
    apply Forall_cons in Hval as [Hc _]. cbn [stops_at] in Hhi. rename Hhi into Hb.
    cbn [fst snd map app length] in *. cbn [LocalA.lower_loop].
    rewrite (get_middle _ cpre c (map fst hi ++ cpost) _ HJ HoJ), (get_global A c Hc).
    unfold LocalA.below in Hb. cbn [fst] in Hb.
    destruct (Z.geb_spec (LocalA.global (LocalA.cmap A) c) cstart) as [_|Hlt];
      [reflexivity|].
    apply Z.ltb_ge in Hb. lia.
  - apply Forall_cons in Hval as [Hc Hval]. apply Forall_cons in Hlo as [Hb Hlo].
    cbn [fst snd map app length Nat.add] in *. cbn [LocalA.lower_loop].
    rewrite (get_middle _ cpre c (map fst (lo ++ hi) ++ cpost) _ HJ HoJ),
            (get_global A c Hc).
    unfold LocalA.below in Hb. cbn [fst] in Hb. apply Z.ltb_lt in Hb.
    destruct (Z.geb_spec (LocalA.global (LocalA.cmap A) c) cstart) as [Hge|_];
      [lia|].
    rewrite (lower_step A s _ v vpre (map snd (lo ++ hi) ++ vpost) HD HoA)
      by (eapply room_less; [|exact Hroom]; lia).
    cbn [and_then].
    change (LocalA.jo (LocalA.emitted s [(LocalA.global (LocalA.cmap A) c, v)] 0 1
                         (LocalA.jo s))) with (LocalA.jo s).
    rewrite int_add_small by lia.
    change (LocalA.with_jo (LocalA.jo s + 1)
              (LocalA.emitted s [(LocalA.global (LocalA.cmap A) c, v)] 0 1
                 (LocalA.jo s)))
      with (LocalA.emitted s [(LocalA.global (LocalA.cmap A) c, v)] 0 1
              (LocalA.jo s + 1)).
    rewrite (IH _ hi (cpre ++ [c]) cpost (vpre ++ [v]) vpost).
    + destruct Hroom as (Hk & Hfit & Hlen & Hmax).
      rewrite emitted_more
        by (rewrite ?length_map; cbn [length]; first [assumption | lia]).
      cbn [LocalA.emitted LocalA.jo app]. f_equal. f_equal; lia.
    + rewrite HJ, <- app_assoc. reflexivity.
    + rewrite HD, <- app_assoc. reflexivity.
    + cbn [LocalA.emitted LocalA.OffJ]. rewrite HoJ, length_app. cbn. lia.
    + cbn [LocalA.emitted LocalA.OffA]. rewrite HoA, length_app. cbn. lia.
    + exact Hval.
    + exact Hlo.
    + exact Hhi.
    + apply room_emitted. exact Hroom.
    + cbn [LocalA.emitted LocalA.jo]. lia.
    + cbn [LocalA.emitted LocalA.jo]. lia.
Qed.

Lemma fill_row_any s (i o0 d0 : Z) (d lo hi : list (Z * V))
  (dcpre dcpost ocpre ocpost : list Z) (dvpre dvpost ovpre ovpost : list V) :
  Arr.get (LocalA.GetI (LocalA.Offd A)) i = Some o0 ->
  Arr.get (LocalA.GetI (LocalA.Offd A)) (i + 1)
  = Some (o0 + Z.of_nat (length (lo ++ hi))) ->
  Arr.get (LocalA.GetI (LocalA.Diag A)) i = Some d0 ->
  Arr.get (LocalA.GetI (LocalA.Diag A)) (i + 1) = Some (d0 + Z.of_nat (length d)) ->
  0 <= i -> i + 1 < 2147483648 ->
  0 <= o0 -> o0 + Z.of_nat (length (lo ++ hi)) < 2147483648 ->
  0 <= d0 -> d0 + Z.of_nat (length d) < 2147483648 ->
  LocalA.GetJ (LocalA.Diag A) = dcpre ++ map fst d ++ dcpost ->
  LocalA.GetData (LocalA.Diag A) = dvpre ++ map snd d ++ dvpost ->
  LocalA.DiagJ s = Z.of_nat (length dcpre) ->
  LocalA.DiagA s = Z.of_nat (length dvpre) ->
  LocalA.GetJ (LocalA.Offd A) = ocpre ++ map fst (lo ++ hi) ++ ocpost ->
  LocalA.GetData (LocalA.Offd A) = ovpre ++ map snd (lo ++ hi) ++ ovpost ->
  LocalA.OffJ s = Z.of_nat (length ocpre) ->
  LocalA.OffA s = Z.of_nat (length ovpre) ->
  Forall (fun e => 0 <= fst e < Z.of_nat (length (LocalA.cmap A))) (lo ++ hi) ->
  Forall (fun e => LocalA.below (LocalA.cmap A) cstart e = true) lo ->
  stops_at (LocalA.cmap A) cstart hi ->
  Forall (fun e => -2147483648 <= cstart + fst e < 2147483648) d ->
  room s (length lo + length d + length hi) ->
  LocalA.fill_row A cstart i s
  = Done (LocalA.emitted s
            (map (fun e => (LocalA.global (LocalA.cmap A) (fst e), snd e)) lo
             ++ map (fun e => (cstart + fst e, snd e)) d
             ++ map (fun e => (LocalA.global (LocalA.cmap A) (fst e), snd e)) hi)
            (Z.of_nat (length d)) (Z.of_nat (length (lo ++ hi)))
            (Z.of_nat (length lo))).
Proof.
  intros Ho0 Ho1 Hd0 Hd1 Hi Himax Ho0n Homax Hd0n Hdmax HdJ HdD HsdJ HsdA
    HoJ HoD HsoJ HsoA Hval Hlo Hhi Hdr Hroom.
  pose proof Hroom as (Hk & Hfit & Hlen & Hmax).
  unfold LocalA.fill_row. rewrite int_add_small by lia.
  rewrite Ho1, Ho0, Hd1, Hd0.
  rewrite !int_sub_small by lia.
  replace (o0 + Z.of_nat (length (lo ++ hi)) - o0)
    with (Z.of_nat (length (lo ++ hi))) by lia.
  replace (d0 + Z.of_nat (length d) - d0) with (Z.of_nat (length d)) by lia.
  rewrite Nat2Z.id, length_app.
  rewrite (lower_run_any lo (LocalA.with_jo 0 s) hi ocpre ocpost ovpre ovpost);
    try first [assumption | (cbn [LocalA.with_jo LocalA.jo]; lia)].
  2:{ eapply room_less; [|exact Hroom]. lia. }
  cbn [and_then]. rewrite emitted_with_jo.
  cbn [LocalA.with_jo LocalA.jo]. rewrite Z.add_0_l.
  unfold for_range. rewrite Z.sub_0_r, Nat2Z.id.
  rewrite (diag_run A cstart d _ 0 dcpre dcpost dvpre dvpost);
    try first [assumption
              | (cbn [LocalA.emitted LocalA.DiagJ LocalA.DiagA]; lia)].
  2:{ apply room_emitted. rewrite length_map.
      eapply room_less; [|exact Hroom]. lia. }
  cbn [and_then].
  rewrite emitted_more
    by (rewrite ?length_map; first [assumption | lia]).
  rewrite !jo_emitted.
  replace (Z.to_nat (Z.of_nat (length lo + length hi) - Z.of_nat (length lo)))
    with (length hi) by lia.
  match goal with
  | |- iterate _ _ _ ?s1 = _ =>
      rewrite (upper_run A hi s1 (Z.of_nat (length lo)) (ocpre ++ map fst lo) ocpost
                 (ovpre ++ map snd lo) ovpost)
  end.
  - rewrite emitted_more
      by (rewrite ?length_app, ?length_map; first [assumption | lia]).
    rewrite <- app_assoc. f_equal.
    rewrite ?jo_emitted.
    f_equal; lia.
  - rewrite HoJ, map_app, <- !app_assoc. reflexivity.
  - rewrite HoD, map_app, <- !app_assoc. reflexivity.
  - cbn [LocalA.emitted LocalA.OffJ]. rewrite HsoJ, length_app, length_map. lia.
  - cbn [LocalA.emitted LocalA.OffA]. rewrite HsoA, length_app, length_map. lia.
  - apply Forall_app in Hval as [_ Hval]. exact Hval.
  - apply room_emitted. rewrite length_app, !length_map.
    eapply room_less; [|exact Hroom]. lia.
Qed.

Lemma fill_rows_any td :
  forall to dd do_ s,
    ds = dd ++ td -> os = do_ ++ to ->
    length dd = length do_ -> length td = length to ->
    LocalA.DiagJ s = Z.of_nat (length (concat dd)) ->
    LocalA.DiagA s = Z.of_nat (length (concat dd)) ->
    LocalA.OffJ s = Z.of_nat (length (concat do_)) ->
    LocalA.OffA s = Z.of_nat (length (concat do_)) ->
    Forall (Forall (fun e => 0 <= fst e < Z.of_nat (length (LocalA.cmap A)))) to ->
    Forall (Forall (fun e => -2147483648 <= cstart + fst e < 2147483648)) td ->
    room s (length (concat td) + length (concat to)) ->
    exists j,
      iterate (LocalA.fill_row A cstart) (Z.of_nat (length dd)) (length td) s
      = Done (LocalA.emitted s
                (concat (rows_as_filled (LocalA.cmap A) cstart td to))
                (Z.of_nat (length (concat td))) (Z.of_nat (length (concat to))) j).
Proof.
  induction td as [|d td IH]; intros to dd do_ s Hds Hos Hdd Htd HsdJ HsdA HsoJ HsoA
    Hval Hdr Hroom.
  - destruct to; [|discriminate]. exists (LocalA.jo s).
    cbn [length iterate rows_as_filled zip_with concat].
    rewrite emitted_nothing. reflexivity.
  - destruct to as [|o to]; [discriminate|].
    cbn [length] in Htd. cbn [length iterate].
    destruct (leading_split (LocalA.cmap A) cstart o) as (lo & hi & Eo & Hlo & Hhi & Erow).
    apply Forall_cons in Hval as [Hv Hval].
    apply Forall_cons in Hdr as [Hd Hdr].
    pose proof (csr_I_row dd d td) as [Hd0 Hd1].
    pose proof (csr_I_row do_ o to) as [Ho0 Ho1].
    rewrite <- Hds, <- HDiag in Hd0, Hd1.
    rewrite <- Hos, <- HOffd, <- Hdd in Ho0, Ho1.
    pose proof (concat_row_le ds os dd d td) as Bd. rewrite <- Hds in Bd.
    pose proof (concat_row_le ds os do_ o to) as Bo. rewrite <- Hos in Bo.
    assert (Z.of_nat (length dd) < Z.of_nat (length ds)) as Bi
      by (rewrite Hds, length_app; cbn [length]; lia).
    pose proof Hroom as (Hk & Hfit & Hlen & Hmax).
    cbn [concat] in Hroom, Hfit. rewrite !length_app in Hroom, Hfit.
    subst o.
    rewrite (fill_row_any s (Z.of_nat (length dd))
               (Z.of_nat (length (concat do_))) (Z.of_nat (length (concat dd)))
               d lo hi
               (concat (map (map fst) dd)) (concat (map (map fst) td))
               (concat (map (map fst) do_)) (concat (map (map fst) to))
               (concat (map (map snd) dd)) (concat (map (map snd) td))
               (concat (map (map snd) do_)) (concat (map (map snd) to)));
      try first [ assumption | lia
                | (rewrite ?length_concat_map; assumption)
                | (rewrite HDiag, Hds; first [apply csr_J_row | apply csr_Data_row])
                | (rewrite HOffd, Hos; first [apply csr_J_row | apply csr_Data_row]) ].
    2:{ eapply room_less; [|exact Hroom]. rewrite length_app. lia. }
    cbn [and_then].
    replace (Z.of_nat (length dd) + 1) with (Z.of_nat (length (dd ++ [d])))
      by (rewrite length_app; cbn [length]; lia).
    match goal with
    | |- context [iterate _ _ _ ?s1] =>
        destruct (IH to (dd ++ [d]) (do_ ++ [lo ++ hi]) s1) as [j Hj]
    end.
    + rewrite <- app_assoc. exact Hds.
    + rewrite <- app_assoc. exact Hos.
    + rewrite !length_app. cbn [length]. lia.
    + lia.
    + cbn [LocalA.emitted LocalA.DiagJ]. rewrite HsdJ, concat_app, length_app.
      cbn [concat]. rewrite app_nil_r. lia.
    + cbn [LocalA.emitted LocalA.DiagA]. rewrite HsdA, concat_app, length_app.
      cbn [concat]. rewrite app_nil_r. lia.
    + cbn [LocalA.emitted LocalA.OffJ]. rewrite HsoJ, concat_app, !length_app.
      cbn [concat]. rewrite app_nil_r, length_app. lia.
    + cbn [LocalA.emitted LocalA.OffA]. rewrite HsoA, concat_app, !length_app.
      cbn [concat]. rewrite app_nil_r, length_app. lia.
    + exact Hval.
    + exact Hdr.
    + apply room_emitted. rewrite !length_app, !length_map.
      eapply room_less; [|exact Hroom]. rewrite length_app. lia.
    + exists j. rewrite Hj.
      rewrite emitted_more.
      * cbn [rows_as_filled zip_with concat].
        rewrite (Erow d).
        cbn [concat]. rewrite !length_app. unfold rows_as_filled.
        rewrite !Nat2Z.inj_add. reflexivity.
      * exact Hk.
      * rewrite !length_app, !length_map.
        change (zip_with (row_as_filled (LocalA.cmap A) cstart) td to)
          with (rows_as_filled (LocalA.cmap A) cstart td to).
        assert (length (concat (rows_as_filled (LocalA.cmap A) cstart td to))
                = (length (concat td) + length (concat to))%nat) as ->.
        { clear -Htd. revert to Htd. induction td as [|d' td IHt]; intros [|o' to] Htd;
            try discriminate; [reflexivity|].
          cbn [rows_as_filled zip_with concat]. rewrite !length_app.
          rewrite row_as_filled_length.
          change (zip_with (row_as_filled (LocalA.cmap A) cstart) td to)
            with (rows_as_filled (LocalA.cmap A) cstart td to).
          rewrite IHt by (cbn [length] in Htd; lia). lia. }
        rewrite !length_app in Hfit. lia.
      * exact Hlen.
Qed.

End AnyColumnMap.

(** X11. Whatever the column map holds, for diagonal and off-diagonal
    CSR blocks of the same number of rows, that number being the distance
    of the two row partition offsets, with the off-diagonal column indices
    inside the column map and all counts and global columns within [int],
    [GetLocalA] completes and every row of the fragment is: the
    off-diagonal entries up to the first one whose global column is not
    left of the column range, the diagonal entries, then all the
    off-diagonal entries that are left, in the order they are stored.  No
    entry is dropped or repeated, whether or not the map is in order. *)
Theorem GetLocalA_any_cmap {V : Type} (indeterminate : V) (indeterminate_int : Z)
  (A : LocalA.HypreParMatrix V) (ds os : list (list (Z * V)))
  (r0 r1 cstart : Z) (s : LocalA.local V) :
  LocalA.Diag A = LocalA.csr ds ->
  LocalA.Offd A = LocalA.csr os ->
  length ds = length os ->
  Arr.get (LocalA.RowPart A) 0 = Some r0 ->
  Arr.get (LocalA.RowPart A) 1 = Some r1 ->
  Arr.get (LocalA.ColPart A) 0 = Some cstart ->
  Z.abs (r1 - r0) = Z.of_nat (length ds) ->
  Z.of_nat (length ds) + 1 < 2147483648 ->
  Z.of_nat (length (concat ds)) + Z.of_nat (length (concat os)) < 2147483648 ->
  Forall (Forall (fun e => 0 <= fst e < Z.of_nat (length (LocalA.cmap A)))) os ->
  Forall (Forall (fun e => -2147483648 <= cstart + fst e < 2147483648)) ds ->
  exists s',
    LocalA.GetLocalA indeterminate indeterminate_int A s = Done s' /\
    LocalA.I s' = offsets_from 0 (row_counts ds os) /\
    LocalA.J s'
    = concat (map (map fst) (rows_as_filled (LocalA.cmap A) cstart ds os)) /\
    LocalA.Data s'
    = concat (map (map snd) (rows_as_filled (LocalA.cmap A) cstart ds os)) /\
    map (fun r => Z.of_nat (length r))
      (rows_as_filled (LocalA.cmap A) cstart ds os)
    = row_counts ds os.
Proof.
  intros HD HO Hlen Hr0 Hr1 Hc Hn Hrows Hnnz Hval Hdr.
  pose proof (sum_row_counts ds os Hlen) as Hsum.
  pose proof (row_counts_length ds os Hlen) as Hrc.
  unfold LocalA.GetLocalA. rewrite Hr1, Hr0.
  rewrite int_sub_small by lia. rewrite int_abs_small by lia. rewrite Hn.
  rewrite int_add_small by lia.
  replace (Z.to_nat (Z.of_nat (length ds) + 1)) with (S (length ds)) by lia.
  cbn [replicate].
  change (Arr.set (indeterminate_int :: replicate (length ds) indeterminate_int) 0 0)
    with (Arr.set (indeterminate_int :: replicate (length ds) indeterminate_int)
            (Z.of_nat 0) 0).
  rewrite set_in_range by (cbn [length]; lia).
  cbn [insert list_insert].
  unfold for_range. rewrite !Z.sub_0_r, !Nat2Z.id.
  change 0 with (Z.of_nat (@length (list (Z * V)) [])) at 2.
  rewrite (count_rows_run A ds os HD HO Hrows Hnnz ds os [] [] _ [] 0
             (replicate (length ds) indeterminate_int))
    by first [ reflexivity | assumption
             | (rewrite length_replicate; lia) ].
  cbn [and_then app LocalA.with_I LocalA.I LocalA.jo].
  rewrite drop_ge by (rewrite length_replicate; lia).
  rewrite app_nil_r.
  rewrite get_nat, offsets_from_lookup by lia.
  rewrite take_ge by lia. rewrite Hsum, Z.add_0_l. rewrite Hc.
  match goal with
  | |- context [iterate _ _ _ ?s0] =>
      destruct (fill_rows_any A cstart ds os HD HO Hrows Hnnz ds os [] [] s0)
        as [j Hj]
  end; try first [ reflexivity | assumption ].
  { unfold room. cbn [LocalA.k LocalA.J LocalA.Data].
    rewrite !length_replicate. lia. }
  cbn [length] in Hj. change (Z.of_nat 0) with 0 in Hj.
  eexists. split; [exact Hj|].
  unfold LocalA.emitted. cbn [LocalA.I LocalA.J LocalA.Data LocalA.k].
  change (Z.to_nat 0) with 0%nat.
  assert (length (concat (rows_as_filled (LocalA.cmap A) cstart ds os))
          = Z.to_nat (Z.of_nat (length (concat ds)) + Z.of_nat (length (concat os))))
    as Hfl.
  { rewrite <- Hsum, <- (rows_as_filled_counts (LocalA.cmap A) cstart ds os).
    rewrite sum_sizes_concat. lia. }
  rewrite !splice_all by (rewrite length_map, length_replicate; exact Hfl).
  rewrite !concat_map.
  split; [reflexivity|]. split; [reflexivity|]. split; [reflexivity|].
  apply rows_as_filled_counts.
Qed.

Lemma GetLocalA_any_cmap_witness :
  let ds := [[(0, 10)]] in
  let os := [[(0, 20); (1, 21)]] in
  let A := {| LocalA.Diag := LocalA.csr ds; LocalA.Offd := LocalA.csr os;
              LocalA.cmap := [10; 2]; LocalA.RowPart := [0; 1];
              LocalA.ColPart := [5; 6] |} in
  exists s',
    LocalA.GetLocalA 0 0 A (LocalA.entry [] [] []) = Done s' /\
    LocalA.I s' = [0; 3] /\
    LocalA.J s' = [5; 10; 2] /\
    LocalA.Data s' = [10; 20; 21].
Proof.
  cbn zeta.
  assert (Forall (Forall (fun e : Z * Z => 0 <= fst e < 2)) [[(0, 20); (1, 21)]])
    as Hval.
  { repeat constructor; cbn; lia. }
  assert (Forall (Forall (fun e : Z * Z => -2147483648 <= 5 + fst e < 2147483648))
            [[(0, 10)]]) as Hdr.
  { repeat constructor; cbn; lia. }
  destruct (GetLocalA_any_cmap 0 0
              {| LocalA.Diag := LocalA.csr [[(0, 10)]];
                 LocalA.Offd := LocalA.csr [[(0, 20); (1, 21)]];
                 LocalA.cmap := [10; 2]; LocalA.RowPart := [0; 1];
                 LocalA.ColPart := [5; 6] |}
              [[(0, 10)]] [[(0, 20); (1, 21)]]
              0 1 5 (LocalA.entry [] [] [])
              eq_refl eq_refl eq_refl eq_refl eq_refl eq_refl eq_refl
              ltac:(cbn; lia) ltac:(cbn; lia) Hval Hdr)
    as (s' & Hrun & HI & HJ & HData & _).
  exists s'. split; [exact Hrun|].
  split; [exact HI|]. split; [exact HJ|exact HData].
Defined.
